(** * Binding & Action Runtime: expression engine and action manager

    A shallow embedding of [ExpressionEngine] (src/unnamed/part_001) and
    [ActionManager] (src/src/engine/ActionManager.ts), with the properties
    the specification states about them; and of the code around them:
    [evaluateComponentProps], [createRuntime] and [HistoryManager]
    (src/src/engine/RuntimeRenderer.tsx) and the browser-storage methods
    of [PersistenceService] (src/src/services/PersistenceService.ts), with
    further properties of the code.

    Modelling conventions.
    - A JavaScript string is a Rocq [string]; a character is one code unit
      in the range 0..255, so ASCII punctuation, [\w] and the Latin-1 part
      of [trim]'s white space are exact.
    - A [Map] is a [gmap]; a [Set] of listeners is a duplicate-free list in
      insertion order (the order [forEach] visits).
    - Methods are state-passing functions that return an [Outcome]: a
      returned value or a thrown value.  [await] is sequencing: no other
      call is interleaved at a suspension point.
    - The JavaScript engine behind [new Function], the browser APIs and the
      host callbacks are parameters ([Host]); theorems hold for every
      host.  Callbacks and listeners act on the host's state and may
      throw; they do not call back into the engine or the manager.

    The first part is the embedding, with the termination lemmas its
    loops need and the vocabulary of the properties; the second part
    states and proves the properties. *)

From Equations Require Import Equations.
From Equations.Prop Require Import Logic.
From Stdlib Require Import Ascii String List ZArith Lia DecimalString.
From stdpp Require Import gmap strings list.
Import ListNotations.

Local Open Scope char_scope.
Local Open Scope list_scope.

(** * The embedding *)

(** ** Text: strings as lists of code units *)

Abbreviation chars := (list ascii).

Definition chars_of (s : string) : chars := list_ascii_of_string s.
Definition text_of (l : chars) : string := string_of_list_ascii l.

(** [strip_prefix p s]: [s] begins with the literal [p]; the result is
    what follows it. *)
Fixpoint strip_prefix (p s : chars) : option chars :=
  match p, s with
  | [], _ => Some s
  | a :: p', b :: s' => if Ascii.eqb a b then strip_prefix p' s' else None
  | _ :: _, [] => None
  end.

(** [String.prototype.includes]: [kw] occurs in [s] as a substring. *)
Fixpoint includes_chars (s kw : chars) : bool :=
  match strip_prefix kw s with
  | Some _ => true
  | None => match s with
            | [] => false
            | _ :: s' => includes_chars s' kw
            end
  end.

Definition includes (s kw : string) : bool :=
  includes_chars (chars_of s) (chars_of kw).

(** White space of [String.prototype.trim] among the code units 0..255:
    TAB, LF, VT, FF, CR, SPACE and NBSP (U+00A0). *)
Definition is_js_space (c : ascii) : bool :=
  match c with
  | "009" | "010" | "011" | "012" | "013" | " " | "160" => true
  | _ => false
  end.

Fixpoint drop_while (f : ascii -> bool) (s : chars) : chars :=
  match s with
  | [] => []
  | c :: s' => if f c then drop_while f s' else s
  end.

Definition trim_chars (s : chars) : chars :=
  rev (drop_while is_js_space (rev (drop_while is_js_space s))).

Definition trim (s : string) : string := text_of (trim_chars (chars_of s)).

(** The class [\w]. *)
Definition is_word (c : ascii) : bool :=
  let n := nat_of_ascii c in
  (((48 <=? n) && (n <=? 57)) || ((65 <=? n) && (n <=? 90))
   || ((97 <=? n) && (n <=? 122)) || (n =? 95))%nat.

(** Longest prefix of characters satisfying [f], and what follows it:
    a greedy [f+] / [f*] run. *)
Fixpoint span (f : ascii -> bool) (s : chars) : chars * chars :=
  match s with
  | [] => ([], [])
  | c :: s' =>
      if f c then let '(a, b) := span f s' in (c :: a, b) else ([], s)
  end.

(** ** Regular-expression scanning

    A pattern is given by its matcher at a fixed position: [here s] is
    [Some (g, rest)] when the pattern matches at the first character of
    [s], with capture group [g] and [rest] the text after the match.  Both
    patterns of the engine consume at least one character. *)
Section RegExp.
Variable here : chars -> option (chars * chars).
Hypothesis here_shorter :
  forall s g rest, here s = Some (g, rest) -> length rest < length s.

(** [regex.exec] from the current [lastIndex]: the leftmost match, as
    the text skipped before it, its group and the text after it. *)
Fixpoint exec (s : chars) : option (chars * chars * chars) :=
  match here s with
  | Some (g, rest) => Some ([], g, rest)
  | None =>
      match s with
      | [] => None
      | c :: s' =>
          match exec s' with
          | Some (before, g, rest) => Some (c :: before, g, rest)
          | None => None
          end
      end
  end.

Lemma exec_shorter s before g rest :
  exec s = Some (before, g, rest) -> length rest < length s.
Proof using here_shorter.
  revert before. induction s as [|c s IH]; intros before; simpl.
  - destruct (here []) as [[g' r']|] eqn:E; [|discriminate].
    intros [= <- <- <-]. now apply here_shorter in E.
  - destruct (here (c :: s)) as [[g' r']|] eqn:E.
    + intros [= <- <- <-]. now apply here_shorter in E.
    + destruct (exec s) as [[[b' g'] r']|]; [|discriminate].
      intros [= <- <- <-]. specialize (IH _ eq_refl). simpl. lia.
Qed.

(** The loop [while ((match = regex.exec(text)) !== null) push(...)] of
    a global pattern: the groups of the successive matches, each search
    resuming where the previous match ended. *)
Equations? exec_all (s : chars) : list chars by wf (length s) lt :=
  exec_all s with inspect (exec s) := {
    | exist _ (Some (_, g, rest)) E => g :: exec_all rest
    | exist _ None E => [] }.
Proof. eapply exec_shorter; eassumption. Qed.

End RegExp.

Lemma span_length f s :
  length s = length (fst (span f s)) + length (snd (span f s)).
Proof.
  induction s as [|c s IH]; simpl; [reflexivity|].
  destruct (f c); [|reflexivity].
  destruct (span f s) as [a b]. simpl in *. lia.
Qed.

Lemma strip_prefix_length p s r :
  strip_prefix p s = Some r -> length s = length p + length r.
Proof.
  revert s. induction p as [|a p IH]; intros [|b s]; simpl; try discriminate.
  - intros [= <-]. reflexivity.
  - intros [= <-]. reflexivity.
  - destruct (Ascii.eqb a b); [|discriminate].
    intros H. apply IH in H. lia.
Qed.

(** ** The marker pattern [/\{\{([^}]+)\}\}/]

    The group [[^}]+] is greedy and cannot hold a closing brace, so it is
    the whole run of non-brace characters after the two opening braces; it
    must be non-empty and two closing braces must follow it at once. *)
Definition not_close (c : ascii) : bool := negb (Ascii.eqb c "}").

Definition marker_here (s : chars) : option (chars * chars) :=
  match strip_prefix ["{"; "{"] s with
  | Some s1 =>
      let '(g, r) := span not_close s1 in
      match g, strip_prefix ["}"; "}"] r with
      | _ :: _, Some rest => Some (g, rest)
      | _, _ => None
      end
  | None => None
  end.

Lemma marker_here_shorter s g rest :
  marker_here s = Some (g, rest) -> length rest < length s.
Proof.
  unfold marker_here.
  destruct (strip_prefix ["{"; "{"] s) as [s1|] eqn:E1; [|discriminate].
  pose proof (span_length not_close s1) as Hs.
  destruct (span not_close s1) as [g' r].
  destruct g' as [|c g']; [discriminate|].
  destruct (strip_prefix ["}"; "}"] r) as [rest'|] eqn:E2; [|discriminate].
  intros [= <- <-].
  apply strip_prefix_length in E1, E2. simpl in *. lia.
Qed.

(** [extractExpressions]: the trimmed group of every match, left to
    right. *)
Definition extractExpressions (text : string) : list string :=
  map (fun g => text_of (trim_chars g))
      (exec_all marker_here marker_here_shorter (chars_of text)).

(** [hasExpression]: [regex.test(text)] with the same pattern. *)
Definition hasExpression (text : string) : bool :=
  match exec marker_here (chars_of text) with
  | Some _ => true
  | None => false
  end.

(** ** The reference patterns [/widgets\.(\w+)/g], [/actions\.(\w+)/g]
    and [/page\.(\w+)/g]

    The namespace name and a dot, then the greedy, non-empty run of word
    characters, which is the capture group. *)
Definition ref_here (ns : chars) (s : chars) : option (chars * chars) :=
  match strip_prefix (ns ++ ["."]) s with
  | Some s1 =>
      let '(id, rest) := span is_word s1 in
      match id with
      | _ :: _ => Some (id, rest)
      | [] => None
      end
  | None => None
  end.

Lemma ref_here_shorter ns s g rest :
  ref_here ns s = Some (g, rest) -> length rest < length s.
Proof.
  unfold ref_here.
  destruct (strip_prefix (ns ++ ["."]) s) as [s1|] eqn:E1; [|discriminate].
  pose proof (span_length is_word s1) as Hs.
  destruct (span is_word s1) as [id r].
  destruct id as [|c id]; [discriminate|].
  intros [= <- <-].
  apply strip_prefix_length in E1. rewrite length_app in E1.
  simpl in *. lia.
Qed.

(** One of the three loops of [getDependencies]: every match of the
    pattern for namespace [ns], pushed as [`ns.${match[1]}`]. *)
Definition refs_of (ns : string) (expression : string) : list string :=
  map (fun id => ns +:+ "." +:+ text_of id)
      (exec_all (ref_here (chars_of ns)) (ref_here_shorter (chars_of ns))
                (chars_of expression)).

(** [[...new Set(deps)]]: a [Set] keeps the first insertion of each
    element and iterates in insertion order. *)
Definition set_add (acc : list string) (x : string) : list string :=
  if decide (x ∈ acc) then acc else acc ++ [x].

Definition array_of_set (deps : list string) : list string :=
  fold_left set_add deps [].

Definition getDependencies (expression : string) : list string :=
  let deps := [] in
  let deps := deps ++ refs_of "widgets" expression in
  let deps := deps ++ refs_of "actions" expression in
  let deps := deps ++ refs_of "page" expression in
  array_of_set deps.

Local Close Scope char_scope.

(** ** JavaScript values, thrown values and outcomes

    Numbers are integers ([Z]); a function value is known by its name only.
    An object is the list of its own enumerable properties in enumeration
    order. *)
#[local] Set Warnings "-register-all".
Inductive JsValue : Type :=
| JsUndefined
| JsNull
| JsBool (b : bool)
| JsNumber (n : Z)
| JsString (s : string)
| JsArray (items : list JsValue)
| JsObject (props : list (string * JsValue))
| JsFunction (name : string).

(** What a [throw] carries: an [Error] object with its message, or any
    other value. *)
Inductive JsThrown : Type :=
| JsError (message : string)
| JsThrownValue (v : JsValue).

(** [error instanceof Error ? error.message : 'Unknown error'] *)
Definition error_message (error : JsThrown) : string :=
  match error with
  | JsError message => message
  | JsThrownValue _ => "Unknown error"
  end.

Inductive Outcome (A : Type) : Type :=
| Return (a : A)
| Throw (error : JsThrown).
Arguments Return {A} a.
Arguments Throw {A} error.

(** Truthiness, as [!v] and [v ? a : b] test it. *)
Definition truthy (v : JsValue) : bool :=
  match v with
  | JsUndefined | JsNull => false
  | JsBool b => b
  | JsNumber n => negb (n =? 0)%Z
  | JsString s => negb (String.eqb s "")
  | JsArray _ | JsObject _ | JsFunction _ => true
  end.

(** Property read [o.k] on the own properties of an object literal. *)
Fixpoint get_prop (props : list (string * JsValue)) (k : string) : JsValue :=
  match props with
  | [] => JsUndefined
  | (k', v) :: rest => if String.eqb k' k then v else get_prop rest k
  end.

(** ** Computations with state and exceptions *)
Definition Eff (S A : Type) : Type := S -> Outcome A * S.

Definition ret {S A} (a : A) : Eff S A := fun s => (Return a, s).

Definition throw {S A} (error : JsThrown) : Eff S A :=
  fun s => (Throw error, s).

Definition bind {S A B} (m : Eff S A) (k : A -> Eff S B) : Eff S B :=
  fun s =>
    match m s with
    | (Return a, s') => k a s'
    | (Throw error, s') => (Throw error, s')
    end.

(** [try { m } catch (error) { handler error }] *)
Definition try_catch {S A} (m : Eff S A) (handler : JsThrown -> Eff S A)
  : Eff S A :=
  fun s =>
    match m s with
    | (Return a, s') => (Return a, s')
    | (Throw error, s') => handler error s'
    end.

Definition of_outcome {S A} (o : Outcome A) : Eff S A := fun s => (o, s).

Definition modify {S} (f : S -> S) : Eff S unit := fun s => (Return tt, f s).

Definition gets {S A} (f : S -> A) : Eff S A := fun s => (Return (f s), s).

(** Run a computation on a part of the state. *)
Definition zoom {S T A} (get : S -> T) (set : T -> S -> S) (m : Eff T A)
  : Eff S A :=
  fun s => let '(r, t') := m (get s) in (r, set t' s).

Declare Scope eff_scope.
Delimit Scope eff_scope with eff.
Notation "x <- m ;; k" := (bind m (fun x => k))
  (at level 100, m at next level, right associativity) : eff_scope.
Notation "m ;; k" := (bind m (fun _ => k))
  (at level 100, right associativity) : eff_scope.
Local Open Scope eff_scope.

(** ** [String.prototype.replace] with a replacer function *)
Section Replace.
Variable here : chars -> option (chars * chars).
Hypothesis here_shorter :
  forall s g rest, here s = Some (g, rest) -> length rest < length s.

(** [text.replace(regex, replacer)] for a global pattern: every match,
    left to right, is replaced by what [replacer] returns for its group;
    the text between matches is kept. *)
Equations? replace_all {S : Type} (replacer : chars -> Eff S chars)
    (s : chars) : Eff S chars by wf (length s) lt :=
  replace_all replacer s with inspect (exec here s) := {
    | exist _ (Some (before, g, rest)) E => fun st =>
        match replacer g st with
        | (Return r, st1) =>
            match replace_all replacer rest st1 with
            | (Return out, st2) => (Return (before ++ r ++ out), st2)
            | (Throw error, st2) => (Throw error, st2)
            end
        | (Throw error, st1) => (Throw error, st1)
        end
    | exist _ None E => fun st => (Return s, st) }.
Proof. eapply exec_shorter; eassumption. Qed.
End Replace.

(** ** The evaluation context and the engine object *)
Record EvaluationContext : Type := {
  widgets : JsValue;
  actions : JsValue;
  page : JsValue;
  utils : JsValue;
  store : JsValue
}.

(** [Partial<EvaluationContext>]: each key is present or not. *)
Record PartialContext : Type := {
  p_widgets : option JsValue;
  p_actions : option JsValue;
  p_page : option JsValue;
  p_utils : option JsValue;
  p_store : option JsValue
}.

Record CacheEntry : Type := {
  value : JsValue;
  deps : list string
}.

Record ExpressionEngine : Type := {
  context : EvaluationContext;
  cache : gmap string CacheEntry
}.

(** What the executors read of a [fetch] response. *)
Record Response (W : Type) : Type := {
  ok : bool;
  status : string;
  statusText : string;
  content_type : option string;
  json : W -> Outcome JsValue * W;
  text : W -> Outcome JsValue * W
}.
Arguments ok {W} _.
Arguments status {W} _.
Arguments statusText {W} _.
Arguments content_type {W} _.
Arguments json {W} _.
Arguments text {W} _.

(** ** The host

    Everything outside the two classes: the JavaScript engine that parses
    and runs the text given to [new Function], the console and the browser
    APIs the executors call.  [W] is the host's state.

    The text of an expression is spliced into
    [try { return (<text>); } catch (error) { ... }]; [js_compile] says
    whether [new Function] accepts the body ([Some error]: it throws at
    once and nothing runs), and [js_run] is the run of the spliced text
    with the five namespaces bound, which may read and change the
    namespace objects and the host: it ends in the value the function
    returns, or in an error.  The text need not be an expression: one that
    closes the parenthesis and the [try] block adds statements of its own,
    and an error raised by them, outside the generated block, is not
    handled by the generated [catch] clause.  [js_uncaught] says, for a
    run that ends in an error, whether the error was raised outside the
    generated block; it is [false] for every text that is an expression.
    Nothing can follow the generated clause, so the flag [throwOnError],
    which only chooses its content, changes nothing else of the run.

    A browser call stands for what happens before it returns; the promise
    of [navigator.clipboard.writeText] is not awaited by the source, and
    its later rejection reaches neither [run] nor the caller. *)
Class Host (W : Type) : Type := {
  js_compile : string -> option JsThrown;
  js_run : string -> Eff (EvaluationContext * W) JsValue;
  js_uncaught : string -> EvaluationContext * W -> bool;
  (** [String(v)], [JSON.stringify(v)], [JSON.parse(v)] *)
  js_String : JsValue -> Outcome string;
  JSON_stringify : JsValue -> Outcome JsValue;
  JSON_parse : JsValue -> Outcome JsValue;
  (** [console.warn(label, subject, error)] and [console.log(label, v)] *)
  console_warn : string -> JsValue -> JsThrown -> W -> W;
  console_log : string -> JsValue -> W -> W;
  (** [evaluate] applied, against its declared parameter type, to a truthy
      value that is not a string (such a value is never a key of the
      cache of source texts) *)
  evaluate_untyped : JsValue -> bool -> Eff (EvaluationContext * W) JsValue;
  (** [fetch(url, init)]; the third argument is the delay after which the
      request is aborted, when there is one *)
  fetch : JsValue -> JsValue -> option JsValue -> Eff W (Response W);
  (** [alert], [window.location.href = path],
      [navigator.clipboard.writeText], the anchor click of a download *)
  alert : JsValue -> Eff W unit;
  location_assign : JsValue -> Eff W unit;
  clipboard_writeText : JsValue -> Eff W unit;
  anchor_download : JsValue -> JsValue -> Eff W unit;
  (** [localStorage] *)
  localStorage_setItem : JsValue -> JsValue -> Eff W unit;
  localStorage_getItem : JsValue -> Eff W JsValue;
  localStorage_removeItem : JsValue -> Eff W unit;
  localStorage_clear : Eff W unit
}.

(** The integers a number holds exactly: up to 2^53 in absolute value.
    Their decimal digits are what [String] prints. *)
Definition safe_integer (n : Z) : bool :=
  (Z.abs n <=? 9007199254740992)%Z.

(** [String(v)] and template-literal interpolation: exact on strings,
    [undefined], [null], booleans and safe integers; the host's on larger
    numbers (which are rounded and, from 1e21, printed with an exponent)
    and on arrays, objects and functions. *)
Definition to_String {W} `{Host W} (v : JsValue) : Outcome string :=
  match v with
  | JsString s => Return s
  | JsUndefined => Return "undefined"
  | JsNull => Return "null"
  | JsBool true => Return "true"
  | JsBool false => Return "false"
  | JsNumber n =>
      if safe_integer n then Return (NilZero.string_of_int (Z.to_int n))
      else js_String v
  | _ => js_String v
  end.

(** ** ExpressionEngine *)

(** [createUtilsObject]: the utility functions, by name. *)
Definition createUtilsObject : JsValue :=
  JsObject
    (map (fun name => (name, JsFunction name))
       ["formatDate"; "formatCurrency"; "formatNumber"; "parseJSON";
        "stringifyJSON"; "toLowerCase"; "toUpperCase"; "trim"; "split";
        "join"; "map"; "filter"; "find"; "sum"; "average"; "min"; "max";
        "round"; "floor"; "ceil"; "random"; "randomInt"; "uuid"; "now";
        "timestamp"]).

(** [constructor] *)
Definition new_ExpressionEngine : ExpressionEngine :=
  {| context := {| widgets := JsObject [];
                   actions := JsObject [];
                   page := JsObject [];
                   utils := createUtilsObject;
                   store := JsObject [] |};
     cache := ∅ |}.

Definition forbidden : list string :=
  ["eval"; "Function"; "constructor"; "prototype"; "__proto__"; "window";
   "document"; "global"; "process"; "require"; "import"; "fetch";
   "XMLHttpRequest"].

(** [sanitizeExpression]: the loop throws at the first keyword of the
    list that the expression includes. *)
Definition sanitizeExpression (expression : string) : Outcome string :=
  match find (fun keyword => includes expression keyword) forbidden with
  | Some keyword =>
      Throw (JsError ("Forbidden keyword in expression: " +:+ keyword))
  | None => Return expression
  end.

(** [{ ...this.context, ...context }] *)
Definition merge_context (current : EvaluationContext)
    (partial : PartialContext) : EvaluationContext :=
  {| widgets := default (widgets current) (p_widgets partial);
     actions := default (actions current) (p_actions partial);
     page := default (page current) (p_page partial);
     utils := default (utils current) (p_utils partial);
     store := default (store current) (p_store partial) |}.

Definition clearCache (this : ExpressionEngine) : ExpressionEngine :=
  {| context := context this; cache := ∅ |}.

Definition updateContext (partial : PartialContext)
    (this : ExpressionEngine) : ExpressionEngine :=
  clearCache {| context := merge_context (context this) partial;
                cache := cache this |}.

Section Engine.
Context {W : Type} `{Host W}.

(** The state an engine method works on: the engine object and the
    host. *)
Definition EngineState : Type := ExpressionEngine * W.

(** The sandboxed code reads and writes the namespace objects of
    [this.context]. *)
Definition with_context {A} (m : Eff (EvaluationContext * W) A)
  : Eff EngineState A :=
  zoom (fun '(this, w) => (context this, w))
       (fun '(ctx, w) '(this, _) =>
          ({| context := ctx; cache := cache this |}, w))
       m.

Definition cache_set (key : string) (entry : CacheEntry)
  : Eff EngineState unit :=
  modify (fun '(this, w) =>
    ({| context := context this; cache := <[key := entry]> (cache this) |},
     w)).

Definition warn (label : string) (subject : JsValue) (error : JsThrown)
  : Eff EngineState unit :=
  modify (fun '(this, w) => (this, console_warn label subject error w)).

(** [new Function('widgets', ..., 'store', body)]: a syntax error is
    thrown by the constructor; otherwise the function runs the spliced
    text.  An error raised inside the generated [try] block reaches the
    generated [catch] clause, which rethrows it or returns [undefined] as
    [throwOnError] was when the body was built; an error raised outside
    the block leaves the function. *)
Definition new_Function (sanitizedExpression : string)
    (throwOnError : bool) : Outcome (Eff (EvaluationContext * W) JsValue) :=
  match js_compile sanitizedExpression with
  | Some syntax_error => Throw syntax_error
  | None =>
      Return
        (fun st =>
           if js_uncaught sanitizedExpression st
           then js_run sanitizedExpression st
           else
             try_catch (js_run sanitizedExpression)
               (fun error =>
                  if throwOnError then throw error else ret JsUndefined)
               st)
  end.

Definition evaluate (expression : string) (throwOnError : bool)
  : Eff EngineState JsValue :=
  if String.eqb expression "" then ret (JsString "")
  else
    let cacheKey := expression in
    cached <- gets (fun '(this, _) => cache this !! cacheKey) ;;
    match cached with
    | Some entry => ret (value entry)
    | None =>
        try_catch
          (sanitizedExpression <- of_outcome (sanitizeExpression expression) ;;
           fn <- of_outcome (new_Function sanitizedExpression throwOnError) ;;
           result <- with_context fn ;;
           cache_set cacheKey {| value := result; deps := [] |} ;;
           ret result)
          (fun error =>
             if throwOnError then throw error
             else
               warn "Expression evaluation error:" (JsString expression)
                    error ;;
               ret JsUndefined)
    end.

(** The replacer of [evaluateTemplate]: the value of the trimmed group
    as a string, empty for [undefined] and [null]. *)
Definition template_replacer (throwOnError : bool) (expression : chars)
  : Eff EngineState chars :=
  result <- evaluate (text_of (trim_chars expression)) throwOnError ;;
  match result with
  | JsUndefined | JsNull => ret []
  | _ => text <- of_outcome (to_String result) ;; ret (chars_of text)
  end.

(** [evaluateTemplate].  The parameter is declared [string]; the
    executors pass configuration fields of type [any], so the argument
    is a value here: a falsy one gives [''], and one that is truthy but
    no string has no [replace] method, which is a [TypeError] inside the
    [try]. *)
Definition evaluateTemplate (template : JsValue) (throwOnError : bool)
  : Eff EngineState JsValue :=
  if negb (truthy template) then ret (JsString "")
  else
    try_catch
      (match template with
       | JsString t =>
           out <- replace_all marker_here marker_here_shorter
                    (template_replacer throwOnError) (chars_of t) ;;
           ret (JsString (text_of out))
       | _ => throw (JsError "template.replace is not a function")
       end)
      (fun error =>
         if throwOnError then throw error
         else
           warn "Template evaluation error:" template error ;;
           ret template).

(** [validateExpression]: the pair of [valid] and [error]. *)
Definition validateExpression (expression : string)
  : Eff EngineState (bool * option string) :=
  try_catch
    (_ <- of_outcome (sanitizeExpression expression) ;;
     _ <- evaluate expression true ;;
     ret (true, None))
    (fun error => ret (false, Some (error_message error))).

(** What may happen to an engine between two evaluations of the same
    text when the context is not updated: other evaluations, and changes
    the host makes to its own state and, in place, to the namespace
    objects. *)
Inductive EngineStep : Type :=
| Evaluate (expression : string) (throwOnError : bool)
| HostChange (ctx : EvaluationContext) (w : W).

Fixpoint later (steps : list EngineStep) (st : EngineState) : EngineState :=
  match steps with
  | [] => st
  | Evaluate e t :: rest => later rest (snd (evaluate e t st))
  | HostChange ctx w :: rest =>
      later rest ({| context := ctx; cache := cache (fst st) |}, w)
  end.

(** The states an engine can be in: built by the constructor, then
    changed by its methods; the host may change its own state and the
    namespace objects it shares with the engine at any time. *)
Inductive reachable : EngineState -> Prop :=
| reach_new w : reachable (new_ExpressionEngine, w)
| reach_host this w ctx' w' :
    reachable (this, w) ->
    reachable ({| context := ctx'; cache := cache this |}, w')
| reach_updateContext partial this w :
    reachable (this, w) -> reachable (updateContext partial this, w)
| reach_clearCache this w :
    reachable (this, w) -> reachable (clearCache this, w)
| reach_evaluate e t st :
    reachable st -> reachable (snd (evaluate e t st)).
End Engine.

(** ** Values at the boundary of the executors *)

Fixpoint indexed (i : nat) (items : list JsValue) : list (string * JsValue) :=
  match items with
  | [] => []
  | v :: rest => (NilZero.string_of_uint (Nat.to_uint i), v) :: indexed (S i) rest
  end.

(** Own enumerable properties, as object spread [{...v}] copies them. *)
Definition own_props (v : JsValue) : list (string * JsValue) :=
  match v with
  | JsObject props => props
  | JsArray items => indexed 0 items
  | JsString s =>
      indexed 0 (map (fun c => JsString (String c EmptyString)) (chars_of s))
  | _ => []
  end.

(** [Object.entries(v)]: a [TypeError] on [undefined] and [null]. *)
Definition Object_entries (v : JsValue) : Outcome (list (string * JsValue)) :=
  match v with
  | JsUndefined | JsNull =>
      Throw (JsError "Cannot convert undefined or null to object")
  | _ => Return (own_props v)
  end.

(** [o[k] = v] on an object literal: an existing property keeps its
    place, a new one is added last; ["__proto__"] names the prototype
    setter and creates no own property. *)
Fixpoint replace_prop (props : list (string * JsValue)) (k : string)
    (v : JsValue) : option (list (string * JsValue)) :=
  match props with
  | [] => None
  | (k', v') :: rest =>
      if String.eqb k' k then Some ((k, v) :: rest)
      else option_map (cons (k', v')) (replace_prop rest k v)
  end.

Definition set_prop (props : list (string * JsValue)) (k : string)
    (v : JsValue) : list (string * JsValue) :=
  if String.eqb k "__proto__" then props
  else default (props ++ [(k, v)]) (replace_prop props k v).

(** [v.k]: a [TypeError] on [undefined] and [null], [undefined] where
    there is no such own property. *)
Definition member (v : JsValue) (k : string) : Outcome JsValue :=
  match v with
  | JsUndefined =>
      Throw (JsError ("Cannot read properties of undefined (reading '"
                      +:+ k +:+ "')"))
  | JsNull =>
      Throw (JsError ("Cannot read properties of null (reading '"
                      +:+ k +:+ "')"))
  | JsObject props => Return (get_prop props k)
  | _ => Return JsUndefined
  end.

(** [v === 'literal'], as a [case] of a [switch] tests it. *)
Definition is_literal (v : JsValue) (literal : string) : bool :=
  match v with
  | JsString s => String.eqb s literal
  | _ => false
  end.

(** Destructuring with a default, [{ k = d } = config]. *)
Definition get_default (props : list (string * JsValue)) (k : string)
    (d : JsValue) : JsValue :=
  match get_prop props k with
  | JsUndefined => d
  | v => v
  end.

(** ** Action definitions and results *)
Record ActionResult : Type := {
  success : bool;
  data : option JsValue;
  error : option string
}.

Record ActionDefinition : Type := {
  id : string;
  type : string;
  config : list (string * JsValue)
}.

(** A listener is a function object: a reference, which is what the
    [Set] compares, and the code it runs on the host.  The code acts on
    the host only: a listener that calls the manager again while it is
    notified is not modelled. *)
Record ActionListener (W : Type) : Type := {
  listener_ref : nat;
  listener_call : ActionResult -> Eff W unit
}.
Arguments listener_ref {W} _.
Arguments listener_call {W} _ _.

(** ** ActionManager *)
Module ActionManager.
Section Manager.
Context {W : Type} `{Host W}.

(** The fields of the class. *)
Record state : Type := {
  actions : gmap string ActionDefinition;
  listeners : gmap string (list (ActionListener W));
  results : gmap string ActionResult;
  widgetUpdateCallback : option (JsValue -> JsValue -> Eff W unit);
  navigationCallback : option (JsValue -> JsValue -> Eff W unit);
  modalCallback : option (JsValue -> string -> Eff W unit)
}.

(** [constructor] *)
Definition new : state :=
  {| actions := ∅; listeners := ∅; results := ∅;
     widgetUpdateCallback := None; navigationCallback := None;
     modalCallback := None |}.

Definition registerAction (action : ActionDefinition) (this : state) : state :=
  {| actions := <[id action := action]> (actions this);
     listeners := listeners this;
     results := results this;
     widgetUpdateCallback := widgetUpdateCallback this;
     navigationCallback := navigationCallback this;
     modalCallback := modalCallback this |}.


Definition onWidgetUpdate (callback : JsValue -> JsValue -> Eff W unit)
    (this : state) : state :=
  {| actions := actions this;
     listeners := listeners this;
     results := results this;
     widgetUpdateCallback := Some callback;
     navigationCallback := navigationCallback this;
     modalCallback := modalCallback this |}.

Definition onNavigation (callback : JsValue -> JsValue -> Eff W unit)
    (this : state) : state :=
  {| actions := actions this;
     listeners := listeners this;
     results := results this;
     widgetUpdateCallback := widgetUpdateCallback this;
     navigationCallback := Some callback;
     modalCallback := modalCallback this |}.

Definition onModal (callback : JsValue -> string -> Eff W unit)
    (this : state) : state :=
  {| actions := actions this;
     listeners := listeners this;
     results := results this;
     widgetUpdateCallback := widgetUpdateCallback this;
     navigationCallback := navigationCallback this;
     modalCallback := Some callback |}.

Definition same_listener (a b : ActionListener W) : bool :=
  Nat.eqb (listener_ref a) (listener_ref b).

(** [Set.prototype.add] and [Set.prototype.delete] *)
Definition listener_set_add (set : list (ActionListener W))
    (listener : ActionListener W) : list (ActionListener W) :=
  if existsb (same_listener listener) set then set else set ++ [listener].

Definition listener_set_delete (set : list (ActionListener W))
    (listener : ActionListener W) : list (ActionListener W) :=
  filter (fun l => negb (same_listener listener l)) set.

Definition set_listeners (m : gmap string (list (ActionListener W)))
    (this : state) : state :=
  {| actions := actions this;
     listeners := m;
     results := results this;
     widgetUpdateCallback := widgetUpdateCallback this;
     navigationCallback := navigationCallback this;
     modalCallback := modalCallback this |}.

Definition addListener (actionId : string) (listener : ActionListener W)
    (this : state) : state :=
  let this :=
    match listeners this !! actionId with
    | Some _ => this
    | None => set_listeners (<[actionId := []]> (listeners this)) this
    end in
  match listeners this !! actionId with
  | Some set =>
      set_listeners
        (<[actionId := listener_set_add set listener]> (listeners this)) this
  | None => this
  end.

Definition removeListener (actionId : string) (listener : ActionListener W)
    (this : state) : state :=
  match listeners this !! actionId with
  | Some set =>
      set_listeners
        (<[actionId := listener_set_delete set listener]> (listeners this))
        this
  | None => this
  end.

Definition getResult (actionId : string) (this : state)
  : option ActionResult :=
  results this !! actionId.

(** What a method of the manager works on: the manager object, the
    engine singleton it imports, and the host. *)
Record Runtime : Type := {
  manager : state;
  expressionEngine : ExpressionEngine;
  world : W
}.

Definition on_engine {A} (m : Eff EngineState A) : Eff Runtime A :=
  zoom (fun rt => (expressionEngine rt, world rt))
       (fun '(engine, w) rt =>
          {| manager := manager rt; expressionEngine := engine; world := w |})
       m.

Definition set_world (w : W) (rt : Runtime) : Runtime :=
  {| manager := manager rt;
     expressionEngine := expressionEngine rt;
     world := w |}.

Definition on_world {A} (m : Eff W A) : Eff Runtime A :=
  zoom world set_world m.

(** [this.results.set(actionId, result)] *)
Definition store_result (actionId : string) (result : ActionResult)
    (rt : Runtime) : Runtime :=
  {| manager :=
       {| actions := actions (manager rt);
          listeners := listeners (manager rt);
          results := <[actionId := result]> (results (manager rt));
          widgetUpdateCallback := widgetUpdateCallback (manager rt);
          navigationCallback := navigationCallback (manager rt);
          modalCallback := modalCallback (manager rt) |};
     expressionEngine := expressionEngine rt;
     world := world rt |}.

Definition results_set (actionId : string) (result : ActionResult)
  : Eff Runtime unit :=
  modify (store_result actionId result).

(** [listeners.forEach(listener => listener(result))] *)
Fixpoint forEach_listener (set : list (ActionListener W))
    (result : ActionResult) : Eff W unit :=
  match set with
  | [] => ret tt
  | listener :: rest =>
      listener_call listener result ;; forEach_listener rest result
  end.

Definition notifyListeners (actionId : string) (result : ActionResult)
  : Eff Runtime unit :=
  registered <- gets (fun rt => listeners (manager rt) !! actionId) ;;
  match registered with
  | Some set => on_world (forEach_listener set result)
  | None => ret tt
  end.

Definition succeed (d : option JsValue) : ActionResult :=
  {| success := true; data := d; error := None |}.

Definition failed (message : string) (d : option JsValue) : ActionResult :=
  {| success := false; data := d; error := Some message |}.

(** [evaluate] called on a configuration field of type [any]: a falsy
    value gives [''] at the first line, a string is evaluated, and any
    other value is against the parameter type. *)
Definition evaluate_any (expression : JsValue) (throwOnError : bool)
  : Eff EngineState JsValue :=
  match expression with
  | JsString text => evaluate text throwOnError
  | _ =>
      if truthy expression
      then with_context (evaluate_untyped expression throwOnError)
      else ret (JsString "")
  end.

(** The loop of [executeHttpAction] over [Object.entries(headers)]. *)
Fixpoint evaluate_headers (entries : list (string * JsValue))
    (evaluatedHeaders : list (string * JsValue))
  : Eff EngineState (list (string * JsValue)) :=
  match entries with
  | [] => ret evaluatedHeaders
  | (key, value) :: rest =>
      text <- of_outcome (to_String value) ;;
      evaluated <- evaluateTemplate (JsString text) false ;;
      evaluate_headers rest (set_prop evaluatedHeaders key evaluated)
  end.

(** [{ 'Content-Type': 'application/json', ...headers }] *)
Definition with_content_type (headers : list (string * JsValue)) : JsValue :=
  JsObject
    (fold_left (fun o '(k, v) => set_prop o k v) headers
       [("Content-Type", JsString "application/json")]).

Definition executeHttpAction (action : ActionDefinition)
    (params : option JsValue) : Eff Runtime ActionResult :=
  let url := get_prop (config action) "url" in
  let method := get_default (config action) "method" (JsString "GET") in
  let headers := get_default (config action) "headers" (JsObject []) in
  let body := get_prop (config action) "body" in
  let timeout := get_default (config action) "timeout" (JsNumber 30000) in
  evaluatedUrl <- on_engine (evaluateTemplate url false) ;;
  entries <- of_outcome (Object_entries headers) ;;
  evaluatedHeaders <- on_engine (evaluate_headers entries []) ;;
  evaluatedBody <-
    (if truthy body
     then text <- of_outcome (JSON_stringify body) ;;
          on_engine (evaluateTemplate text false)
     else ret JsUndefined) ;;
  (* the [catch] of the source clears the timer and rethrows *)
  response <-
    on_world
      (fetch evaluatedUrl
         (JsObject [("method", method);
                    ("headers", with_content_type evaluatedHeaders);
                    ("body", evaluatedBody)])
         (Some timeout)) ;;
  d <-
    on_world
      (match content_type response with
       | Some contentType =>
           if includes contentType "application/json"
           then json response else text response
       | None => text response
       end) ;;
  if negb (ok response)
  then ret (failed ("HTTP " +:+ status response +:+ ": "
                    +:+ statusText response) (Some d))
  else ret (succeed (Some d)).

(** [errors.map(e => e.message)] of [executeGraphQLAction] *)
Fixpoint error_messages (errors : list JsValue) : Outcome (list JsValue) :=
  match errors with
  | [] => Return []
  | e :: rest =>
      match member e "message", error_messages rest with
      | Return m, Return ms => Return (m :: ms)
      | Throw error, _ => Throw error
      | _, Throw error => Throw error
      end
  end.

(** [messages.join(', ')]: [undefined] and [null] give the empty
    string. *)
Fixpoint join_messages (messages : list JsValue) : Outcome string :=
  match messages with
  | [] => Return ""
  | m :: rest =>
      let piece :=
        match m with
        | JsUndefined | JsNull => Return ""
        | _ => to_String m
        end in
      match piece, join_messages rest with
      | Throw error, _ => Throw error
      | Return _, Throw error => Throw error
      | Return p, Return tail =>
          Return (match rest with
                  | [] => p
                  | _ :: _ => p +:+ ", " +:+ tail
                  end)
      end
  end.

Definition executeGraphQLAction (action : ActionDefinition)
    (params : option JsValue) : Eff Runtime ActionResult :=
  let url := get_prop (config action) "url" in
  let query := get_prop (config action) "query" in
  let variables := get_default (config action) "variables" (JsObject []) in
  let headers := get_default (config action) "headers" (JsObject []) in
  evaluatedUrl <- on_engine (evaluateTemplate url false) ;;
  evaluatedQuery <- on_engine (evaluateTemplate query false) ;;
  variablesText <- of_outcome (JSON_stringify variables) ;;
  variablesTemplate <- on_engine (evaluateTemplate variablesText false) ;;
  evaluatedVariables <- of_outcome (JSON_parse variablesTemplate) ;;
  requestBody <-
    of_outcome
      (JSON_stringify (JsObject [("query", evaluatedQuery);
                                 ("variables", evaluatedVariables)])) ;;
  response <-
    on_world
      (fetch evaluatedUrl
         (JsObject [("method", JsString "POST");
                    ("headers", with_content_type (own_props headers));
                    ("body", requestBody)])
         None) ;;
  result <- on_world (json response) ;;
  errors <- of_outcome (member result "errors") ;;
  d <- of_outcome (member result "data") ;;
  if truthy errors
  then
    match errors with
    | JsArray items =>
        messages <- of_outcome (error_messages items) ;;
        message <- of_outcome (join_messages messages) ;;
        ret (failed message (Some d))
    | _ => throw (JsError "result.errors.map is not a function")
    end
  else ret (succeed (Some d)).

(** The loop of [executeUpdateWidgetAction] over
    [Object.entries(updates)]. *)
Fixpoint evaluate_updates (entries : list (string * JsValue))
    (evaluatedUpdates : list (string * JsValue))
  : Eff EngineState (list (string * JsValue)) :=
  match entries with
  | [] => ret evaluatedUpdates
  | (key, value) :: rest =>
      resolved <-
        match value with
        | JsString text =>
            if hasExpression text then evaluate text false else ret value
        | _ => ret value
        end ;;
      evaluate_updates rest (set_prop evaluatedUpdates key resolved)
  end.

Definition executeUpdateWidgetAction (action : ActionDefinition)
    (params : option JsValue) : Eff Runtime ActionResult :=
  let widgetId := get_prop (config action) "widgetId" in
  let updates := get_prop (config action) "updates" in
  entries <- of_outcome (Object_entries updates) ;;
  evaluatedUpdates <- on_engine (evaluate_updates entries []) ;;
  callback <- gets (fun rt => widgetUpdateCallback (manager rt)) ;;
  match callback with
  | Some f => on_world (f widgetId (JsObject evaluatedUpdates))
  | None => ret tt
  end ;;
  ret (succeed (Some (JsObject [("widgetId", widgetId);
                                ("updates", JsObject evaluatedUpdates)]))).

Definition executeNavigateAction (action : ActionDefinition)
    (params : option JsValue) : Eff Runtime ActionResult :=
  let path := get_prop (config action) "path" in
  let queryParams := get_prop (config action) "queryParams" in
  evaluatedPath <- on_engine (evaluateTemplate path false) ;;
  callback <- gets (fun rt => navigationCallback (manager rt)) ;;
  match callback with
  | Some f => on_world (f evaluatedPath queryParams)
  | None => on_world (location_assign evaluatedPath)
  end ;;
  ret (succeed (Some (JsObject [("path", evaluatedPath)]))).

Definition executeModalAction (action : ActionDefinition)
    (modalAction : string) : Eff Runtime ActionResult :=
  let modalId := get_prop (config action) "modalId" in
  callback <- gets (fun rt => modalCallback (manager rt)) ;;
  match callback with
  | Some f => on_world (f modalId modalAction)
  | None => ret tt
  end ;;
  ret (succeed (Some (JsObject [("modalId", modalId);
                                ("action", JsString modalAction)]))).

Definition executeAlertAction (action : ActionDefinition)
    (params : option JsValue) : Eff Runtime ActionResult :=
  let message := get_prop (config action) "message" in
  evaluatedMessage <- on_engine (evaluateTemplate message false) ;;
  on_world (alert evaluatedMessage) ;;
  ret (succeed (Some (JsObject [("message", evaluatedMessage)]))).

Definition executeToastAction (action : ActionDefinition)
    (params : option JsValue) : Eff Runtime ActionResult :=
  let message := get_prop (config action) "message" in
  let type := get_default (config action) "type" (JsString "info") in
  let duration := get_default (config action) "duration" (JsNumber 3000) in
  evaluatedMessage <- on_engine (evaluateTemplate message false) ;;
  label <- of_outcome (to_String type) ;;
  on_world (modify (console_log ("[Toast " +:+ label +:+ "]:")
                                evaluatedMessage)) ;;
  ret (succeed (Some (JsObject [("message", evaluatedMessage);
                                ("type", type);
                                ("duration", duration)]))).

Definition executeLocalStorageAction (action : ActionDefinition)
    (params : option JsValue) : Eff Runtime ActionResult :=
  let operation := get_prop (config action) "operation" in
  let key := get_prop (config action) "key" in
  let value := get_prop (config action) "value" in
  if is_literal operation "set" then
    text <- of_outcome (JSON_stringify value) ;;
    on_world (localStorage_setItem key text) ;;
    ret (succeed (Some (JsObject [("key", key); ("value", value)])))
  else if is_literal operation "get" then
    storedValue <- on_world (localStorage_getItem key) ;;
    d <- (if truthy storedValue
          then of_outcome (JSON_parse storedValue)
          else ret JsNull) ;;
    ret (succeed (Some d))
  else if is_literal operation "remove" then
    on_world (localStorage_removeItem key) ;;
    ret (succeed (Some (JsObject [("key", key)])))
  else if is_literal operation "clear" then
    on_world localStorage_clear ;;
    ret (succeed None)
  else
    name <- of_outcome (to_String operation) ;;
    throw (JsError ("Unknown localStorage operation: " +:+ name)).

Definition executeCopyToClipboardAction (action : ActionDefinition)
    (params : option JsValue) : Eff Runtime ActionResult :=
  let text := get_prop (config action) "text" in
  evaluatedText <- on_engine (evaluateTemplate text false) ;;
  on_world (clipboard_writeText evaluatedText) ;;
  ret (succeed (Some (JsObject [("text", evaluatedText)]))).

Definition executeDownloadFileAction (action : ActionDefinition)
    (params : option JsValue) : Eff Runtime ActionResult :=
  let url := get_prop (config action) "url" in
  let filename := get_prop (config action) "filename" in
  evaluatedUrl <- on_engine (evaluateTemplate url false) ;;
  evaluatedFilename <- on_engine (evaluateTemplate filename false) ;;
  on_world (anchor_download evaluatedUrl evaluatedFilename) ;;
  ret (succeed (Some (JsObject [("url", evaluatedUrl);
                                ("filename", evaluatedFilename)]))).

Definition executeRunJSAction (action : ActionDefinition)
    (params : option JsValue) : Eff Runtime ActionResult :=
  let code := get_prop (config action) "code" in
  try_catch
    (result <- on_engine (evaluate_any code true) ;;
     ret (succeed (Some result)))
    (fun error => ret (failed (error_message error) None)).

(** [executeAction]: the [switch] on [action.type]. *)
Definition executeAction (action : ActionDefinition)
    (params : option JsValue) : Eff Runtime ActionResult :=
  let t := type action in
  if String.eqb t "http" then executeHttpAction action params
  else if String.eqb t "graphql" then executeGraphQLAction action params
  else if String.eqb t "updateWidget"
  then executeUpdateWidgetAction action params
  else if String.eqb t "navigate" then executeNavigateAction action params
  else if String.eqb t "openModal" then executeModalAction action "open"
  else if String.eqb t "closeModal" then executeModalAction action "close"
  else if String.eqb t "showAlert" then executeAlertAction action params
  else if String.eqb t "showToast" then executeToastAction action params
  else if String.eqb t "localStorage"
  then executeLocalStorageAction action params
  else if String.eqb t "copyToClipboard"
  then executeCopyToClipboardAction action params
  else if String.eqb t "downloadFile"
  then executeDownloadFileAction action params
  else if String.eqb t "runJS" then executeRunJSAction action params
  else throw (JsError ("Unknown action type: " +:+ t)).

Definition run (actionId : string) (params : option JsValue)
  : Eff Runtime ActionResult :=
  registered <- gets (fun rt => actions (manager rt) !! actionId) ;;
  match registered with
  | None =>
      let result := failed ("Action not found: " +:+ actionId) None in
      notifyListeners actionId result ;;
      ret result
  | Some action =>
      try_catch
        (result <- executeAction action params ;;
         results_set actionId result ;;
         notifyListeners actionId result ;;
         ret result)
        (fun error =>
           let result := failed (error_message error) None in
           results_set actionId result ;;
           notifyListeners actionId result ;;
           ret result)
  end.

(** The [for ... of] loop of [runActionChain], with its [break]. *)
Fixpoint chain_loop (actionIds : list string) (params : option JsValue)
    (results : list ActionResult) : Eff Runtime (list ActionResult) :=
  match actionIds with
  | [] => ret results
  | actionId :: rest =>
      result <- run actionId params ;;
      let results := results ++ [result] in
      if negb (success result) then ret results
      else chain_loop rest params results
  end.

Definition runActionChain (actionIds : list string)
    (params : option JsValue) : Eff Runtime (list ActionResult) :=
  chain_loop actionIds params [].

(** The executors work on the engine and on the host; none of them
    touches the fields of the manager. *)
Definition keeps_manager {A} (m : Eff Runtime A) : Prop :=
  forall rt, manager (snd (m rt)) = manager rt.

(** No listener registered under the identifier throws. *)
Definition quiet_for (actionId : string) (m : state) : Prop :=
  forall set listener result w,
    listeners m !! actionId = Some set -> listener ∈ set ->
    fst (listener_call listener result w) = Return tt.

(** No listener at all throws. *)
Definition quiet (m : state) : Prop :=
  forall actionId, quiet_for actionId m.

(** The sequential execution the specification words: the identifiers
    are run one after the other, each from the state the previous one
    left, and the results are collected in order. *)
Fixpoint run_each (actionIds : list string) (params : option JsValue)
  : Eff Runtime (list ActionResult) :=
  match actionIds with
  | [] => ret []
  | actionId :: rest =>
      result <- run actionId params ;;
      results <- run_each rest params ;;
      ret (result :: results)
  end.

(** What the results of a chain look like: as many as the identifiers
    that were run, all successes except possibly the last, and a failure
    at the end unless nothing was left to run. *)
Definition chain_results (done rest : list string)
    (results : list ActionResult) : Prop :=
  length results = length done
  /\ (forall i r, results !! i = Some r -> S i < length results ->
                  success r = true)
  /\ ((rest = [] /\ forall r, r ∈ results -> success r = true)
      \/ exists r, last results = Some r /\ success r = false).
End Manager.
End ActionManager.

(** ** Vocabulary of the properties *)

Definition all_space (s : string) : bool :=
  forallb is_js_space (chars_of s).

Definition first_char (s : string) : option ascii := head (chars_of s).
Definition last_char (s : string) : option ascii := last (chars_of s).

Definition all_word (s : string) : bool := forallb is_word (chars_of s).

Definition namespaces : list string := ["widgets"; "actions"; "page"].

(** [String.prototype.indexOf]: where the first occurrence of [kw] in
    [s] starts. *)
Fixpoint index_chars (s kw : chars) : option nat :=
  match strip_prefix kw s with
  | Some _ => Some 0
  | None => match s with
            | [] => None
            | _ :: s' => option_map S (index_chars s' kw)
            end
  end.

Definition indexOf (s kw : string) : option nat :=
  index_chars (chars_of s) (chars_of kw).

(** The order the specification words: every element occurs in the
    text, and an element listed earlier first occurs earlier. *)
Definition in_order_of_first_occurrence (text : string) (l : list string)
  : Prop :=
  forall i j x y, i < j -> l !! i = Some x -> l !! j = Some y ->
    exists px py, indexOf text x = Some px /\ indexOf text y = Some py
                  /\ px < py.

(** Supplied namespaces replace the old ones, the others stay. *)
Definition merged (old : JsValue) (supplied : option JsValue)
    (new : JsValue) : Prop :=
  match supplied with
  | Some v => new = v
  | None => new = old
  end.

(** The scenario of the end-to-end property: an [updateWidget] action
    whose [label] update is the marker [{{ widgets.input1.value }}], and a
    context in which that widget value is a given text. *)
Definition label_action : ActionDefinition :=
  {| id := "setLabel";
     type := "updateWidget";
     config := [("widgetId", JsString "w1");
                ("updates",
                 JsObject [("label", JsString "{{ widgets.input1.value }}")])] |}.

Definition input1_is (text : string) : PartialContext :=
  {| p_widgets :=
       Some (JsObject [("input1", JsObject [("value", JsString text)])]);
     p_actions := None; p_page := None; p_utils := None; p_store := None |}.

(** A reference of namespace [ns] stands at position [p] of the text:
    the name of the namespace, a dot, and the identifier [id], which is
    the whole run of word characters that follows the dot and is not
    empty. *)
Definition reference_at (ns text : string) (p : nat) (id : string) : Prop :=
  exists pre post,
    text = pre +:+ ns +:+ "." +:+ id +:+ post
    /\ String.length pre = p
    /\ id <> "" /\ all_word id = true
    /\ (forall c, first_char post = Some c -> is_word c = false).

(** The position after its last character. *)
Definition reference_end (ns : string) (p : nat) (id : string) : nat :=
  p + String.length ns + 1 + String.length id.

(** What one scan of the text from left to right reports for a
    namespace: [found] lists references of the text with their positions;
    each begins where the one before has ended, or later; and a reference
    of the text that is not listed begins inside a listed one (as the
    second reference of [widgets.widgets.a], whose beginning the first
    one has consumed as its identifier). *)
Definition scan_of (ns text : string) (found : list (nat * string)) : Prop :=
  (forall i p id, found !! i = Some (p, id) -> reference_at ns text p id)
  /\ (forall i p id q id',
        found !! i = Some (p, id) -> found !! S i = Some (q, id') ->
        reference_end ns p id <= q)
  /\ (forall q id',
        reference_at ns text q id' ->
        (q, id') ∈ found
        \/ exists p id,
             (p, id) ∈ found /\ p < q < reference_end ns p id).

(** [d] is the reference [ns.id], and [p] is the first position at which
    the scan has found it. *)
Definition first_found (ns : string) (found : list (nat * string))
    (d : string) (p : nat) : Prop :=
  exists id,
    d = ns +:+ "." +:+ id /\ (p, id) ∈ found
    /\ forall q, (q, id) ∈ found -> p <= q.

(** The group of a namespace in the result: each reference the scan has
    found, once, in the order of the first positions. *)
Definition group_of (ns : string) (found : list (nat * string))
    (group : list string) : Prop :=
  NoDup group
  /\ (forall d, d ∈ group <-> exists p, first_found ns found d p)
  /\ (forall i j x y,
        i < j -> group !! i = Some x -> group !! j = Some y ->
        exists px py,
          first_found ns found x px /\ first_found ns found y py
          /\ px < py).

(** Each listener of the list, in order, has been called with the result
    and has returned; the calls have taken the host from [w] to [w']. *)
Inductive notified {W : Type} (result : ActionResult)
  : list (ActionListener W) -> W -> W -> Prop :=
| notified_nil w : notified result [] w w
| notified_cons listener set w w1 w2 :
    listener_call listener result w = (Return tt, w1) ->
    notified result set w1 w2 ->
    notified result (listener :: set) w w2.

(** ** A test host

    A host small enough to compute with, used to run the two classes on
    concrete inputs.  Its JavaScript engine accepts three forms of
    expression and rejects every other text with a syntax error: a decimal
    literal, a dotted path of identifiers ([widgets.input1.value]), and
    the call [utils.tick()], which counts its invocations in the host
    state.  It records what the browser APIs are asked to do in a
    trace. *)
Module TestHost.

Record World : Type := {
  ticks : nat;
  trace : list (string * JsValue);
  storage : list (string * string)
}.

Definition start : World := {| ticks := 0; trace := []; storage := [] |}.

Definition record (what : string) (v : JsValue) (w : World) : World :=
  {| ticks := ticks w; trace := trace w ++ [(what, v)]; storage := storage w |}.

Inductive Expr : Type :=
| Tick
| Literal (n : Z)
| Path (root : string) (fields : list string).

Fixpoint split_on (sep : ascii) (s cur : chars) : list chars :=
  match s with
  | [] => [rev cur]
  | c :: s' =>
      if Ascii.eqb c sep then rev cur :: split_on sep s' []
      else split_on sep s' (c :: cur)
  end.

Definition is_digit (c : ascii) : bool :=
  let n := nat_of_ascii c in ((48 <=? n) && (n <=? 57))%nat.

Definition is_identifier (s : chars) : bool :=
  match s with
  | [] => false
  | c :: _ => negb (is_digit c) && forallb is_word s
  end.

Definition digits_value (s : chars) : Z :=
  fold_left (fun acc c => (10 * acc + Z.of_nat (nat_of_ascii c - 48))%Z) s 0%Z.

Definition parse (e : string) : option Expr :=
  let s := trim_chars (chars_of e) in
  if String.eqb (text_of s) "utils.tick()" then Some Tick
  else if forallb is_digit s && negb (Nat.eqb (length s) 0)
  then Some (Literal (digits_value s))
  else
    match split_on "."%char s [] with
    | root :: fields =>
        if forallb is_identifier (root :: fields)
        then Some (Path (text_of root) (map text_of fields))
        else None
    | [] => None
    end.

Definition compile (e : string) : option JsThrown :=
  match parse e with
  | Some _ => None
  | None => Some (JsError "Unexpected token")
  end.

Definition namespace (ctx : EvaluationContext) (root : string)
  : Outcome JsValue :=
  if String.eqb root "widgets" then Return (widgets ctx)
  else if String.eqb root "actions" then Return (actions ctx)
  else if String.eqb root "page" then Return (page ctx)
  else if String.eqb root "utils" then Return (utils ctx)
  else if String.eqb root "store" then Return (store ctx)
  else Throw (JsError (root +:+ " is not defined")).

Fixpoint walk (v : JsValue) (fields : list string) : Outcome JsValue :=
  match fields with
  | [] => Return v
  | f :: rest =>
      match member v f with
      | Return v' => walk v' rest
      | Throw error => Throw error
      end
  end.

Definition run_expr (e : string) : Eff (EvaluationContext * World) JsValue :=
  fun '(ctx, w) =>
    match parse e with
    | Some Tick =>
        let n := S (ticks w) in
        (Return (JsNumber (Z.of_nat n)),
         (ctx, {| ticks := n; trace := trace w; storage := storage w |}))
    | Some (Literal n) => (Return (JsNumber n), (ctx, w))
    | Some (Path root fields) =>
        (match namespace ctx root with
         | Return v => walk v fields
         | Throw error => Throw error
         end, (ctx, w))
    | None => (Throw (JsError "Unexpected token"), (ctx, w))
    end.

Definition key_text (key : JsValue) : string :=
  match key with
  | JsString s => s
  | _ => "undefined"
  end.

Fixpoint lookup_item (items : list (string * string)) (k : string)
  : JsValue :=
  match items with
  | [] => JsNull
  | (k', v) :: rest => if String.eqb k' k then JsString v else lookup_item rest k
  end.

Definition set_storage (items : list (string * string)) (w : World) : World :=
  {| ticks := ticks w; trace := trace w; storage := items |}.

#[local] Instance host : Host World := {|
  js_compile := compile;
  js_run := run_expr;
  js_uncaught := fun _ _ => false;
  js_String := fun _ => Return "[object Object]";
  JSON_stringify := fun _ => Throw (JsError "JSON is not available");
  JSON_parse := fun _ => Throw (JsError "JSON is not available");
  console_warn := fun label _ error =>
    record "console.warn" (JsString (error_message error));
  console_log := fun label v => record "console.log" v;
  evaluate_untyped := fun _ _ =>
    throw (JsError "expression.includes is not a function");
  fetch := fun _ _ _ => throw (JsError "Failed to fetch");
  alert := fun v w => (Return tt, record "alert" v w);
  location_assign := fun v w => (Return tt, record "location" v w);
  clipboard_writeText := fun v w => (Return tt, record "clipboard" v w);
  anchor_download := fun url _ w => (Return tt, record "download" url w);
  localStorage_setItem := fun k v w =>
    (Return tt,
     set_storage
       ((key_text k, key_text v)
        :: filter (fun kv => negb (String.eqb (fst kv) (key_text k)))
             (storage w)) w);
  localStorage_getItem := fun k w =>
    (Return (lookup_item (storage w) (key_text k)), w);
  localStorage_removeItem := fun k w =>
    (Return tt,
     set_storage
       (filter (fun kv => negb (String.eqb (fst kv) (key_text k)))
          (storage w)) w);
  localStorage_clear := fun w => (Return tt, set_storage [] w)
|}.

(** A second engine, which also accepts a text that closes the generated
    [try] block: [<expression>)}catch(e){throw e}try{(0], where
    [<expression>] is one of the three forms.  Spliced into the body, the
    text gives
    [try { return (<expression>)}catch(e){throw e}try{(0); } catch (error) { ... }]:
    the value of the expression is returned, and an error that it raises
    is thrown again by the [catch] clause of the text, outside the
    generated block. *)
Definition injection : chars := chars_of ")}catch(e){throw e}try{(0".

Definition injected (e : string) : option string :=
  option_map (fun r => text_of (rev r))
    (strip_prefix (rev injection) (rev (chars_of e))).

Definition spliced (e : string) : string := default e (injected e).

Definition injecting_host : Host World := {|
  js_compile := fun e => compile (spliced e);
  js_run := fun e => run_expr (spliced e);
  js_uncaught := fun e _ =>
    match injected e with Some _ => true | None => false end;
  js_String := fun _ => Return "[object Object]";
  JSON_stringify := fun _ => Throw (JsError "JSON is not available");
  JSON_parse := fun _ => Throw (JsError "JSON is not available");
  console_warn := fun label _ error =>
    record "console.warn" (JsString (error_message error));
  console_log := fun label v => record "console.log" v;
  evaluate_untyped := fun _ _ =>
    throw (JsError "expression.includes is not a function");
  fetch := fun _ _ _ => throw (JsError "Failed to fetch");
  alert := fun v w => (Return tt, record "alert" v w);
  location_assign := fun v w => (Return tt, record "location" v w);
  clipboard_writeText := fun v w => (Return tt, record "clipboard" v w);
  anchor_download := fun url _ w => (Return tt, record "download" url w);
  localStorage_setItem := fun _ _ => ret tt;
  localStorage_getItem := fun _ => ret JsNull;
  localStorage_removeItem := fun _ => ret tt;
  localStorage_clear := ret tt
|}.

(** A listener that writes the result it receives to the trace. *)
Definition listener (ref : nat) : ActionListener World :=
  {| listener_ref := ref;
     listener_call := fun result w =>
       (Return tt,
        record "listener"
          (JsObject [("ref", JsNumber (Z.of_nat ref));
                     ("success", JsBool (success result));
                     ("error", match error result with
                               | Some m => JsString m
                               | None => JsUndefined
                               end)]) w) |}.

(** A widget-update callback that writes its arguments to the trace. *)
Definition widget_sink (widgetId updates : JsValue) : Eff World unit :=
  fun w =>
    (Return tt,
     record "widgetUpdate"
       (JsObject [("widgetId", widgetId); ("updates", updates)]) w).

(** An engine that has evaluated [utils.tick()] once. *)
Definition ticked : ExpressionEngine * World :=
  snd (evaluate "utils.tick()" false (new_ExpressionEngine, start)).

(** The context in which [widgets.a.value] is [n]. *)
Definition widget_a (n : Z) : PartialContext :=
  {| p_widgets := Some (JsObject [("a", JsObject [("value", JsNumber n)])]);
     p_actions := None; p_page := None; p_utils := None; p_store := None |}.

(** An engine that has cached [widgets.a.value] as 1. *)
Definition cached_one : ExpressionEngine :=
  fst (snd (evaluate "widgets.a.value" false
              (updateContext (widget_a 1) new_ExpressionEngine,
               start))).

(** A [localStorage] action with an unknown operation, an [openModal]
    action and a [showAlert] action. *)
Definition purge_action : ActionDefinition :=
  {| id := "purge"; type := "localStorage";
     config := [("operation", JsString "purge")] |}.

Definition modal_action : ActionDefinition :=
  {| id := "open"; type := "openModal";
     config := [("modalId", JsString "m1")] |}.

Definition alert_action : ActionDefinition :=
  {| id := "hello"; type := "showAlert";
     config := [("message", JsString "hello")] |}.

Import ActionManager.

(** A manager with the three actions, two listeners on [purge] and one
    on the unregistered identifier [ghost]. *)
Definition test_manager : @state World :=
  addListener "ghost" (listener 3)
    (addListener "purge" (listener 2)
       (addListener "purge" (listener 1)
          (registerAction alert_action
             (registerAction modal_action
                (registerAction purge_action new))))).

Definition test_runtime : @Runtime World :=
  {| manager := test_manager;
     expressionEngine := new_ExpressionEngine;
     world := start |}.

(** The end-to-end scenario on the test host, whose engine evaluates
    [widgets.input1.value] to ["Hi"] and, like ECMAScript, rejects the
    same text inside braces. *)
Definition label_runtime : @Runtime World :=
  {| manager := onWidgetUpdate widget_sink (registerAction label_action new);
     expressionEngine := updateContext (input1_is "Hi") new_ExpressionEngine;
     world := start |}.
End TestHost.


(** ** RuntimeRenderer (src/src/engine/RuntimeRenderer.tsx)

    [evaluateComponentProps], the function the component [RuntimeRenderer]
    applies to every component it draws, and [createRuntime].  A component
    ([ComponentData]) and a page ([AppPage]) are object values, read with
    [member].  The hooks of the React component are not modelled. *)

(** The order of the keys of an object.  A key that is an array index
    (the decimal digits, without leading zero, of an integer from 0 to
    2^32 - 2) is enumerated before the other keys, in the order of the
    numbers; the other keys follow in the order in which they were
    added. *)
Definition decimal_digit (c : ascii) : bool :=
  let n := nat_of_ascii c in ((48 <=? n) && (n <=? 57))%nat.

Definition decimal_value (s : chars) : Z :=
  fold_left (fun acc c => (10 * acc + Z.of_nat (nat_of_ascii c - 48))%Z)
    s 0%Z.

Definition array_index (k : string) : option Z :=
  let n := decimal_value (chars_of k) in
  if forallb decimal_digit (chars_of k)
     && String.eqb (NilZero.string_of_int (Z.to_int n)) k
     && (n <=? 4294967294)%Z
  then Some n else None.

(** A new array index [n] takes its place among the array indices. *)
Fixpoint insert_index (props : list (string * JsValue)) (n : Z)
    (k : string) (v : JsValue) : list (string * JsValue) :=
  match props with
  | [] => [(k, v)]
  | (k', v') :: rest =>
      match array_index k' with
      | Some m =>
          if (n <? m)%Z then (k, v) :: props
          else (k', v') :: insert_index rest n k v
      | None => (k, v) :: props
      end
  end.

(** A new key. *)
Definition add_prop (props : list (string * JsValue)) (k : string)
    (v : JsValue) : list (string * JsValue) :=
  match array_index k with
  | Some n => insert_index props n k v
  | None => props ++ [(k, v)]
  end.

(** A property written in an object literal or copied by a spread is
    defined, not assigned: an existing key keeps its place, a new one
    takes the place its kind gives it, and no key is special. *)
Definition define_prop (props : list (string * JsValue)) (k : string)
    (v : JsValue) : list (string * JsValue) :=
  default (add_prop props k v) (replace_prop props k v).

(** [o[k] = v] for any key: ["__proto__"] names the prototype setter and
    creates no own property. *)
Definition assign_prop (props : list (string * JsValue)) (k : string)
    (v : JsValue) : list (string * JsValue) :=
  if String.eqb k "__proto__" then props else define_prop props k v.

(** [{ ...props, ...source }] *)
Definition spread (props source : list (string * JsValue))
  : list (string * JsValue) :=
  fold_left (fun o '(k, v) => define_prop o k v) source props.

Module RuntimeRenderer.
Import ActionManager.

(** The object [createRuntime] returns. *)
Module Api.
Record t (W : Type) : Type := {
  evaluate : string -> Eff (@Runtime W) JsValue;
  evaluateTemplate : string -> Eff (@Runtime W) JsValue;
  runAction : string -> option JsValue -> Eff (@Runtime W) ActionResult;
  updateWidget : JsValue -> JsValue -> Eff (@Runtime W) unit
}.
Arguments evaluate {W} _ _.
Arguments evaluateTemplate {W} _ _.
Arguments runAction {W} _ _ _.
Arguments updateWidget {W} _ _ _.
End Api.

(** [RuntimeConfig]; an optional flag is present or not. *)
Record RuntimeConfig : Type := {
  components : list JsValue;
  page : JsValue;
  theme : JsValue;
  enableBindings : option bool;
  enableActions : option bool
}.

Section Renderer.
Context {W : Type} `{Host W}.

(** The loop of [evaluateComponentProps] over
    [Object.entries(component.props)]. *)
Fixpoint evaluate_props (entries : list (string * JsValue))
    (evaluatedProps : list (string * JsValue))
  : Eff EngineState (list (string * JsValue)) :=
  match entries with
  | [] => ret evaluatedProps
  | (key, value) :: rest =>
      resolved <-
        match value with
        | JsString text =>
            if hasExpression text then evaluate text false
            else evaluateTemplate value false
        | _ => ret value
        end ;;
      evaluate_props rest (set_prop evaluatedProps key resolved)
  end.

Definition evaluateComponentProps (component : JsValue)
  : Eff EngineState JsValue :=
  props <- of_outcome (member component "props") ;;
  entries <- of_outcome (Object_entries props) ;;
  evaluatedProps <- evaluate_props entries [] ;;
  ret (JsObject (define_prop (own_props component) "props"
                   (JsObject evaluatedProps))).

(** The key a value names in [o[v] = ...]. *)
Definition property_key (v : JsValue) : Outcome string := to_String v.

(** [{ id: component.id, type: component.type, ...component.props }] *)
Definition widget_of (component : JsValue) : Outcome JsValue :=
  match member component "id" with
  | Throw error => Throw error
  | Return id =>
      match member component "type" with
      | Throw error => Throw error
      | Return type =>
          match member component "props" with
          | Throw error => Throw error
          | Return props =>
              Return (JsObject (spread [("id", id); ("type", type)]
                                  (own_props props)))
          end
      end
  end.

(** The [forEach] of [createRuntime] that fills [widgetsMap]. *)
Fixpoint fill_widgetsMap (components : list JsValue)
    (widgetsMap : list (string * JsValue))
  : Outcome (list (string * JsValue)) :=
  match components with
  | [] => Return widgetsMap
  | component :: rest =>
      match member component "id" with
      | Throw error => Throw error
      | Return id =>
          match property_key id with
          | Throw error => Throw error
          | Return key =>
              match widget_of component with
              | Throw error => Throw error
              | Return widget =>
                  fill_widgetsMap rest (assign_prop widgetsMap key widget)
              end
          end
      end
  end.

Definition set_engine (engine : ExpressionEngine) (rt : @Runtime W)
  : @Runtime W :=
  {| manager := manager rt; expressionEngine := engine; world := world rt |}.

(** [createRuntime].  The promise of the [run] that [updateWidget] starts
    is dropped: neither its result nor its rejection reaches the
    caller. *)
Definition createRuntime (config : RuntimeConfig)
  : Eff (@Runtime W) (Api.t W) :=
  let enableBindings := default true (enableBindings config) in
  let enableActions := default true (enableActions config) in
  (if enableBindings then
     widgetsMap <- of_outcome (fill_widgetsMap (components config) []) ;;
     name <- of_outcome (member (page config) "name") ;;
     route <- of_outcome (member (page config) "route") ;;
     modify (fun rt =>
       set_engine
         (updateContext
            {| p_widgets := Some (JsObject widgetsMap);
               p_actions := Some (JsObject []);
               p_page := Some (JsObject [("name", name); ("route", route)]);
               p_utils := Some (utils (context (expressionEngine rt)));
               p_store := Some (JsObject []) |}
            (expressionEngine rt)) rt)
   else ret tt) ;;
  ret {| Api.evaluate := fun expression =>
           on_engine (evaluate expression false);
         Api.evaluateTemplate := fun template =>
           on_engine (evaluateTemplate (JsString template) false);
         Api.runAction := fun actionId params => run actionId params;
         Api.updateWidget := fun widgetId updates =>
           if enableActions
           then fun rt =>
                  (Return tt,
                   snd (run "updateWidget"
                          (Some (JsObject [("widgetId", widgetId);
                                           ("updates", updates)])) rt))
           else ret tt |}.
End Renderer.
End RuntimeRenderer.

(** ** HistoryManager (src/src/engine/RuntimeRenderer.tsx, second part)

    The undo history of the editor.  The identifier and the time stamp of
    a new entry come from the platform. *)

(** What the platform gives besides the [Host]: [crypto.randomUUID()],
    [Date.now()], [new Date().toISOString()] and
    [console.error(label, error)]. *)
Class Platform (W : Type) : Type := {
  crypto_randomUUID : W -> string * W;
  Date_now : W -> Z * W;
  Date_toISOString : W -> string * W;
  console_error : string -> JsThrown -> W -> W
}.

(** [Array.prototype.slice(start, end)] on integers: a negative index
    counts from the end, and both are clamped to the array. *)
Definition slice {A} (l : list A) (start stop : Z) : list A :=
  let len := Z.of_nat (length l) in
  let clamp i := if (i <? 0)%Z then Z.max (len + i) 0 else Z.min i len in
  let k := clamp start in
  let final := clamp stop in
  take (Z.to_nat (final - k)) (drop (Z.to_nat k) l).

(** What a method typed [T | null] returns when it reads an array:
    [null], an element, or [undefined] for an index outside the array. *)
Inductive Nullable (A : Type) : Type :=
| null
| undefined
| element (a : A).
Arguments null {A}.
Arguments undefined {A}.
Arguments element {A} a.

(** [array[i]] *)
Definition at_index {A} (l : list A) (i : Z) : Nullable A :=
  if (i <? 0)%Z then undefined
  else match l !! Z.to_nat i with
       | Some a => element a
       | None => undefined
       end.

Module HistoryManager.

(** [Omit<HistoryEntry, 'id' | 'timestamp'>]; an absent optional field is
    [undefined]. *)
Record EntryFields : Type := {
  action : string;
  componentId : JsValue;
  before : JsValue;
  after : JsValue
}.

(** [HistoryEntry], as [addEntry] builds it:
    [{ ...entry, id, timestamp }]. *)
Record HistoryEntry : Type := {
  fields : EntryFields;
  id : string;
  timestamp : Z
}.

(** The fields of the class. *)
Record state : Type := {
  history : list HistoryEntry;
  currentIndex : Z;
  maxHistorySize : Z
}.

Definition new : state :=
  {| history := []; currentIndex := -1; maxHistorySize := 50 |}.

Definition canUndo (this : state) : bool := (0 <=? currentIndex this)%Z.

Definition canRedo (this : state) : bool :=
  (currentIndex this <? Z.of_nat (length (history this)) - 1)%Z.

Definition undo (this : state) : Nullable HistoryEntry * state :=
  if negb (canUndo this) then (null, this)
  else
    let entry := at_index (history this) (currentIndex this) in
    (entry,
     {| history := history this;
        currentIndex := currentIndex this - 1;
        maxHistorySize := maxHistorySize this |}).

Definition redo (this : state) : Nullable HistoryEntry * state :=
  if negb (canRedo this) then (null, this)
  else
    let this :=
      {| history := history this;
         currentIndex := currentIndex this + 1;
         maxHistorySize := maxHistorySize this |} in
    (at_index (history this) (currentIndex this), this).

Definition clear (this : state) : state :=
  {| history := []; currentIndex := -1;
     maxHistorySize := maxHistorySize this |}.

(** [getHistory] returns a copy of the array. *)
Definition getHistory (this : state) : list HistoryEntry := history this.

Definition getCurrentIndex (this : state) : Z := currentIndex this.

Section History.
Context {W : Type} `{Platform W}.

Definition addEntry (entry : EntryFields) (this : state) (w : W)
  : state * W :=
  let history := slice (history this) 0 (currentIndex this + 1) in
  let '(uuid, w) := crypto_randomUUID w in
  let '(now, w) := Date_now w in
  let newEntry := {| fields := entry; id := uuid; timestamp := now |} in
  let history := history ++ [newEntry] in
  if (maxHistorySize this <? Z.of_nat (length history))%Z
  then ({| history := drop 1 history;
           currentIndex := currentIndex this;
           maxHistorySize := maxHistorySize this |}, w)
  else ({| history := history;
           currentIndex := currentIndex this + 1;
           maxHistorySize := maxHistorySize this |}, w).

(** The [record...] methods; a component is an object, given by its own
    properties. *)
Definition recordComponentAdd (component : list (string * JsValue))
  : state -> W -> state * W :=
  addEntry {| action := "add";
              componentId := get_prop component "id";
              before := JsUndefined;
              after := JsObject component |}.

Definition recordComponentUpdate (componentId before after : JsValue)
  : state -> W -> state * W :=
  addEntry {| action := "update"; componentId := componentId;
              before := before; after := after |}.

Definition recordComponentDelete (component : list (string * JsValue))
  : state -> W -> state * W :=
  addEntry {| action := "delete";
              componentId := get_prop component "id";
              before := JsObject component;
              after := JsUndefined |}.

Definition recordComponentMove (componentId beforePos afterPos : JsValue)
  : state -> W -> state * W :=
  addEntry {| action := "move"; componentId := componentId;
              before := beforePos; after := afterPos |}.

Definition recordComponentResize (componentId beforeSize afterSize : JsValue)
  : state -> W -> state * W :=
  addEntry {| action := "resize"; componentId := componentId;
              before := beforeSize; after := afterSize |}.

(** A call of a method that changes the manager. *)
Inductive Call : Type :=
| AddEntry (entry : EntryFields)
| Undo
| Redo
| Clear
| RecordComponentAdd (component : list (string * JsValue))
| RecordComponentUpdate (componentId before after : JsValue)
| RecordComponentDelete (component : list (string * JsValue))
| RecordComponentMove (componentId beforePos afterPos : JsValue)
| RecordComponentResize (componentId beforeSize afterSize : JsValue).

Definition call (c : Call) (st : state * W) : state * W :=
  let '(this, w) := st in
  match c with
  | AddEntry entry => addEntry entry this w
  | Undo => (snd (undo this), w)
  | Redo => (snd (redo this), w)
  | Clear => (clear this, w)
  | RecordComponentAdd component => recordComponentAdd component this w
  | RecordComponentUpdate componentId before after =>
      recordComponentUpdate componentId before after this w
  | RecordComponentDelete component => recordComponentDelete component this w
  | RecordComponentMove componentId beforePos afterPos =>
      recordComponentMove componentId beforePos afterPos this w
  | RecordComponentResize componentId beforeSize afterSize =>
      recordComponentResize componentId beforeSize afterSize this w
  end.

(** The manager after a sequence of calls. *)
Definition calls (cs : list Call) (st : state * W) : state * W :=
  fold_left (fun st c => call c st) cs st.

(** [addEntry] for each element of a list, in order. *)
Definition addEntries (entries : list EntryFields) (st : state * W)
  : state * W :=
  fold_left (fun st entry => addEntry entry (fst st) (snd st)) entries st.
End History.

(** The index points at an entry or is -1, and the history is within its
    size limit. *)
Definition valid (this : state) : Prop :=
  (-1 <= currentIndex this < Z.of_nat (length (history this)))%Z
  /\ (Z.of_nat (length (history this)) <= maxHistorySize this)%Z.
End HistoryManager.

(** ** PersistenceService: the browser-storage methods
    (src/src/services/PersistenceService.ts)

    [saveToLocalStorage], [loadFromLocalStorage] and the auto-save
    methods built on them.  A rejected promise is a thrown outcome. *)
Module PersistenceService.
Section Persistence.
Context {W : Type} `{Host W} `{Platform W}.

Definition saveToLocalStorage (key data : JsValue) : Eff W unit :=
  try_catch
    (text <- of_outcome (JSON_stringify data) ;;
     localStorage_setItem key text)
    (fun error =>
       modify (console_error "Failed to save to localStorage:" error)).

Definition loadFromLocalStorage (key : JsValue) : Eff W JsValue :=
  try_catch
    (data <- localStorage_getItem key ;;
     if truthy data then of_outcome (JSON_parse data) else ret JsNull)
    (fun error =>
       modify (console_error "Failed to load from localStorage:" error) ;;
       ret JsNull).

Definition autoSave (projectId pages settings : JsValue) : Eff W unit :=
  timestamp <- (fun w => let '(iso, w) := Date_toISOString w in
                         (Return iso, w)) ;;
  let autoSaveData :=
    JsObject [("projectId", projectId); ("pages", pages);
              ("settings", settings); ("timestamp", JsString timestamp)] in
  saveToLocalStorage (JsString "appbuilder_autosave") autoSaveData.

Definition loadAutoSave : Eff W JsValue :=
  loadFromLocalStorage (JsString "appbuilder_autosave").

Definition clearAutoSave : Eff W unit :=
  localStorage_removeItem (JsString "appbuilder_autosave").
End Persistence.
End PersistenceService.

(** ** Vocabulary of the further properties *)

(** An object as JavaScript builds it: the keys are distinct, and
    ["__proto__"] is not an own property. *)
Definition plain_object (props : list (string * JsValue)) : Prop :=
  NoDup (map fst props) /\ "__proto__" ∉ map fst props.

(** A value in which [executeUpdateWidgetAction] and
    [evaluateComponentProps] find no marker: a string without marker, or
    any value that is not a string. *)
Definition without_marker (v : JsValue) : Prop :=
  match v with
  | JsString text => hasExpression text = false
  | _ => True
  end.

(** The types [executeAction] knows. *)
Definition action_types : list string :=
  ["http"; "graphql"; "updateWidget"; "navigate"; "openModal"; "closeModal";
   "showAlert"; "showToast"; "localStorage"; "copyToClipboard";
   "downloadFile"; "runJS"].

(** A [localStorage] action with the given operation and key. *)
Definition storage_action (action : ActionDefinition) (operation : string)
    (key : JsValue) : Prop :=
  type action = "localStorage"
  /\ get_prop (config action) "operation" = JsString operation
  /\ get_prop (config action) "key" = key.

(** An [http] action that configures its URL and nothing else. *)
Definition http_url_only (action : ActionDefinition) (url : string) : Prop :=
  type action = "http"
  /\ get_prop (config action) "url" = JsString url
  /\ get_prop (config action) "method" = JsUndefined
  /\ get_prop (config action) "headers" = JsUndefined
  /\ get_prop (config action) "body" = JsUndefined
  /\ get_prop (config action) "timeout" = JsUndefined.

(** The registrations of a manager and the results stored for the
    identifiers other than [actionId] are the same in [m] and [m']. *)
Definition same_registrations {W} (actionId : string)
    (m m' : @ActionManager.state W) : Prop :=
  ActionManager.actions m' = ActionManager.actions m
  /\ ActionManager.listeners m' = ActionManager.listeners m
  /\ ActionManager.widgetUpdateCallback m' = ActionManager.widgetUpdateCallback m
  /\ ActionManager.navigationCallback m' = ActionManager.navigationCallback m
  /\ ActionManager.modalCallback m' = ActionManager.modalCallback m
  /\ forall other, other <> actionId ->
       ActionManager.results m' !! other = ActionManager.results m !! other.

(** ** More of the test host

    A second host on the same state, whose [JSON] handles non-negative
    integers and [null] and whose [fetch] answers every request with the
    same 404 response; a platform with a counter for identifiers and
    time; and the actions, listeners and components of the examples. *)
Module TestCases.
Import ActionManager.

Definition stringify (v : JsValue) : Outcome JsValue :=
  match v with
  | JsNumber n =>
      if (0 <=? n)%Z
      then Return (JsString (NilZero.string_of_int (Z.to_int n)))
      else Throw (JsError "JSON: negative numbers are not available")
  | JsNull => Return (JsString "null")
  | _ => Throw (JsError "JSON: only numbers are available")
  end.

Definition parse_json (v : JsValue) : Outcome JsValue :=
  match v with
  | JsString s =>
      if String.eqb s "null" then Return JsNull
      else if forallb TestHost.is_digit (chars_of s)
              && negb (Nat.eqb (String.length s) 0)
      then Return (JsNumber (TestHost.digits_value (chars_of s)))
      else Throw (JsError "Unexpected token in JSON")
  | _ => Throw (JsError "Unexpected token in JSON")
  end.

Definition not_found : Response TestHost.World :=
  {| ok := false;
     status := "404";
     statusText := "Not Found";
     content_type := Some "application/json; charset=utf-8";
     json := fun w => (Return (JsObject [("message", JsString "no such user")]), w);
     text := fun w => (Return (JsString "{}"), w) |}.

#[local] Instance json_host : Host TestHost.World := {|
  js_compile := TestHost.compile;
  js_run := TestHost.run_expr;
  js_uncaught := fun _ _ => false;
  js_String := fun _ => Return "[object Object]";
  JSON_stringify := stringify;
  JSON_parse := parse_json;
  console_warn := fun label _ error =>
    TestHost.record "console.warn" (JsString (error_message error));
  console_log := fun label v => TestHost.record "console.log" v;
  evaluate_untyped := fun _ _ =>
    throw (JsError "expression.includes is not a function");
  fetch := fun url init timeout w =>
    (Return not_found,
     TestHost.record "fetch"
       (JsObject [("url", url); ("init", init);
                  ("timeout", default JsUndefined timeout)]) w);
  alert := fun v w => (Return tt, TestHost.record "alert" v w);
  location_assign := fun v w => (Return tt, TestHost.record "location" v w);
  clipboard_writeText := fun v w =>
    (Return tt, TestHost.record "clipboard" v w);
  anchor_download := fun url _ w =>
    (Return tt, TestHost.record "download" url w);
  localStorage_setItem := @localStorage_setItem _ TestHost.host;
  localStorage_getItem := @localStorage_getItem _ TestHost.host;
  localStorage_removeItem := @localStorage_removeItem _ TestHost.host;
  localStorage_clear := @localStorage_clear _ TestHost.host
|}.

Definition tick (w : TestHost.World) : TestHost.World :=
  {| TestHost.ticks := S (TestHost.ticks w);
     TestHost.trace := TestHost.trace w;
     TestHost.storage := TestHost.storage w |}.

(** Identifiers [id-0], [id-1], ... and a clock that advances at every
    reading. *)
#[local] Instance platform : Platform TestHost.World := {|
  crypto_randomUUID := fun w =>
    ("id-" +:+ NilZero.string_of_uint (Nat.to_uint (TestHost.ticks w)), tick w);
  Date_now := fun w => (Z.of_nat (TestHost.ticks w), tick w);
  Date_toISOString := fun w => ("2024-01-01T00:00:00.000Z", w);
  console_error := fun label error =>
    TestHost.record "console.error" (JsString (error_message error))
|}.

(** A listener that throws when it is given a success. *)
Definition picky (ref : nat) : ActionListener TestHost.World :=
  {| listener_ref := ref;
     listener_call := fun result w =>
       if success result
       then (Throw (JsError "listener failed"), TestHost.record "picky" (JsBool true) w)
       else (Return tt, TestHost.record "picky" (JsBool false) w) |}.

Definition teleport_action : ActionDefinition :=
  {| id := "jump"; type := "teleport"; config := [] |}.

Definition tick_action : ActionDefinition :=
  {| id := "count"; type := "runJS";
     config := [("code", JsString "utils.tick()")] |}.

Definition literal_action : ActionDefinition :=
  {| id := "setTitle"; type := "updateWidget";
     config := [("widgetId", JsString "w1");
                ("updates",
                 JsObject [("label", JsString "Hello"); ("count", JsNumber 3)])] |}.

Definition remember_action : ActionDefinition :=
  {| id := "remember"; type := "localStorage";
     config := [("operation", JsString "set"); ("key", JsString "answer");
                ("value", JsNumber 42)] |}.

Definition recall_action : ActionDefinition :=
  {| id := "recall"; type := "localStorage";
     config := [("operation", JsString "get"); ("key", JsString "answer")] |}.

Definition user_action : ActionDefinition :=
  {| id := "user"; type := "http";
     config := [("url", JsString "https://example.org/users/7")] |}.

Definition more_manager : @state TestHost.World :=
  addListener "open" (picky 1)
    (onWidgetUpdate TestHost.widget_sink
       (registerAction user_action
          (registerAction recall_action
             (registerAction remember_action
                (registerAction literal_action
                   (registerAction tick_action
                      (registerAction teleport_action
                         (registerAction TestHost.modal_action new)))))))).

Definition more_runtime : @Runtime TestHost.World :=
  {| manager := more_manager;
     expressionEngine := new_ExpressionEngine;
     world := TestHost.start |}.

(** A button whose properties hold no marker, and one whose label is a
    template. *)
Definition plain_button : JsValue :=
  JsObject [("id", JsString "b1"); ("type", JsString "button");
            ("props", JsObject [("label", JsString "Save");
                                ("disabled", JsBool false)]);
            ("x", JsNumber 10); ("y", JsNumber 20)].

Definition bound_button : JsValue :=
  JsObject [("id", JsString "b2"); ("type", JsString "button");
            ("props", JsObject [("label", JsString "Hello {{ widgets.input1.value }}")])].


Definition config : RuntimeRenderer.RuntimeConfig :=
  {| RuntimeRenderer.components := [plain_button];
     RuntimeRenderer.page :=
       JsObject [("name", JsString "Home"); ("route", JsString "/")];
     RuntimeRenderer.theme := JsUndefined;
     RuntimeRenderer.enableBindings := None;
     RuntimeRenderer.enableActions := None |}.


Definition move (n : Z) : HistoryManager.EntryFields :=
  {| HistoryManager.action := "move";
     HistoryManager.componentId := JsString "b1";
     HistoryManager.before := JsNumber n;
     HistoryManager.after := JsNumber (n + 1) |}.
End TestCases.
(** * Properties *)

(** ** The methods on small inputs *)

Example hasExpression_ex :
  map hasExpression ["{{a}}"; "x {{ a }} y"; "{{}}"; "{{a}"; "{a}}"; "{{a}b}}"]%string
  = [true; true; false; false; false; false].
Proof. reflexivity. Qed.

Example extract_ex :
  extractExpressions "a {{ x.y }} b {{z}} {{}} {{ }}" = ["x.y"; "z"; ""]%string.
Proof. reflexivity. Qed.

Example getDependencies_ex1 :
  getDependencies "widgets.a.value + widgets.b.value"
  = ["widgets.a"; "widgets.b"]%string.
Proof. reflexivity. Qed.

Example getDependencies_ex2 :
  getDependencies "page.x + widgets.a + actions.f.data + widgets.a + homepage.t"
  = ["widgets.a"; "actions.f"; "page.x"; "page.t"]%string.
Proof. reflexivity. Qed.

Example getDependencies_ex3 :
  getDependencies "widgets.widgets.a" = ["widgets.widgets"]%string.
Proof. reflexivity. Qed.

Example getDependencies_ex4 :
  getDependencies "xwidgets.a + b.page.c" = ["widgets.a"; "page.c"]%string.
Proof. reflexivity. Qed.

Example test_host_compile_ex :
  map TestHost.compile ["widgets.input1.value"; " 42 "; "utils.tick()";
               "{{ widgets.input1.value }}"; "a +"]
  = [None; None; None;
     Some (JsError "Unexpected token"); Some (JsError "Unexpected token")].
Proof. reflexivity. Qed.

(** The order the specification words holds of its own example. *)
Example in_order_ex :
  in_order_of_first_occurrence "widgets.a.value + widgets.b.value"
    (getDependencies "widgets.a.value + widgets.b.value").
Proof.
  intros i j x y Hlt Hi Hj.
  destruct i as [|[|i]], j as [|[|j]]; try lia; try discriminate.
  injection Hi as <-. injection Hj as <-.
  exists 0, 18. repeat split. lia.
Qed.

(** On the test host, a template is resolved by [evaluateTemplate], and
    the marker alone is no expression for [evaluate]. *)
Example evaluateTemplate_ex :
  let engine := updateContext (input1_is "Hi") new_ExpressionEngine in
  fst (evaluateTemplate (H := TestHost.host)
         (JsString "{{ widgets.input1.value }} there") false
         (engine, TestHost.start))
  = Return (JsString "Hi there")
  /\ fst (evaluate (H := TestHost.host) "{{ widgets.input1.value }}" false
            (engine, TestHost.start))
     = Return JsUndefined
  /\ fst (validateExpression (H := TestHost.host) "2 +"
            (engine, TestHost.start))
     = Return (false, Some "Unexpected token").
Proof. repeat split. Qed.

(** ** Text lemmas *)

Lemma chars_of_app (a b : string) :
  chars_of (a +:+ b) = chars_of a ++ chars_of b.
Proof.
  unfold chars_of. induction a as [|c a IH]; [reflexivity|].
  change (String c a +:+ b) with (String c (a +:+ b)).
  cbn [list_ascii_of_string]. now rewrite IH.
Qed.

Lemma text_of_app (a b : chars) : text_of (a ++ b) = text_of a +:+ text_of b.
Proof.
  unfold text_of. induction a as [|c a IH]; [reflexivity|].
  cbn [app string_of_list_ascii]. rewrite IH. reflexivity.
Qed.

Lemma text_of_chars_of (s : string) : text_of (chars_of s) = s.
Proof. apply string_of_list_ascii_of_string. Qed.

Lemma chars_of_text_of (l : chars) : chars_of (text_of l) = l.
Proof. apply list_ascii_of_string_of_list_ascii. Qed.

Lemma chars_of_inj (a b : string) : chars_of a = chars_of b -> a = b.
Proof.
  intros E. rewrite <- (text_of_chars_of a), <- (text_of_chars_of b).
  now rewrite E.
Qed.

Lemma strip_prefix_spec p s r : strip_prefix p s = Some r <-> s = p ++ r.
Proof.
  revert s. induction p as [|a p IH]; intros s; simpl.
  - split; [intros [= ->]|intros ->]; reflexivity.
  - destruct s as [|b s]; [split; discriminate|].
    destruct (Ascii.eqb_spec a b) as [->|Hne].
    + rewrite IH. split; [intros ->|intros [= ->]]; reflexivity.
    + split; [discriminate|]. intros [= -> ->]. contradiction.
Qed.

Lemma strip_prefix_app p r : strip_prefix p (p ++ r) = Some r.
Proof. now apply strip_prefix_spec. Qed.

Lemma includes_chars_spec s kw :
  includes_chars s kw = true <-> exists pre post, s = pre ++ kw ++ post.
Proof.
  induction s as [|c s IH]; simpl.
  - destruct (strip_prefix kw []) as [r|] eqn:E.
    + apply strip_prefix_spec in E. split; [|reflexivity].
      intros _. exists [], r. exact E.
    + split; [discriminate|]. intros (pre & post & E').
      destruct pre; [|discriminate]. simpl in E'.
      rewrite E', strip_prefix_app in E. discriminate.
  - destruct (strip_prefix kw (c :: s)) as [r|] eqn:E.
    + apply strip_prefix_spec in E. split; [|reflexivity].
      intros _. exists [], r. exact E.
    + rewrite IH. split.
      * intros (pre & post & ->). now exists (c :: pre), post.
      * intros (pre & post & E'). destruct pre as [|c' pre].
        -- simpl in E'. rewrite E', strip_prefix_app in E. discriminate.
        -- injection E' as -> ->. now exists pre, post.
Qed.

(** [includes] is the substring relation. *)
Lemma includes_spec (s kw : string) :
  includes s kw = true <-> exists pre post, s = pre +:+ kw +:+ post.
Proof.
  unfold includes. rewrite includes_chars_spec. split.
  - intros (pre & post & E). exists (text_of pre), (text_of post).
    apply chars_of_inj. rewrite !chars_of_app, !chars_of_text_of. exact E.
  - intros (pre & post & ->). exists (chars_of pre), (chars_of post).
    now rewrite !chars_of_app.
Qed.

Lemma span_spec f s a b :
  span f s = (a, b) ->
  s = a ++ b /\ forallb f a = true /\ (forall c b', b = c :: b' -> f c = false).
Proof.
  revert a b. induction s as [|c s IH]; intros a b; simpl.
  - intros [= <- <-]. repeat split. discriminate.
  - destruct (f c) eqn:Ec.
    + destruct (span f s) as [a' b'] eqn:E. intros [= <- <-].
      destruct (IH _ _ eq_refl) as (-> & Ha & Hb).
      simpl. rewrite Ec, Ha. repeat split. exact Hb.
    + intros [= <- <-]. repeat split. intros c' b' [= <- <-]. exact Ec.
Qed.

Lemma span_app f a b :
  forallb f a = true -> (forall c b', b = c :: b' -> f c = false) ->
  span f (a ++ b) = (a, b).
Proof.
  intros Ha Hb. induction a as [|c a IH]; simpl in *.
  - destruct b as [|c b]; [reflexivity|]. simpl.
    now rewrite (Hb c b eq_refl).
  - apply andb_prop in Ha as [Hc Ha]. rewrite Hc, (IH Ha). reflexivity.
Qed.

Lemma drop_while_spec f s :
  exists l, s = l ++ drop_while f s /\ forallb f l = true
            /\ (forall c r, drop_while f s = c :: r -> f c = false).
Proof.
  induction s as [|c s (l & E & Hl & Hd)]; simpl.
  - exists []. repeat split. discriminate.
  - destruct (f c) eqn:Ec.
    + exists (c :: l). simpl. rewrite Ec, Hl. repeat split.
      * now rewrite <- E.
      * exact Hd.
    + exists []. repeat split. intros c' r [= <- <-]. exact Ec.
Qed.

(** [trim] removes a run of white space at each end and nothing else:
    what is left neither starts nor ends with white space. *)
Lemma trim_chars_spec s :
  exists l r,
    s = l ++ trim_chars s ++ r
    /\ forallb is_js_space l = true /\ forallb is_js_space r = true
    /\ (forall c t, trim_chars s = c :: t -> is_js_space c = false)
    /\ (forall c t, trim_chars s = t ++ [c] -> is_js_space c = false).
Proof.
  unfold trim_chars.
  destruct (drop_while_spec is_js_space s) as (l & E1 & Hl & Hd1).
  set (m := drop_while is_js_space s) in *.
  destruct (drop_while_spec is_js_space (rev m)) as (r & E2 & Hr & Hd2).
  set (k := drop_while is_js_space (rev m)) in *.
  assert (Em : m = rev k ++ rev r).
  { rewrite <- rev_app_distr, <- E2, rev_involutive. reflexivity. }
  exists l, (rev r). repeat split.
  - rewrite <- Em. exact E1.
  - exact Hl.
  - rewrite forallb_forall in *. intros c Hc. apply Hr.
    now apply in_rev.
  - intros c t Ek.
    destruct m as [|c' m'].
    + destruct (rev k); discriminate.
    + rewrite Ek in Em. injection Em as -> _. now apply (Hd1 c m').
  - intros c t Ek. apply (Hd2 c (rev t)).
    rewrite <- (rev_involutive k), Ek, rev_app_distr. reflexivity.
Qed.

(** ** Scanning lemmas *)
Section RegExpFacts.
Variable here : chars -> option (chars * chars).
Hypothesis here_shorter :
  forall s g rest, here s = Some (g, rest) -> length rest < length s.

Lemma exec_all_step s :
  exec_all here here_shorter s =
  match exec here s with
  | Some (_, g, rest) => g :: exec_all here here_shorter rest
  | None => []
  end.
Proof.
  funelim (exec_all here here_shorter s);
    match goal with E : exec here _ = _ |- _ => rewrite E end; reflexivity.
Qed.

(** A match found by [exec] is a match at the position it reports, and
    the pattern matches at no earlier position. *)
Lemma exec_sound s before g rest :
  exec here s = Some (before, g, rest) ->
  exists m, s = before ++ m /\ here m = Some (g, rest)
            /\ forall b1 b2, before = b1 ++ b2 -> b2 <> [] ->
                             here (b2 ++ m) = None.
Proof.
  revert before. induction s as [|c s IH]; intros before; simpl.
  - destruct (here []) as [[g' r']|] eqn:E; [|discriminate].
    intros [= <- <- <-]. exists []. repeat split; [exact E|].
    intros [|] b2 Hb Hne; [|discriminate]. simpl in Hb. congruence.
  - destruct (here (c :: s)) as [[g' r']|] eqn:E.
    + intros [= <- <- <-]. exists (c :: s). repeat split; [exact E|].
      intros [|] b2 Hb Hne; [|discriminate]. simpl in Hb. congruence.
    + destruct (exec here s) as [[[b' g'] r']|]; [|discriminate].
      intros [= <- <- <-].
      destruct (IH _ eq_refl) as (m & -> & Hm & Hleft).
      exists m. repeat split; [exact Hm|].
      intros [|c' b1] b2 Hb Hne; simpl in Hb.
      * subst b2. exact E.
      * injection Hb as <- ->. now apply (Hleft b1).
Qed.

Lemma exec_complete pre m :
  is_Some (here m) -> is_Some (exec here (pre ++ m)).
Proof.
  intros [[g rest] Hm]. induction pre as [|c pre IH]; simpl.
  - destruct m; simpl; rewrite Hm; eauto.
  - destruct (here (c :: pre ++ m)) as [[g' r']|]; [eauto|].
    destruct IH as [[[b' g'] r'] ->]. eauto.
Qed.

Lemma exec_all_nil s :
  exec_all here here_shorter s = [] <-> exec here s = None.
Proof.
  rewrite exec_all_step.
  destruct (exec here s) as [[[b g] r]|]; split; congruence.
Qed.

(** Every group of [exec_all] belongs to a match somewhere in the
    text. *)
Lemma exec_all_elem s x :
  (forall t g rest, here t = Some (g, rest) -> exists c, t = c ++ rest) ->
  x ∈ exec_all here here_shorter s ->
  exists pre m rest, s = pre ++ m /\ here m = Some (x, rest).
Proof.
  intros Hsuffix.
  induction s as [s IH] using (induction_ltof1 _ (@length ascii)).
  unfold ltof in IH. rewrite exec_all_step.
  destruct (exec here s) as [[[before g] rest]|] eqn:E.
  - destruct (exec_sound _ _ _ _ E) as (m & -> & Hm & _).
    intros [->|Hin]%elem_of_cons.
    + eauto.
    + apply IH in Hin; [|now apply exec_shorter in E].
      destruct Hin as (pre' & m' & rest' & -> & Hm').
      destruct (Hsuffix _ _ _ Hm) as (c & ->).
      exists (before ++ c ++ pre'), m', rest'.
      split; [now rewrite <- !app_assoc|exact Hm'].
  - intros Hin. inversion Hin.
Qed.
End RegExpFacts.

Lemma marker_here_spec s g rest :
  marker_here s = Some (g, rest) <->
  s = ["{"; "{"]%char ++ g ++ ["}"; "}"]%char ++ rest
  /\ g <> [] /\ forallb not_close g = true.
Proof.
  unfold marker_here. split.
  - destruct (strip_prefix _ s) as [s1|] eqn:E1; [|discriminate].
    apply strip_prefix_spec in E1 as ->.
    destruct (span not_close s1) as [g' r] eqn:Es.
    apply span_spec in Es as (-> & Hg & _).
    destruct g' as [|c g']; [discriminate|].
    destruct (strip_prefix _ r) as [rest'|] eqn:E2; [|discriminate].
    apply strip_prefix_spec in E2 as ->.
    intros [= <- <-]. repeat split; [discriminate|exact Hg].
  - intros (-> & Hne & Hg). rewrite strip_prefix_app.
    rewrite span_app; [|exact Hg|now intros c b' [= <- <-]].
    destruct g; [contradiction|]. now rewrite strip_prefix_app.
Qed.

(** ** C10 *)

(** C10. [hasExpression text] is true exactly when [extractExpressions
    text] is not empty; and every element [x] that [extractExpressions]
    returns is the trimmed inner source of a marker of the text: the text
    contains two opening braces, a non-empty [inner] without closing
    brace and two closing braces, and [x] is [inner] without the white
    space at its two ends. *)
Theorem hasExpression_iff_extractExpressions (text : string) :
  (hasExpression text = true <-> extractExpressions text <> [])
  /\ forall x, x ∈ extractExpressions text ->
       exists before inner after l r,
         text = before +:+ "{{" +:+ inner +:+ "}}" +:+ after
         /\ inner <> "" /\ includes inner "}" = false
         /\ x = trim inner
         /\ inner = l +:+ x +:+ r
         /\ all_space l = true /\ all_space r = true
         /\ (forall c, first_char x = Some c -> is_js_space c = false)
         /\ (forall c, last_char x = Some c -> is_js_space c = false).
Proof.
  split.
  - unfold hasExpression, extractExpressions.
    rewrite exec_all_step.
    destruct (exec marker_here (chars_of text)) as [[[b g] r]|];
      simpl; split; congruence.
  - intros x. unfold extractExpressions.
    intros (g & -> & Hin)%list_elem_of_fmap.
    apply exec_all_elem in Hin as (pre & m & rest & Et & Hm).
    2:{ intros t g' rest' (-> & _)%marker_here_spec.
        exists (["{"; "{"]%char ++ g' ++ ["}"; "}"]%char).
        now rewrite <- !app_assoc. }
    apply marker_here_spec in Hm as (-> & Hne & Hg).
    destruct (trim_chars_spec g) as (l & r & Eg & Hl & Hr & Hfirst & Hlast).
    exists (text_of pre), (text_of g), (text_of rest), (text_of l), (text_of r).
    repeat split.
    + apply chars_of_inj.
      rewrite !chars_of_app, !chars_of_text_of. exact Et.
    + intros E. apply (f_equal chars_of) in E.
      rewrite chars_of_text_of in E. contradiction.
    + destruct (includes (text_of g) "}") eqn:Ei; [|reflexivity].
      apply includes_spec in Ei as (a & b & Ei).
      apply (f_equal chars_of) in Ei.
      rewrite !chars_of_app, chars_of_text_of in Ei.
      rewrite Ei, !forallb_app in Hg. simpl in Hg.
      rewrite andb_false_r in Hg. discriminate.
    + unfold trim. now rewrite chars_of_text_of.
    + apply chars_of_inj.
      rewrite !chars_of_app, !chars_of_text_of. exact Eg.
    + unfold all_space. now rewrite chars_of_text_of.
    + unfold all_space. now rewrite chars_of_text_of.
    + unfold first_char. rewrite chars_of_text_of.
      destruct (trim_chars g) as [|c' t] eqn:Et'; [discriminate|].
      intros c [= <-]. now apply (Hfirst c' t).
    + unfold last_char. rewrite chars_of_text_of.
      destruct (trim_chars g) as [|c' t] eqn:Et' using rev_ind;
        [discriminate|].
      rewrite last_snoc. intros c [= <-]. now apply (Hlast c' t).
Qed.

(** ** Lemmas on the reference patterns and on [Set] insertion *)

Lemma ref_here_spec ns s g rest :
  ref_here ns s = Some (g, rest) <->
  s = (ns ++ ["."]%char) ++ g ++ rest
  /\ g <> [] /\ forallb is_word g = true
  /\ (forall c r, rest = c :: r -> is_word c = false).
Proof.
  unfold ref_here. split.
  - destruct (strip_prefix _ s) as [s1|] eqn:E1; [|discriminate].
    apply strip_prefix_spec in E1 as ->.
    destruct (span is_word s1) as [g' r] eqn:Es.
    apply span_spec in Es as (-> & Hg & Hr).
    destruct g' as [|c g']; [discriminate|].
    intros [= <- <-]. repeat split; [discriminate|exact Hg|exact Hr].
  - intros (-> & Hne & Hg & Hr). rewrite strip_prefix_app.
    rewrite span_app by assumption.
    destruct g; [contradiction|reflexivity].
Qed.

Lemma span_app_stop f a b x c y :
  span f a = (x, c :: y) -> span f (a ++ b) = (x, c :: y ++ b).
Proof.
  revert x. induction a as [|d a IH]; intros x; simpl; [discriminate|].
  destruct (f d).
  - destruct (span f a) as [x' y'] eqn:E. intros [= <- ->].
    now rewrite (IH _ eq_refl).
  - intros [= <- <- <-]. reflexivity.
Qed.

(** A literal made of word characters and a final dot overlaps a shifted
    copy of itself only when the shift is at least its length. *)
Lemma prefix_overlap ns l t u :
  forallb is_word ns = true -> l <> [] ->
  l ++ (ns ++ ["."]%char) ++ t = (ns ++ ["."]%char) ++ u ->
  exists l', l = (ns ++ ["."]%char) ++ l'.
Proof.
  intros Hns Hl E. rewrite <- !app_assoc in E. simpl in E.
  apply app_eq_app in E as [k [[-> E]|[-> E]]].
  - destruct k as [|c k].
    + simpl in E. destruct ns as [|c ns]; [contradiction|].
      injection E as <- _. discriminate.
    + injection E as <- _. exists k. now rewrite <- app_assoc.
  - exfalso.
    assert (Hlen : length k < length (l ++ k))
      by (rewrite length_app; destruct l; [contradiction|simpl; lia]).
    apply (f_equal (fun x => nth_error x (length k))) in E.
    cbv beta in E.
    rewrite (nth_error_app2 k), Nat.sub_diag in E by lia.
    rewrite nth_error_app1 in E by exact Hlen.
    cbn [nth_error] in E.
    rewrite forallb_forall in Hns.
    apply nth_error_In, Hns in E. discriminate.
Qed.

(** The scan for namespace [ns] finds every reference that stands free
    in the text: one that is not preceded by a word character or a dot.
    (A reference that starts inside the identifier of an earlier match,
    as the second one of [widgets.widgets.a], is skipped.) *)
Lemma ref_scan_complete ns pre id post :
  forallb is_word ns = true -> id <> [] -> forallb is_word id = true ->
  (forall c r, post = c :: r -> is_word c = false) ->
  (forall p c, pre = p ++ [c] -> is_word c = false /\ c <> "."%char) ->
  id ∈ exec_all (ref_here ns) (ref_here_shorter ns)
         (pre ++ (ns ++ ["."]%char) ++ id ++ post).
Proof.
  intros Hns Hid Hw Hpost.
  induction pre as [pre IH] using (induction_ltof1 _ (@length ascii)).
  unfold ltof in IH. intros Hpre.
  assert (Hhere : ref_here ns ((ns ++ ["."]%char) ++ id ++ post) = Some (id, post)).
  { apply ref_here_spec. repeat split; assumption. }
  rewrite exec_all_step.
  destruct (exec_complete (ref_here ns) pre ((ns ++ ["."]%char) ++ id ++ post))
    as [[[before g] rest] E]; [eauto|].
  rewrite E.
  destruct (exec_sound _ _ _ _ _ E) as (m & Es & Hm & Hleft).
  assert (Hsame : m = (ns ++ ["."]%char) ++ id ++ post -> id ∈ g :: exec_all (ref_here ns)
                    (ref_here_shorter ns) rest).
  { intros ->. rewrite Hhere in Hm. injection Hm as <- <-. left. }
  apply app_eq_app in Es as [l [[E1 E2]|[E1 E2]]].
  - destruct l as [|c0 l0]; [now apply Hsame|].
    set (l := c0 :: l0) in *.
    pose proof Hm as Hm'. apply ref_here_spec in Hm' as (Em & _).
    rewrite E2 in Em.
    apply prefix_overlap in Em as [l' El]; [|assumption|discriminate].
    rewrite E2, El in Hm. unfold ref_here in Hm.
    rewrite <- app_assoc, strip_prefix_app in Hm.
    destruct (span is_word l') as [x y] eqn:Es.
    pose proof (span_spec _ _ _ _ Es) as (El' & Hx & _).
    destruct y as [|d y].
    { exfalso. rewrite app_nil_r in El'. subst l'.
      destruct x as [|c x _] using rev_ind.
      - destruct (Hpre (before ++ ns) "."%char) as [_ Hdot];
          [|now apply Hdot].
        rewrite E1, El. now rewrite app_nil_r, app_assoc.
      - destruct (Hpre (before ++ (ns ++ ["."]%char) ++ x) c) as [Hc _].
        { rewrite E1, El. now rewrite <- !app_assoc. }
        rewrite forallb_app in Hx. simpl in Hx.
        rewrite Hc, andb_false_r in Hx. discriminate. }
    rewrite (span_app_stop _ _ _ _ _ _ Es) in Hm.
    destruct x as [|x0 x]; [discriminate|].
    injection Hm as <- <-. right.
    change (d :: y ++ (ns ++ ["."]%char) ++ id ++ post) with ((d :: y) ++ (ns ++ ["."]%char) ++ id ++ post).
    apply IH.
    + rewrite E1, El, El', !length_app. simpl. lia.
    + intros p c Ep. apply (Hpre (before ++ (ns ++ ["."]%char) ++ (x0 :: x) ++ p)).
      rewrite E1, El, El', Ep. now rewrite <- !app_assoc.
  - destruct l as [|c0 l0]; [apply Hsame; now rewrite E2|].
    exfalso.
    rewrite E2, (Hleft pre (c0 :: l0) E1 ltac:(discriminate)) in Hhere.
    discriminate.
Qed.

Lemma set_add_elem acc x y : y ∈ set_add acc x <-> y ∈ acc \/ y = x.
Proof.
  unfold set_add. destruct (decide (x ∈ acc)) as [Hin|Hnin].
  - split; [auto|]. intros [?| ->]; assumption.
  - rewrite elem_of_app, list_elem_of_singleton. reflexivity.
Qed.

Lemma fold_set_add_elem l acc y :
  y ∈ fold_left set_add l acc <-> y ∈ acc \/ y ∈ l.
Proof.
  revert acc. induction l as [|x l IH]; intros acc; simpl.
  - split; [auto|]. intros [?|Hin]; [assumption|inversion Hin].
  - rewrite IH, set_add_elem, elem_of_cons. tauto.
Qed.

Lemma fold_set_add_NoDup l acc :
  NoDup acc -> NoDup (fold_left set_add l acc).
Proof.
  revert acc. induction l as [|x l IH]; intros acc Hnd; simpl; [assumption|].
  apply IH. unfold set_add. destruct (decide (x ∈ acc)); [assumption|].
  apply NoDup_app. repeat split; [assumption| |apply NoDup_singleton].
  intros y Hy ->%list_elem_of_singleton. contradiction.
Qed.

(** Inserting elements that are all new to the front part of a set
    leaves that part in place. *)
Lemma fold_set_add_disjoint l acc acc' :
  (forall x, x ∈ l -> x ∉ acc) ->
  fold_left set_add l (acc ++ acc') = acc ++ fold_left set_add l acc'.
Proof.
  revert acc'. induction l as [|x l IH]; intros acc' Hdis; simpl;
    [reflexivity|].
  assert (E : set_add (acc ++ acc') x = acc ++ set_add acc' x).
  { unfold set_add.
    destruct (decide (x ∈ acc ++ acc')) as [Hin|Hnin];
      destruct (decide (x ∈ acc')) as [Hin'|Hnin'].
    - reflexivity.
    - apply elem_of_app in Hin as [Hin|Hin]; [|contradiction].
      exfalso. apply (Hdis x); [left|assumption].
    - exfalso. apply Hnin, elem_of_app. now right.
    - now rewrite app_assoc. }
  rewrite E. apply IH. intros y Hy. apply Hdis. now right.
Qed.

Lemma array_of_set_app l1 l2 :
  (forall x, x ∈ l2 -> x ∉ l1) ->
  array_of_set (l1 ++ l2) = array_of_set l1 ++ array_of_set l2.
Proof.
  intros Hdis. unfold array_of_set. rewrite fold_left_app.
  rewrite <- (app_nil_r (fold_left set_add l1 [])) at 1.
  apply fold_set_add_disjoint.
  intros x Hx [Hin|Hin]%fold_set_add_elem; [inversion Hin|].
  now apply (Hdis x).
Qed.

Lemma refs_of_sound ns e d :
  d ∈ refs_of ns e ->
  exists id pre post,
    d = ns +:+ "." +:+ id /\ id <> "" /\ all_word id = true
    /\ e = pre +:+ d +:+ post
    /\ (forall c, first_char post = Some c -> is_word c = false).
Proof.
  unfold refs_of. intros (g & -> & Hin)%list_elem_of_fmap.
  apply exec_all_elem in Hin as (pre & m & rest & Ee & Hm).
  2:{ intros t g' rest' (-> & _)%ref_here_spec.
      exists ((chars_of ns ++ ["."]%char) ++ g'). now rewrite <- !app_assoc. }
  apply ref_here_spec in Hm as (-> & Hne & Hg & Hrest).
  exists (text_of g), (text_of pre), (text_of rest). repeat split.
  - intros E. apply (f_equal chars_of) in E.
    rewrite chars_of_text_of in E. contradiction.
  - unfold all_word. now rewrite chars_of_text_of.
  - apply chars_of_inj. rewrite !chars_of_app, !chars_of_text_of, Ee.
    now rewrite <- !app_assoc.
  - unfold first_char. rewrite chars_of_text_of.
    destruct rest as [|c' r]; [discriminate|].
    intros c [= <-]. now apply (Hrest c' r).
Qed.

Lemma refs_of_complete ns e pre id post :
  all_word ns = true ->
  e = pre +:+ ns +:+ "." +:+ id +:+ post ->
  id <> "" -> all_word id = true ->
  (forall c, first_char post = Some c -> is_word c = false) ->
  (forall c, last_char pre = Some c -> is_word c = false /\ c <> "."%char) ->
  ns +:+ "." +:+ id ∈ refs_of ns e.
Proof.
  intros Hns -> Hid Hw Hpost Hpre. unfold refs_of.
  apply list_elem_of_fmap. exists (chars_of id). split.
  - now rewrite text_of_chars_of.
  - rewrite !chars_of_app.
    change (chars_of ".") with ["."]%char.
    rewrite (app_assoc (chars_of ns)).
    apply ref_scan_complete; try assumption.
    + intros E. apply Hid, chars_of_inj. exact E.
    + intros c r E. apply Hpost. unfold first_char. now rewrite E.
    + intros p c E. apply Hpre. unfold last_char.
      rewrite E. apply last_snoc.
Qed.

(** ** The scan of a reference pattern, with positions *)

Lemma String_length_chars (s : string) :
  String.length s = length (chars_of s).
Proof. induction s as [|c s IH]; simpl; [reflexivity|now rewrite IH]. Qed.

(** The matches the loop of a reference pattern reports, with the
    position of each: every one is a match of the pattern where it
    stands, each begins where the one before has ended or later, and a
    match of the pattern anywhere in the text is reported or begins
    inside a reported one. *)
Lemma ref_scan_positions ns :
  forall s, exists found : list (nat * chars),
    map snd found = exec_all (ref_here ns) (ref_here_shorter ns) s
    /\ (forall i p id, found !! i = Some (p, id) ->
          p <= length s
          /\ exists rest, ref_here ns (drop p s) = Some (id, rest))
    /\ (forall i p id q id',
          found !! i = Some (p, id) -> found !! S i = Some (q, id') ->
          p + length ns + 1 + length id <= q)
    /\ (forall q id' rest,
          q <= length s -> ref_here ns (drop q s) = Some (id', rest) ->
          (q, id') ∈ found
          \/ exists p id,
               (p, id) ∈ found /\ p < q < p + length ns + 1 + length id).
Proof.
  intros s.
  induction s as [s IH] using (induction_ltof1 _ (@length ascii)).
  unfold ltof in IH. rewrite exec_all_step.
  destruct (exec (ref_here ns) s) as [[[before g] rest]|] eqn:E.
  - pose proof (exec_shorter _ (ref_here_shorter ns) _ _ _ _ E) as Hshorter.
    destruct (exec_sound _ _ _ _ _ E) as (m & Es & Hm & Hleft).
    pose proof Hm as Hspec. apply ref_here_spec in Hspec as (Em & _).
    destruct (IH rest Hshorter) as (fr & Hgroups & Hat & Hnext & Hall).
    set (off := length before + length ns + 1 + length g).
    assert (Hs : s = (before ++ (ns ++ ["."]%char) ++ g) ++ rest).
    { rewrite Es, Em. now rewrite <- !app_assoc. }
    assert (Hoff : length (before ++ (ns ++ ["."]%char) ++ g) = off).
    { rewrite !length_app. simpl. unfold off. lia. }
    assert (Hdrop : forall k, drop (off + k) s = drop k rest).
    { intros k. rewrite Hs at 1. rewrite drop_app_ge by lia.
      f_equal. lia. }
    assert (Hlen : length s = off + length rest).
    { rewrite Hs at 1. rewrite length_app. lia. }
    exists ((length before, g)
            :: ((fun x => (off + fst x, snd x)) <$> fr)).
    split; [|split; [|split]].
    + simpl. f_equal. rewrite <- Hgroups.
      clear. induction fr as [|[p id] fr IHfr]; simpl; [reflexivity|].
      now rewrite <- IHfr.
    + intros [|i] p id; simpl.
      * intros [= <- <-]. split.
        -- rewrite Es, length_app. lia.
        -- exists rest. rewrite Es, drop_app_length. exact Hm.
      * rewrite list_lookup_fmap.
        destruct (fr !! i) as [[p' id']|] eqn:Ei; [|discriminate].
        simpl. intros [= <- <-].
        destruct (Hat i p' id' Ei) as (Hle & rest' & Href).
        split; [lia|]. exists rest'. now rewrite Hdrop.
    + intros [|i] p id q id'; simpl.
      * intros [= <- <-]. rewrite list_lookup_fmap.
        destruct (fr !! 0) as [[p' id'']|]; [|discriminate].
        simpl. intros [= <- <-]. unfold off. lia.
      * rewrite !list_lookup_fmap.
        destruct (fr !! i) as [[p1 id1]|] eqn:E1; [|discriminate].
        destruct (fr !! S i) as [[p2 id2]|] eqn:E2; [|discriminate].
        simpl. intros [= <- <-] [= <- <-].
        pose proof (Hnext i p1 id1 p2 id2 E1 E2). lia.
    + intros q id' rest' Hq Href.
      destruct (lt_eq_lt_dec q (length before)) as [[Hlt|Heq]|Hgt].
      * exfalso.
        rewrite Es, drop_app_le in Href by lia.
        rewrite (Hleft (take q before) (drop q before)) in Href;
          [discriminate|now rewrite take_drop|].
        intros Enil. apply (f_equal length) in Enil.
        rewrite length_drop in Enil. simpl in Enil. lia.
      * subst q. rewrite Es, drop_app_length, Hm in Href.
        injection Href as <- <-. left. left.
      * destruct (le_lt_dec off q) as [Hge|Hin].
        -- replace q with (off + (q - off)) in Href by lia.
           rewrite Hdrop in Href.
           destruct (Hall (q - off) id' rest' ltac:(lia) Href)
             as [Hfound|(p & id & Hfound & Hbetween)].
           ++ left. right. apply list_elem_of_fmap.
              exists (q - off, id'). split; [|exact Hfound].
              simpl. f_equal. lia.
           ++ right. exists (off + p), id. split; [|lia].
              right. apply list_elem_of_fmap.
              exists (p, id). split; [reflexivity|exact Hfound].
        -- right. exists (length before), g. split; [left|].
           fold off. lia.
  - exists []. split; [reflexivity|]. split; [|split].
    + intros i p id Hi. discriminate.
    + intros i p id q id' Hi. discriminate.
    + intros q id' rest Hq Href. exfalso.
      destruct (exec_complete (ref_here ns) (take q s) (drop q s))
        as [x Hx]; [eauto|].
      rewrite take_drop, E in Hx. discriminate.
Qed.

(** A reference stands at a position of a text when the pattern matches
    there. *)
Lemma reference_at_ref_here ns text p id :
  reference_at ns text p id
  <-> p <= length (chars_of text)
      /\ exists rest,
           ref_here (chars_of ns) (drop p (chars_of text))
           = Some (chars_of id, rest).
Proof.
  unfold reference_at. split.
  - intros (pre & post & -> & <- & Hne & Hw & Hpost).
    rewrite !chars_of_app, String_length_chars.
    change (chars_of ".") with ["."]%char.
    split; [rewrite length_app; lia|].
    exists (chars_of post). rewrite drop_app_length.
    apply ref_here_spec. repeat split.
    + now rewrite <- !app_assoc.
    + intros E. apply Hne, chars_of_inj. exact E.
    + exact Hw.
    + intros c r E. apply Hpost. unfold first_char. now rewrite E.
  - intros (Hle & rest & Href).
    apply ref_here_spec in Href as (Edrop & Hne & Hw & Hrest).
    exists (text_of (take p (chars_of text))), (text_of rest).
    repeat split.
    + apply chars_of_inj.
      rewrite !chars_of_app, !chars_of_text_of.
      change (chars_of ".") with ["."]%char.
      rewrite <- (take_drop p (chars_of text)) at 1.
      rewrite Edrop. now rewrite <- !app_assoc.
    + rewrite String_length_chars, chars_of_text_of, length_take. lia.
    + intros ->. now apply Hne.
    + exact Hw.
    + unfold first_char. rewrite chars_of_text_of.
      destruct rest as [|c' r]; [discriminate|].
      intros c [= <-]. now apply (Hrest c' r).
Qed.

(** One loop of [getDependencies] is a scan of the text. *)
Lemma refs_of_scan ns expression :
  exists found,
    scan_of ns expression found
    /\ refs_of ns expression = map (fun x => ns +:+ "." +:+ snd x) found.
Proof.
  destruct (ref_scan_positions (chars_of ns) (chars_of expression))
    as (fc & Hgroups & Hat & Hnext & Hall).
  exists ((fun x => (fst x, text_of (snd x))) <$> fc).
  split; [split; [|split]|].
  - intros i p id. rewrite list_lookup_fmap.
    destruct (fc !! i) as [[p' g]|] eqn:Ei; [|discriminate].
    simpl. intros [= <- <-].
    apply reference_at_ref_here. rewrite chars_of_text_of.
    exact (Hat i p' g Ei).
  - intros i p id q id'. rewrite !list_lookup_fmap.
    destruct (fc !! i) as [[p1 g1]|] eqn:E1; [|discriminate].
    destruct (fc !! S i) as [[p2 g2]|] eqn:E2; [|discriminate].
    simpl. intros [= <- <-] [= <- <-].
    unfold reference_end.
    rewrite !String_length_chars, chars_of_text_of.
    exact (Hnext i p1 g1 p2 g2 E1 E2).
  - intros q id' (Hle & rest & Href)%reference_at_ref_here.
    destruct (Hall q (chars_of id') rest Hle Href)
      as [Hfound|(p & g & Hfound & Hbetween)].
    + left. apply list_elem_of_fmap. exists (q, chars_of id').
      split; [|exact Hfound]. simpl. now rewrite text_of_chars_of.
    + right. exists p, (text_of g). split.
      * apply list_elem_of_fmap. exists (p, g). split; [reflexivity|].
        exact Hfound.
      * unfold reference_end.
        rewrite !String_length_chars, chars_of_text_of. exact Hbetween.
  - unfold refs_of. rewrite <- Hgroups.
    clear. induction fc as [|[p g] fc IH]; simpl; [reflexivity|].
    now rewrite IH.
Qed.

(** The positions of a scan increase along the list. *)
Lemma scan_of_increasing ns text found :
  scan_of ns text found ->
  forall j i p id q id',
    i < j -> found !! i = Some (p, id) -> found !! j = Some (q, id') ->
    p < q.
Proof.
  intros (_ & Hnext & _).
  induction j as [|j IH]; intros i p id q id' Hlt Hi Hj; [lia|].
  destruct (lookup_lt_is_Some_2 found j) as [[p' id''] Hj'].
  { apply lookup_lt_Some in Hj. lia. }
  pose proof (Hnext j p' id'' q id' Hj' Hj) as Hend.
  unfold reference_end in Hend.
  destruct (decide (i = j)) as [->|Hne].
  - rewrite Hi in Hj'. injection Hj' as <- <-. lia.
  - pose proof (IH i p id p' id'' ltac:(lia) Hi Hj'). lia.
Qed.

(** ** The order of a [Set] *)

Lemma first_index (l : list string) x :
  x ∈ l -> exists a, l !! a = Some x /\ forall a', a' < a -> l !! a' <> Some x.
Proof.
  induction l as [|y l IH]; intros Hin; [inversion Hin|].
  destruct (decide (y = x)) as [->|Hne].
  - exists 0. split; [reflexivity|]. intros a' Ha'. lia.
  - apply elem_of_cons in Hin as [->|Hin]; [contradiction|].
    destruct (IH Hin) as (a & Ha & Hfirst).
    exists (S a). split; [exact Ha|].
    intros [|a'] Ha'; simpl; [congruence|]. apply Hfirst. lia.
Qed.

(** The array of a [Set] lists the elements by their first insertion. *)
Lemma array_of_set_order (l : list string) :
  forall i j x y,
    i < j ->
    array_of_set l !! i = Some x -> array_of_set l !! j = Some y ->
    exists a b,
      a < b /\ l !! a = Some x /\ l !! b = Some y
      /\ (forall a', a' < a -> l !! a' <> Some x)
      /\ (forall b', b' < b -> l !! b' <> Some y).
Proof.
  induction l as [|z l IH] using rev_ind; intros i j x y Hlt Hi Hj.
  - discriminate.
  - unfold array_of_set in *. rewrite fold_left_app in Hi, Hj.
    cbn [fold_left] in Hi, Hj.
    set (G := fold_left set_add l []) in *. unfold set_add in Hi, Hj.
    assert (Hkeep : forall a b,
              a < b /\ l !! a = Some x /\ l !! b = Some y
              /\ (forall a', a' < a -> l !! a' <> Some x)
              /\ (forall b', b' < b -> l !! b' <> Some y) ->
              a < b /\ (l ++ [z]) !! a = Some x /\ (l ++ [z]) !! b = Some y
              /\ (forall a', a' < a -> (l ++ [z]) !! a' <> Some x)
              /\ (forall b', b' < b -> (l ++ [z]) !! b' <> Some y)).
    { intros a b (Hab & Ha & Hb & Hfa & Hfb).
      pose proof (lookup_lt_Some _ _ _ Ha).
      pose proof (lookup_lt_Some _ _ _ Hb).
      split; [exact Hab|].
      split; [now apply lookup_app_l_Some|].
      split; [now apply lookup_app_l_Some|]. split.
      - intros a' Ha'. rewrite lookup_app_l by lia. now apply Hfa.
      - intros b' Hb'. rewrite lookup_app_l by lia. now apply Hfb. }
    destruct (decide (z ∈ G)) as [Hin|Hnin].
    + destruct (IH i j x y Hlt Hi Hj) as (a & b & Hab).
      exists a, b. now apply Hkeep.
    + apply lookup_app_Some in Hj as [Hj|[Hge Hj]].
      * rewrite lookup_app_l in Hi
          by (apply lookup_lt_Some in Hj; lia).
        destruct (IH i j x y Hlt Hi Hj) as (a & b & Hab).
        exists a, b. now apply Hkeep.
      * rewrite list_lookup_singleton in Hj.
        destruct (j - length G) eqn:Ej;
          [|discriminate].
        injection Hj as <-.
        rewrite lookup_app_l in Hi by lia.
        assert (Hx : x ∈ l).
        { apply list_elem_of_lookup_2 in Hi.
          apply fold_set_add_elem in Hi as [Hnil|Hx];
            [inversion Hnil|exact Hx]. }
        destruct (first_index l x Hx) as (a & Ha & Hfa).
        pose proof (lookup_lt_Some _ _ _ Ha) as Hla.
        exists a, (length l). split; [exact Hla|].
        split; [now apply lookup_app_l_Some|].
        split; [now apply list_lookup_middle|]. split.
        -- intros a' Ha'. rewrite lookup_app_l by lia. now apply Hfa.
        -- intros b' Hb'. rewrite lookup_app_l by lia.
           intros Hb. apply Hnin, fold_set_add_elem. right.
           now apply list_elem_of_lookup_2 in Hb.
Qed.

(** The array of the [Set] of what a scan reports is the group of the
    namespace. *)
Lemma array_of_set_group ns text found :
  scan_of ns text found ->
  group_of ns found
    (array_of_set (map (fun x => ns +:+ "." +:+ snd x) found)).
Proof.
  intros Hscan. pose proof (scan_of_increasing ns text found Hscan) as Hinc.
  set (name := fun x : nat * string => ns +:+ "." +:+ snd x).
  assert (Hlookup : forall a d,
            map name found !! a = Some d ->
            exists p id, found !! a = Some (p, id) /\ d = ns +:+ "." +:+ id).
  { intros a d. change (map name found) with (name <$> found).
    rewrite list_lookup_fmap.
    destruct (found !! a) as [[p id]|]; [|discriminate].
    intros [= <-]. eauto. }
  assert (Hfirst : forall a d p id,
            found !! a = Some (p, id) -> d = ns +:+ "." +:+ id ->
            (forall a', a' < a -> map name found !! a' <> Some d) ->
            first_found ns found d p).
  { intros a d p id Ha -> Hfa. exists id. split; [reflexivity|].
    split; [now apply list_elem_of_lookup_2 in Ha|].
    intros q (c & Hc)%list_elem_of_lookup_1.
    destruct (lt_eq_lt_dec c a) as [[Hlt|Heq]|Hgt].
    - exfalso. apply (Hfa c Hlt).
      change (map name found) with (name <$> found).
      now rewrite list_lookup_fmap, Hc.
    - subst c. rewrite Ha in Hc. injection Hc as <-. lia.
    - pose proof (Hinc c a p id q id Hgt Ha Hc). lia. }
  split; [|split].
  - apply fold_set_add_NoDup, NoDup_nil_2.
  - intros d. unfold array_of_set. rewrite fold_set_add_elem. split.
    + intros [Hnil|Hin]; [inversion Hnil|].
      destruct (first_index _ d Hin) as (a & Ha & Hfa).
      destruct (Hlookup a d Ha) as (p & id & Hfound & Ed).
      exists p. now apply (Hfirst a d p id).
    + intros (p & id & -> & Hin & _). right.
      change (map name found) with (name <$> found).
      apply list_elem_of_fmap. exists (p, id). split; [reflexivity|exact Hin].
  - intros i j x y Hlt Hi Hj.
    destruct (array_of_set_order _ i j x y Hlt Hi Hj)
      as (a & b & Hab & Ha & Hb & Hfa & Hfb).
    destruct (Hlookup a x Ha) as (px & idx & Hfx & Ex).
    destruct (Hlookup b y Hb) as (py & idy & Hfy & Ey).
    exists px, py.
    split; [now apply (Hfirst a x px idx)|].
    split; [now apply (Hfirst b y py idy)|].
    exact (Hinc b a px idx py idy Hab Hfx Hfy).
Qed.

(** ** C8 *)

(** C8, as stated, fails: the page reference comes first in this text
    and last in the result. *)
Lemma getDependencies_not_in_text_order :
  ~ in_order_of_first_occurrence "page.x + widgets.a"
      (getDependencies "page.x + widgets.a").
Proof.
  intros Hord.
  destruct (Hord 0 1 "widgets.a" "page.x") as (px & py & Hx & Hy & Hlt);
    [lia|reflexivity|reflexivity|].
  vm_compute in Hx, Hy. injection Hx as <-. injection Hy as <-. lia.
Qed.

(** The elements of the result: a list without duplicates, made of
    what the three loops report, one namespace after the other.  Every
    element is a namespace name, a dot and a non-empty identifier of word
    characters, and occurs in the text followed by no further word
    character; and a reference that stands free in the text (not preceded
    by a word character or a dot) is an element. *)
Lemma getDependencies_elements (expression : string) :
  NoDup (getDependencies expression)
  /\ getDependencies expression
     = array_of_set (refs_of "widgets" expression)
       ++ array_of_set (refs_of "actions" expression)
       ++ array_of_set (refs_of "page" expression)
  /\ (forall d, d ∈ getDependencies expression ->
        exists ns id pre post,
          ns ∈ namespaces /\ d = ns +:+ "." +:+ id
          /\ id <> "" /\ all_word id = true
          /\ expression = pre +:+ d +:+ post
          /\ (forall c, first_char post = Some c -> is_word c = false))
  /\ (forall ns pre id post,
        ns ∈ namespaces ->
        expression = pre +:+ ns +:+ "." +:+ id +:+ post ->
        id <> "" -> all_word id = true ->
        (forall c, first_char post = Some c -> is_word c = false) ->
        (forall c, last_char pre = Some c ->
                   is_word c = false /\ c <> "."%char) ->
        ns +:+ "." +:+ id ∈ getDependencies expression)
  /\ getDependencies "widgets.a.value + widgets.b.value"
     = ["widgets.a"; "widgets.b"].
Proof.
  assert (Helem : forall d, d ∈ getDependencies expression <->
            exists ns, ns ∈ namespaces /\ d ∈ refs_of ns expression).
  { intros d. unfold getDependencies, array_of_set, namespaces.
    rewrite fold_set_add_elem. simpl. rewrite !elem_of_app. split.
    - intros [Hin|[[Hin|Hin]|Hin]]; [inversion Hin|..].
      + exists "widgets". split; [left|assumption].
      + exists "actions". split; [right; left|assumption].
      + exists "page". split; [do 2 right; left|assumption].
    - intros (ns & Hns & Hin). right.
      repeat match goal with
             | H : _ ∈ _ :: _ |- _ => apply elem_of_cons in H as [->|H]
             | H : _ ∈ [] |- _ => inversion H
             end; auto. }
  repeat split.
  - apply fold_set_add_NoDup, NoDup_nil_2.
  - unfold getDependencies. simpl.
    rewrite <- app_assoc, !array_of_set_app; [reflexivity|..].
    + intros x (id1 & ? & ? & -> & _)%refs_of_sound
               (id2 & ? & ? & E & _)%refs_of_sound.
      apply (f_equal chars_of) in E. rewrite !chars_of_app in E.
      discriminate.
    + intros x [Hin|Hin]%elem_of_app
               (id2 & ? & ? & E & _)%refs_of_sound;
        apply refs_of_sound in Hin as (id1 & ? & ? & -> & _);
        apply (f_equal chars_of) in E; rewrite !chars_of_app in E;
        discriminate.
  - intros d (ns & Hns & Hin)%Helem.
    apply refs_of_sound in Hin as (id & pre & post & ? & ? & ? & ? & ?).
    exists ns, id, pre, post. auto 10.
  - intros ns pre id post Hns E Hid Hw Hpost Hpre.
    apply Helem. exists ns. split; [assumption|].
    apply (refs_of_complete ns expression pre id post); try assumption.
    unfold namespaces in Hns.
    repeat match goal with
           | H : _ ∈ _ :: _ |- _ => apply elem_of_cons in H as [->|H]
           | H : _ ∈ [] |- _ => inversion H
           end; reflexivity.
Qed.

(** C8, amended.  [getDependencies] returns a list without duplicates:
    the group of the [widgets] references, then the group of the
    [actions] references, then the group of the [page] references,
    whatever their order in the text.  The group of a namespace comes
    from one scan of the text from left to right for the name of the
    namespace, a dot and the whole non-empty run of word characters
    after it: the scan reports such a reference wherever one stands in
    the text (also after a word character, as in [xwidgets.a]), except
    one that begins inside a reference it has already reported (the
    second one of [widgets.widgets.a]); the group lists each reported
    reference once, in the order of the first positions at which the
    scan reported them.  For ["widgets.a.value + widgets.b.value"] the
    result is exactly [["widgets.a"; "widgets.b"]]. *)
Theorem getDependencies_grouped (expression : string) :
  NoDup (getDependencies expression)
  /\ (exists fw fa fp gw ga gp,
        scan_of "widgets" expression fw
        /\ scan_of "actions" expression fa
        /\ scan_of "page" expression fp
        /\ group_of "widgets" fw gw
        /\ group_of "actions" fa ga
        /\ group_of "page" fp gp
        /\ getDependencies expression = gw ++ ga ++ gp)
  /\ getDependencies "widgets.a.value + widgets.b.value"
     = ["widgets.a"; "widgets.b"].
Proof.
  destruct (getDependencies_elements expression)
    as (Hnd & Hsplit & _ & _ & Hex).
  split; [exact Hnd|]. split; [|exact Hex].
  destruct (refs_of_scan "widgets" expression) as (fw & Hfw & Ew).
  destruct (refs_of_scan "actions" expression) as (fa & Hfa & Ea).
  destruct (refs_of_scan "page" expression) as (fp & Hfp & Ep).
  exists fw, fa, fp.
  exists (array_of_set (refs_of "widgets" expression)),
         (array_of_set (refs_of "actions" expression)),
         (array_of_set (refs_of "page" expression)).
  split; [exact Hfw|]. split; [exact Hfa|]. split; [exact Hfp|].
  split; [rewrite Ew; now apply (array_of_set_group _ expression)|].
  split; [rewrite Ea; now apply (array_of_set_group _ expression)|].
  split; [rewrite Ep; now apply (array_of_set_group _ expression)|].
  exact Hsplit.
Qed.

(** ** The engine: how [evaluate] ends *)

Lemma sanitizeExpression_Return e e' :
  sanitizeExpression e = Return e' -> e' = e.
Proof.
  unfold sanitizeExpression. destruct (find _ forbidden); congruence.
Qed.

Lemma sanitizeExpression_Throw e error :
  sanitizeExpression e = Throw error ->
  exists keyword,
    keyword ∈ forbidden /\ includes e keyword = true
    /\ error = JsError ("Forbidden keyword in expression: " +:+ keyword).
Proof.
  unfold sanitizeExpression.
  destruct (find _ forbidden) as [keyword|] eqn:E; [|discriminate].
  intros [= <-]. apply find_some in E as [Hin Hinc].
  exists keyword. repeat split; [now apply list_elem_of_In|exact Hinc].
Qed.

Lemma sanitizeExpression_forbidden e keyword :
  keyword ∈ forbidden -> includes e keyword = true ->
  exists error, sanitizeExpression e = Throw error.
Proof.
  intros Hin Hinc. unfold sanitizeExpression.
  destruct (find _ forbidden) as [k|] eqn:E; [eauto|].
  apply list_elem_of_In in Hin.
  apply (find_none _ _ E) in Hin. congruence.
Qed.

Section EngineFacts.
Context {W : Type} `{Host W}.

Ltac unfold_eff :=
  unfold bind, gets, try_catch, of_outcome, ret, throw, with_context,
    cache_set, warn, modify, zoom in *.

Lemma evaluate_empty t (st : EngineState) :
  evaluate "" t st = (Return (JsString ""), st).
Proof. reflexivity. Qed.

(** A cache hit returns the stored value and touches nothing. *)
Lemma evaluate_hit e t (this : ExpressionEngine) (w : W) entry :
  e <> "" -> cache this !! e = Some entry ->
  evaluate e t (this, w) = (Return (value entry), (this, w)).
Proof.
  intros Hne Hc. unfold evaluate.
  destruct (String.eqb_spec e ""); [contradiction|].
  unfold_eff. now rewrite Hc.
Qed.

(** The sanitizer or the [Function] constructor throws: nothing runs and
    nothing is cached. *)
Lemma evaluate_rejected e t (this : ExpressionEngine) (w : W) error :
  e <> "" -> cache this !! e = None ->
  sanitizeExpression e = Throw error
  \/ (sanitizeExpression e = Return e /\ js_compile e = Some error) ->
  evaluate e t (this, w) =
  if t then (Throw error, (this, w))
  else (Return JsUndefined,
        (this, console_warn "Expression evaluation error:" (JsString e)
                 error w)).
Proof.
  intros Hne Hc Hrej. unfold evaluate.
  destruct (String.eqb_spec e ""); [contradiction|].
  unfold_eff. rewrite Hc.
  destruct Hrej as [-> | [-> Hcomp]].
  - destruct t; reflexivity.
  - unfold new_Function. rewrite Hcomp. destruct t; reflexivity.
Qed.

(** The expression runs and yields a value: it is cached under the source
    text. *)
Lemma evaluate_value e t (this : ExpressionEngine) (w : W) v ctx1 w1 :
  e <> "" -> cache this !! e = None ->
  sanitizeExpression e = Return e -> js_compile e = None ->
  js_run e (context this, w) = (Return v, (ctx1, w1)) ->
  evaluate e t (this, w) =
  (Return v,
   ({| context := ctx1;
       cache := <[e := {| value := v; deps := [] |}]> (cache this) |}, w1)).
Proof.
  intros Hne Hc Hs Hcomp Hrun. unfold evaluate.
  destruct (String.eqb_spec e ""); [contradiction|].
  unfold_eff. rewrite Hc, Hs. unfold new_Function. rewrite Hcomp.
  unfold_eff. destruct (js_uncaught e (context this, w));
    rewrite Hrun; reflexivity.
Qed.

(** The text runs and raises.  In throw mode the error is rethrown and
    nothing is cached.  Otherwise [undefined] is returned: the generated
    [catch] clause returns it, and it is cached, when the error was raised
    inside the generated block; when it was raised outside, the function
    throws, the [catch] block of [evaluate] warns, and nothing is
    cached. *)
Lemma evaluate_raise e t (this : ExpressionEngine) (w : W) error ctx1 w1 :
  e <> "" -> cache this !! e = None ->
  sanitizeExpression e = Return e -> js_compile e = None ->
  js_run e (context this, w) = (Throw error, (ctx1, w1)) ->
  evaluate e t (this, w) =
  if t
  then (Throw error, ({| context := ctx1; cache := cache this |}, w1))
  else if js_uncaught e (context this, w)
  then (Return JsUndefined,
        ({| context := ctx1; cache := cache this |},
         console_warn "Expression evaluation error:" (JsString e) error w1))
  else (Return JsUndefined,
        ({| context := ctx1;
            cache := <[e := {| value := JsUndefined; deps := [] |}]>
                       (cache this) |}, w1)).
Proof.
  intros Hne Hc Hs Hcomp Hrun. unfold evaluate.
  destruct (String.eqb_spec e ""); [contradiction|].
  unfold_eff. rewrite Hc, Hs. unfold new_Function. rewrite Hcomp.
  unfold_eff. destruct (js_uncaught e (context this, w));
    rewrite Hrun; destruct t; reflexivity.
Qed.

(** What one call of [evaluate] can do to the cache: nothing, or one
    insertion under an expression that was not cached and passes the
    sanitizer. *)
Lemma evaluate_cache e t (this : ExpressionEngine) (w : W) :
  let this' := fst (snd (evaluate e t (this, w))) in
  cache this' = cache this
  \/ (e <> "" /\ cache this !! e = None /\ sanitizeExpression e = Return e
      /\ exists entry, cache this' = <[e := entry]> (cache this)).
Proof.
  destruct (String.eqb_spec e "") as [->|Hne]; [now left|].
  destruct (cache this !! e) as [entry|] eqn:Hc.
  { rewrite (evaluate_hit _ _ _ _ _ Hne Hc). now left. }
  destruct (sanitizeExpression e) as [e'|error] eqn:Hs.
  2:{ rewrite (evaluate_rejected e t this w error Hne Hc (or_introl Hs)).
      destruct t; now left. }
  pose proof (sanitizeExpression_Return _ _ Hs) as ->.
  destruct (js_compile e) as [error|] eqn:Hcomp.
  { rewrite (evaluate_rejected e t this w error Hne Hc
               (or_intror (conj Hs Hcomp))).
    destruct t; now left. }
  destruct (js_run e (context this, w)) as [[v|error] [ctx1 w1]] eqn:Hrun.
  - rewrite (evaluate_value _ t _ _ _ _ _ Hne Hc Hs Hcomp Hrun).
    right. simpl. eauto 10.
  - rewrite (evaluate_raise _ t _ _ _ _ _ Hne Hc Hs Hcomp Hrun).
    destruct t; [now left|].
    destruct (js_uncaught e (context this, w)); [now left|].
    right. simpl. eauto 10.
Qed.

Lemma evaluate_keeps_entry e t (this : ExpressionEngine) (w : W) k entry :
  cache this !! k = Some entry ->
  cache (fst (snd (evaluate e t (this, w)))) !! k = Some entry.
Proof.
  intros Hk.
  destruct (evaluate_cache e t this w) as [->|(_ & Hnone & _ & x & ->)];
    [assumption|].
  rewrite lookup_insert_ne; [assumption|]. congruence.
Qed.

Lemma later_keeps_entry steps (st : EngineState) k entry :
  cache (fst st) !! k = Some entry ->
  cache (fst (later steps st)) !! k = Some entry.
Proof.
  revert st. induction steps as [|[e t|ctx w'] steps IH]; intros [this w] Hk;
    simpl; [assumption| |].
  - apply IH.
    destruct (evaluate e t (this, w)) as [r [this' w1]] eqn:E.
    pose proof (evaluate_keeps_entry e t this w k entry Hk) as Hk'.
    now rewrite E in Hk'.
  - apply IH. exact Hk.
Qed.

(** Every cached source text passed the sanitizer. *)
Lemma reachable_cache_safe (st : EngineState) k entry :
  reachable st -> cache (fst st) !! k = Some entry ->
  sanitizeExpression k = Return k.
Proof.
  intros Hr. revert k entry.
  induction Hr as [w|this w ctx' w' _ IH|p this w _ IH|this w _ IH
                  |e t [this w] _ IH]; intros k entry; simpl.
  - rewrite lookup_empty. discriminate.
  - apply IH.
  - rewrite lookup_empty. discriminate.
  - rewrite lookup_empty. discriminate.
  - destruct (evaluate_cache e t this w) as [->|(_ & _ & Hs & x & ->)].
    + apply IH.
    + destruct (decide (e = k)) as [<-|Hne].
      * intros _. exact Hs.
      * rewrite lookup_insert_ne by assumption. apply IH.
Qed.
End EngineFacts.

(** ** C1, C5, C6, C9: the engine *)

Lemma forbidden_not_in_empty keyword :
  keyword ∈ forbidden -> includes "" keyword = false.
Proof.
  unfold forbidden. intros Hin.
  repeat match goal with
         | H : _ ∈ _ :: _ |- _ => apply elem_of_cons in H as [->|H]
         | H : _ ∈ [] |- _ => inversion H
         end; reflexivity.
Qed.

Section EngineClaims.
Context {W : Type} `{Host W}.

(** C1. In every state the engine can reach, an expression that contains
    a denylisted substring is rejected with the [Forbidden keyword] error
    before anything runs: with [throwOnError = true] the error is thrown
    and the state is unchanged; with [throwOnError = false] [undefined] is
    returned, the engine object is unchanged and the host only receives
    the console warning.  In both cases nothing is cached for the
    expression. *)
Theorem evaluate_forbidden_keyword (st : EngineState)
    (expression kw pre post : string) :
  reachable st ->
  kw ∈ forbidden ->
  expression = pre +:+ kw +:+ post ->
  exists keyword,
    keyword ∈ forbidden /\ includes expression keyword = true
    /\ let error :=
         JsError ("Forbidden keyword in expression: " +:+ keyword) in
       evaluate expression true st = (Throw error, st)
       /\ evaluate expression false st
          = (Return JsUndefined,
             (fst st,
              console_warn "Expression evaluation error:"
                (JsString expression) error (snd st)))
       /\ cache (fst st) !! expression = None.
Proof.
  intros Hreach Hkw Hexpr. destruct st as [this w].
  assert (Hinc : includes expression kw = true)
    by (apply includes_spec; eauto).
  destruct (sanitizeExpression_forbidden _ _ Hkw Hinc) as [error Hs].
  destruct (sanitizeExpression_Throw _ _ Hs) as (keyword & Hk & Hik & ->).
  assert (Hne : expression <> "").
  { intros ->. rewrite (forbidden_not_in_empty _ Hkw) in Hinc.
    discriminate. }
  assert (Hc : cache this !! expression = None).
  { destruct (cache this !! expression) as [entry|] eqn:Hc; [|reflexivity].
    rewrite (reachable_cache_safe _ _ _ Hreach Hc) in Hs. discriminate. }
  exists keyword. repeat split; try assumption.
  - apply (evaluate_rejected expression true this w _ Hne Hc (or_introl Hs)).
  - apply (evaluate_rejected expression false this w _ Hne Hc (or_introl Hs)).
Qed.

(** C5. A first evaluation that succeeds (the text passes the sanitizer,
    the [Function] constructor accepts it and the code returns [v]) runs
    the code once and caches [v] under the source text; after that, and
    after any further evaluations and changes on the host's side that do
    not go through [updateContext], evaluating the same text with either
    flag returns [v] and leaves the engine and the host as they are: the
    code is not executed again. *)
Theorem evaluate_twice_cached (this : ExpressionEngine) (w : W)
    (e : string) (t : bool) (v : JsValue) ctx1 (w1 : W) :
  e <> "" ->
  cache this !! e = None ->
  sanitizeExpression e = Return e ->
  js_compile e = None ->
  js_run e (context this, w) = (Return v, (ctx1, w1)) ->
  exists st1,
    evaluate e t (this, w) = (Return v, st1)
    /\ snd st1 = w1
    /\ value <$> cache (fst st1) !! e = Some v
    /\ forall steps t2,
         let st2 := later steps st1 in
         evaluate e t2 st2 = (Return v, st2).
Proof.
  intros Hne Hc Hs Hcomp Hrun.
  eexists. split; [apply (evaluate_value e t this w v ctx1 w1); assumption|].
  split; [reflexivity|]. split.
  - simpl. now rewrite lookup_insert_eq.
  - intros steps t2 st2.
    assert (Hk : cache (fst st2) !! e = Some {| value := v; deps := [] |}).
    { apply later_keeps_entry. simpl. apply lookup_insert_eq. }
    destruct st2 as [this2 w2].
    apply (evaluate_hit e t2 this2 w2 _ Hne Hk).
Qed.


(** C6. [updateContext] replaces each supplied namespace, keeps the
    others, and empties the cache; so an expression evaluated after the
    update is run afresh against the merged context, whatever was cached
    for it before. *)
Theorem updateContext_merges_and_clears (partial : PartialContext)
    (this : ExpressionEngine) :
  let this' := updateContext partial this in
  merged (widgets (context this)) (p_widgets partial)
         (widgets (context this'))
  /\ merged (actions (context this)) (p_actions partial)
            (actions (context this'))
  /\ merged (page (context this)) (p_page partial) (page (context this'))
  /\ merged (utils (context this)) (p_utils partial) (utils (context this'))
  /\ merged (store (context this)) (p_store partial) (store (context this'))
  /\ cache this' = ∅
  /\ forall e t (w : W) v ctx1 w1,
       e <> "" -> sanitizeExpression e = Return e -> js_compile e = None ->
       js_run e (context this', w) = (Return v, (ctx1, w1)) ->
       fst (evaluate e t (this', w)) = Return v
       /\ snd (snd (evaluate e t (this', w))) = w1.
Proof.
  cbn zeta.
  do 5 (split;
        [unfold merged; simpl;
         match goal with |- context [default _ ?o] => destruct o end;
         reflexivity|]).
  split; [reflexivity|].
  intros e t w v ctx1 w1 Hne Hs Hcomp Hrun.
  rewrite (evaluate_value e t _ w v ctx1 w1 Hne (lookup_empty _) Hs Hcomp
             Hrun).
  split; reflexivity.
Qed.
End EngineClaims.

(** *** The engine claims on the test host *)
Section EngineWitnesses.
#[local] Existing Instance TestHost.host.

Lemma evaluate_forbidden_keyword_witness :
  reachable TestHost.ticked
  /\ "window" ∈ forbidden
  /\ "window.location" = "" +:+ "window" +:+ ".location"
  /\ exists keyword,
       keyword ∈ forbidden /\ includes "window.location" keyword = true
       /\ let error :=
            JsError ("Forbidden keyword in expression: " +:+ keyword) in
          evaluate "window.location" true TestHost.ticked = (Throw error, TestHost.ticked)
          /\ evaluate "window.location" false TestHost.ticked
             = (Return JsUndefined,
                (fst TestHost.ticked,
                 console_warn "Expression evaluation error:"
                   (JsString "window.location") error (snd TestHost.ticked)))
          /\ cache (fst TestHost.ticked) !! "window.location" = None.
Proof.
  assert (Hreach : reachable TestHost.ticked) by apply reach_evaluate, reach_new.
  assert (Hin : "window" ∈ forbidden) by (unfold forbidden; repeat constructor).
  repeat split; [exact Hreach|exact Hin|].
  exact (evaluate_forbidden_keyword TestHost.ticked "window.location" "window" ""
           ".location" Hreach Hin eq_refl).
Defined.

Lemma evaluate_twice_cached_witness :
  exists st1,
    evaluate "utils.tick()" false (new_ExpressionEngine, TestHost.start)
    = (Return (JsNumber 1), st1)
    /\ snd st1 = {| TestHost.ticks := 1; TestHost.trace := [];
                    TestHost.storage := [] |}
    /\ value <$> cache (fst st1) !! "utils.tick()" = Some (JsNumber 1)
    /\ forall steps t2,
         let st2 := later steps st1 in
         evaluate "utils.tick()" t2 st2 = (Return (JsNumber 1), st2).
Proof.
  apply (evaluate_twice_cached new_ExpressionEngine TestHost.start
           "utils.tick()" false (JsNumber 1) (context new_ExpressionEngine));
    [discriminate|reflexivity|reflexivity|reflexivity|reflexivity].
Defined.


Lemma updateContext_merges_and_clears_witness :
  fst (evaluate "widgets.a.value" false (TestHost.cached_one, TestHost.start))
  = Return (JsNumber 1)
  /\ value <$> cache TestHost.cached_one !! "widgets.a.value" = Some (JsNumber 1)
  /\ fst (evaluate "widgets.a.value" false
            (updateContext (TestHost.widget_a 2) TestHost.cached_one, TestHost.start))
     = Return (JsNumber 2).
Proof.
  split; [reflexivity|]. split; [reflexivity|].
  apply (proj2 (proj2 (proj2 (proj2 (proj2 (proj2
           (updateContext_merges_and_clears (TestHost.widget_a 2) TestHost.cached_one))))))
           "widgets.a.value" false TestHost.start (JsNumber 2)
           (context (updateContext (TestHost.widget_a 2) TestHost.cached_one)) TestHost.start);
    [discriminate|reflexivity|reflexivity|reflexivity].
Defined.
End EngineWitnesses.

(** *** A text that closes the generated block *)
Section EngineInjection.
#[local] Existing Instance TestHost.injecting_host.

End EngineInjection.

(** ** The manager: what [run] does *)
Section ManagerFacts.
Import ActionManager.
Context {W : Type} `{Host W}.

Lemma keeps_ret {A} (a : A) :
  keeps_manager (ret a : Eff (@Runtime W) A).
Proof. intros rt. reflexivity. Qed.

Lemma keeps_throw {A} error :
  keeps_manager (throw error : Eff (@Runtime W) A).
Proof. intros rt. reflexivity. Qed.

Lemma keeps_of_outcome {A} (o : Outcome A) :
  keeps_manager (of_outcome o : Eff (@Runtime W) A).
Proof. intros rt. reflexivity. Qed.

Lemma keeps_gets {A} (f : @Runtime W -> A) : keeps_manager (gets f).
Proof. intros rt. reflexivity. Qed.

Lemma keeps_on_engine {A} (m : Eff (@EngineState W) A) :
  keeps_manager (on_engine m).
Proof.
  intros rt. unfold on_engine, zoom.
  destruct (m _) as [r [engine w]]. reflexivity.
Qed.

Lemma keeps_on_world {A} (m : Eff W A) : keeps_manager (on_world m).
Proof.
  intros rt. unfold on_world, zoom. destruct (m _) as [r w]. reflexivity.
Qed.

Lemma keeps_bind {A B} (m : Eff (@Runtime W) A) (k : A -> Eff (@Runtime W) B) :
  keeps_manager m -> (forall a, keeps_manager (k a)) ->
  keeps_manager (bind m k).
Proof.
  intros Hm Hk rt. unfold bind. specialize (Hm rt).
  destruct (m rt) as [[a|error] rt']; simpl in *; [|exact Hm].
  now rewrite Hk.
Qed.

Lemma keeps_try_catch {A} (m : Eff (@Runtime W) A) handler :
  keeps_manager m -> (forall error, keeps_manager (handler error)) ->
  keeps_manager (try_catch m handler).
Proof.
  intros Hm Hh rt. unfold try_catch. specialize (Hm rt).
  destruct (m rt) as [[a|error] rt']; simpl in *; [exact Hm|].
  now rewrite Hh.
Qed.

Ltac keeps :=
  cbv zeta;
  repeat first
    [ apply keeps_ret | apply keeps_throw | apply keeps_of_outcome
    | apply keeps_gets | apply keeps_on_engine | apply keeps_on_world
    | apply keeps_bind; [|intros ?]
    | apply keeps_try_catch; [|intros ?]
    | match goal with
      | |- keeps_manager (if ?b then _ else _) => destruct b
      | |- keeps_manager (match ?x with _ => _ end) => destruct x
      end ].

Lemma executeAction_keeps_manager action params :
  keeps_manager (executeAction action params).
Proof.
  unfold executeAction, executeHttpAction, executeGraphQLAction,
    executeUpdateWidgetAction, executeNavigateAction, executeModalAction,
    executeAlertAction, executeToastAction, executeLocalStorageAction,
    executeCopyToClipboardAction, executeDownloadFileAction,
    executeRunJSAction.
  keeps.
Qed.

(** [notifyListeners] calls the listeners registered for the identifier,
    in the order of their registration, on the host. *)
Lemma notifyListeners_spec actionId result (rt : @Runtime W) :
  notifyListeners actionId result rt =
  (fst (forEach_listener (default [] (listeners (manager rt) !! actionId))
          result (world rt)),
   set_world
     (snd (forEach_listener (default [] (listeners (manager rt) !! actionId))
             result (world rt))) rt).
Proof.
  unfold notifyListeners, bind, gets, on_world, zoom.
  destruct (listeners (manager rt) !! actionId) as [set|]; simpl.
  - destruct (forEach_listener set result (world rt)). reflexivity.
  - destruct rt. reflexivity.
Qed.

Lemma forEach_listener_quiet set result (w : W) :
  (forall listener w', listener ∈ set ->
     fst (listener_call listener result w') = Return tt) ->
  fst (forEach_listener set result w) = Return tt.
Proof.
  revert w. induction set as [|l set IH]; intros w Hq; simpl; [reflexivity|].
  unfold bind. specialize (Hq l w ltac:(left)) as Hl.
  destruct (listener_call l result w) as [[[]|error] w1]; simpl in Hl;
    [|discriminate].
  apply IH. intros l' w' Hin. apply Hq. now right.
Qed.

(** A listener exception can only come from a listener. *)
Lemma forEach_listener_throw set result (w : W) error :
  fst (forEach_listener set result w) = Throw error ->
  exists listener w',
    listener ∈ set /\ fst (listener_call listener result w') = Throw error.
Proof.
  revert w. induction set as [|l set IH]; intros w; simpl; [discriminate|].
  unfold bind.
  destruct (listener_call l result w) as [[[]|error'] w1] eqn:E; simpl.
  - intros (l' & w' & Hin & Hl')%IH. exists l', w'. split; [now right|].
    exact Hl'.
  - intros [= ->]. exists l, w. split; [left|]. now rewrite E.
Qed.

Lemma notifyListeners_quiet actionId result (rt : @Runtime W) :
  quiet_for actionId (manager rt) ->
  fst (notifyListeners actionId result rt) = Return tt.
Proof.
  intros Hq. rewrite notifyListeners_spec. simpl.
  apply forEach_listener_quiet. intros l w' Hin.
  destruct (listeners (manager rt) !! actionId) as [set|] eqn:E;
    [|inversion Hin].
  now apply (Hq set).
Qed.

(** [run] on an identifier without definition: the failure result goes
    to the listeners and to the caller; the result map is not written. *)
Lemma run_not_found actionId params (rt : @Runtime W) :
  actions (manager rt) !! actionId = None ->
  let result := failed ("Action not found: " +:+ actionId) None in
  run actionId params rt =
  match notifyListeners actionId result rt with
  | (Return _, rt') => (Return result, rt')
  | (Throw error, rt') => (Throw error, rt')
  end.
Proof.
  intros Hnone. unfold run, bind at 1, gets. now rewrite Hnone.
Qed.

(** [run] when the executor throws: the [catch] block. *)
Lemma run_catch actionId params (rt : @Runtime W) action error rt1 :
  actions (manager rt) !! actionId = Some action ->
  executeAction action params rt = (Throw error, rt1) ->
  let result := failed (error_message error) None in
  run actionId params rt =
  match notifyListeners actionId result (store_result actionId result rt1) with
  | (Return _, rt') => (Return result, rt')
  | (Throw error', rt') => (Throw error', rt')
  end.
Proof.
  intros Hsome Hexec. unfold run, bind at 1, gets. rewrite Hsome.
  unfold try_catch, bind at 1. rewrite Hexec.
  unfold bind, results_set, modify, ret. reflexivity.
Qed.

(** [run] when the executor returns: the [try] block, and the [catch]
    block if a listener throws in it. *)
Lemma run_try actionId params (rt : @Runtime W) action result rt1 :
  actions (manager rt) !! actionId = Some action ->
  executeAction action params rt = (Return result, rt1) ->
  run actionId params rt =
  match notifyListeners actionId result (store_result actionId result rt1) with
  | (Return _, rt') => (Return result, rt')
  | (Throw error, rt2) =>
      let result' := failed (error_message error) None in
      match notifyListeners actionId result'
              (store_result actionId result' rt2) with
      | (Return _, rt') => (Return result', rt')
      | (Throw error', rt') => (Throw error', rt')
      end
  end.
Proof.
  intros Hsome Hexec. unfold run, bind at 1, gets. rewrite Hsome.
  unfold try_catch, bind at 1. rewrite Hexec.
  unfold bind at 1, results_set, modify. unfold bind at 1.
  destruct (notifyListeners actionId result _) as [[[]|error] rt2];
    [reflexivity|].
  unfold bind, ret. reflexivity.
Qed.
Lemma quiet_new : quiet (@new W).
Proof.
  intros actionId set l result w Hset. simpl in Hset.
  rewrite lookup_empty in Hset. discriminate.
Qed.

Lemma quiet_registerAction action (m : @state W) :
  quiet m -> quiet (registerAction action m).
Proof. intros Hq actionId. exact (Hq actionId). Qed.

Lemma quiet_addListener actionId listener (m : @state W) :
  quiet m ->
  (forall result w, fst (listener_call listener result w) = Return tt) ->
  quiet (addListener actionId listener m).
Proof.
  intros Hq Hl actionId' set l result w Hset Hin.
  assert (Hold : forall s, listeners m !! actionId' = Some s -> l ∈ s ->
            fst (listener_call l result w) = Return tt)
    by (intros s; apply Hq).
  assert (Hadd : forall s : list (ActionListener W),
            (forall x, x ∈ s -> x = listener \/
                     exists s', listeners m !! actionId = Some s' /\ x ∈ s') ->
            actionId' = actionId -> l ∈ s ->
            fst (listener_call l result w) = Return tt).
  { intros s Hs -> Hls. destruct (Hs l Hls) as [->|(s' & Hs' & Hin')];
      [apply Hl|now apply (Hold s')]. }
  unfold addListener in Hset.
  destruct (listeners m !! actionId) as [s0|] eqn:E0; simpl in Hset.
  - rewrite E0 in Hset. simpl in Hset.
    destruct (decide (actionId = actionId')) as [<-|Hne].
    + rewrite lookup_insert_eq in Hset. injection Hset as <-.
      apply (Hadd (listener_set_add s0 listener)); [|reflexivity|exact Hin].
      intros x. unfold listener_set_add.
      destruct (existsb _ s0); [eauto|].
      intros [Hx|Hx%list_elem_of_singleton]%elem_of_app; eauto.
    + rewrite lookup_insert_ne in Hset by assumption. now apply (Hold set).
  - rewrite lookup_insert_eq in Hset. simpl in Hset.
    destruct (decide (actionId = actionId')) as [<-|Hne].
    + rewrite lookup_insert_eq in Hset. injection Hset as <-.
      apply elem_of_cons in Hin as [->|Hin]; [apply Hl|inversion Hin].
    + rewrite !lookup_insert_ne in Hset by assumption. now apply (Hold set).
Qed.
End ManagerFacts.

(** ** C2, C3, C4, C7: the manager *)
Section ManagerClaims.
Import ActionManager.
Context {W : Type} `{Host W}.

(** C2 (what the code does).  On an identifier without definition [run]
    hands the result [{success: false, error: "Action not found: <id>"}]
    to the listeners of the identifier and returns it (no exception if no
    listener throws), but it leaves the result map as it was: a following
    [getResult] returns what it returned before the call, which is
    nothing if the identifier was never run. *)
Theorem run_not_found_not_stored (rt : @Runtime W) (actionId : string)
    (params : option JsValue) :
  actions (manager rt) !! actionId = None ->
  let result := failed ("Action not found: " +:+ actionId) None in
  let set := default [] (listeners (manager rt) !! actionId) in
  let after := run actionId params rt in
  results (manager (snd after)) = results (manager rt)
  /\ getResult actionId (manager (snd after))
     = getResult actionId (manager rt)
  /\ (quiet_for actionId (manager rt) ->
      fst after = Return result
      /\ world (snd after) = snd (forEach_listener set result (world rt))).
Proof.
  intros Hnone result set after. subst after.
  rewrite (run_not_found actionId params rt Hnone).
  fold result. rewrite notifyListeners_spec. fold set.
  pose proof (forEach_listener_quiet set result (world rt)) as Hq.
  destruct (forEach_listener set result (world rt)) as [[[]|error] w'];
    simpl in *.
  - split; [reflexivity|]. split; [reflexivity|]. intros _.
    split; reflexivity.
  - split; [reflexivity|]. split; [reflexivity|]. intros Hquiet.
    discriminate Hq.
    intros listener w'' Hin. subst set.
    destruct (listeners (manager rt) !! actionId) as [s|] eqn:E;
      [|inversion Hin].
    now apply (Hquiet s).
Qed.

(** The outcomes of [run] on a registered action, in terms of the loop
    over the listeners. *)
Lemma run_outcomes (rt : @Runtime W)
    (actionId : string) (params : option JsValue)
    (action : ActionDefinition) :
  actions (manager rt) !! actionId = Some action ->
  let executed := executeAction action params rt in
  let set := default [] (listeners (manager rt) !! actionId) in
  let after := run actionId params rt in
  (forall error, fst executed = Throw error ->
     let result := failed (error_message error) None in
     getResult actionId (manager (snd after)) = Some result
     /\ forall error', fst after = Throw error' ->
          exists listener w,
            listener ∈ set
            /\ fst (listener_call listener result w) = Throw error')
  /\ (forall result, fst after = Return result ->
      getResult actionId (manager (snd after)) = Some result
      /\ exists w, forEach_listener set result w
                   = (Return tt, world (snd after)))
  /\ (quiet_for actionId (manager rt) ->
      exists result,
        fst after = Return result
        /\ match fst executed with
           | Return r => result = r
           | Throw error => result = failed (error_message error) None
           end
        /\ world (snd after)
           = snd (forEach_listener set result (world (snd executed)))).
Proof.
  intros Hsome executed set after.
  pose proof (executeAction_keeps_manager action params rt) as Hkeep.
  fold executed in Hkeep.
  assert (Hq : quiet_for actionId (manager rt) -> forall result w,
            fst (forEach_listener set result w) = Return tt).
  { intros Hquiet result w. apply forEach_listener_quiet.
    intros listener w' Hin. subst set.
    destruct (listeners (manager rt) !! actionId) as [s|] eqn:E;
      [|inversion Hin].
    now apply (Hquiet s). }
  destruct executed as [[r|error] rt1] eqn:Hexec; simpl in Hkeep.
  - (* the executor returns [r] *)
    assert (Hafter : after =
      match forEach_listener set r (world rt1) with
      | (Return _, w') =>
          (Return r, set_world w' (store_result actionId r rt1))
      | (Throw error, w') =>
          let result' := failed (error_message error) None in
          match forEach_listener set result' w' with
          | (Return _, w'') =>
              (Return result',
               set_world w''
                 (store_result actionId result'
                    (set_world w' (store_result actionId r rt1))))
          | (Throw error', w'') =>
              (Throw error',
               set_world w''
                 (store_result actionId result'
                    (set_world w' (store_result actionId r rt1))))
          end
      end).
    { subst after.
      rewrite (run_try actionId params rt action r rt1 Hsome Hexec).
      rewrite notifyListeners_spec. simpl. rewrite Hkeep. fold set.
      destruct (forEach_listener set r (world rt1)) as [[[]|error] w'];
        simpl; [reflexivity|].
      rewrite notifyListeners_spec. simpl. rewrite Hkeep. fold set.
      destruct (forEach_listener set _ w') as [[[]|error'] w''];
        reflexivity. }
    rewrite Hafter. clear Hafter.
    split; [discriminate|]. split.
    + intros result.
      destruct (forEach_listener set r (world rt1)) as [[[]|error] w']
        eqn:Hfirst; simpl.
      * intros [= <-]. split; [apply lookup_insert_eq|]. eauto.
      * destruct (forEach_listener set _ w') as [[[]|error'] w'']
          eqn:Hsecond; simpl; [|discriminate].
        intros [= <-]. split; [apply lookup_insert_eq|]. eauto.
    + intros Hquiet. exists r. specialize (Hq Hquiet r (world rt1)).
      simpl. destruct (forEach_listener set r (world rt1)) as [[[]|error] w'];
        simpl in *; [|discriminate].
      repeat split.
  - (* the executor throws [error] *)
    set (result := failed (error_message error) None).
    assert (Hafter : after =
      match forEach_listener set result (world rt1) with
      | (Return _, w') =>
          (Return result, set_world w' (store_result actionId result rt1))
      | (Throw error', w') =>
          (Throw error', set_world w' (store_result actionId result rt1))
      end).
    { subst after.
      rewrite (run_catch actionId params rt action error rt1 Hsome Hexec).
      fold result. rewrite notifyListeners_spec. simpl. rewrite Hkeep.
      fold set.
      destruct (forEach_listener set result (world rt1)) as [[[]|e] w'];
        reflexivity. }
    rewrite Hafter. clear Hafter.
    split; [|split].
    + intros error0 [= <-]. fold result.
      destruct (forEach_listener set result (world rt1)) as [[[]|error'] w']
        eqn:Hnotify; simpl.
      * split; [apply lookup_insert_eq|]. discriminate.
      * split; [apply lookup_insert_eq|]. intros e [= <-].
        apply (forEach_listener_throw set result (world rt1)).
        now rewrite Hnotify.
    + intros result0.
      destruct (forEach_listener set result (world rt1)) as [[[]|error'] w']
        eqn:Hnotify; simpl; [|discriminate].
      intros [= <-]. split; [apply lookup_insert_eq|]. eauto.
    + intros Hquiet. exists result.
      specialize (Hq Hquiet result (world rt1)).
      simpl. destruct (forEach_listener set result (world rt1)) as [[[]|e] w'];
        simpl in *; [|discriminate].
      repeat split.
Qed.

(** The loop over the listeners returns exactly when each listener,
    in order, has been called and has returned. *)
Lemma forEach_listener_notified (set : list (ActionListener W))
    (result : ActionResult) :
  forall w w',
    forEach_listener set result w = (Return tt, w')
    <-> notified result set w w'.
Proof.
  induction set as [|listener set IH]; intros w w'; simpl.
  - unfold ret. split.
    + intros [= <-]. constructor.
    + intros Hn. inversion Hn. reflexivity.
  - unfold bind at 1. split.
    + destruct (listener_call listener result w) as [[[]|error] w1] eqn:Hcall;
        [|discriminate].
      intros Hrest. apply (notified_cons result listener set w w1 w' Hcall).
      now apply IH.
    + intros Hn. inversion Hn as [|? ? ? w1 ? Hcall Hrest]; subst.
      rewrite Hcall. now apply IH.
Qed.

(** C3.  For a registered action, an error thrown by the executor does
    not leave [run]: it is turned into [{success: false, error: message}],
    which is stored as the last result of the action before the
    listeners are called, so it is stored whatever they do; an exception
    that leaves [run] was thrown by a listener that was called with that
    result.  Whenever [run] returns a result, that result is the stored
    one and the last thing [run] did was to call every listener of the
    identifier with it, one after the other in the order of
    registration, each call starting on the host as the previous one
    left it.  When no listener of the identifier throws, [run] returns:
    the result is the executor's, or the normalized failure if the
    executor threw, and the listeners were called with it on the host as
    the executor left it. *)
Theorem run_normalizes_executor_failure (rt : @Runtime W)
    (actionId : string) (params : option JsValue)
    (action : ActionDefinition) :
  actions (manager rt) !! actionId = Some action ->
  let executed := executeAction action params rt in
  let set := default [] (listeners (manager rt) !! actionId) in
  let after := run actionId params rt in
  (forall thrown, fst executed = Throw thrown ->
     let result :=
       {| success := false; data := None;
          error := Some (error_message thrown) |} in
     getResult actionId (manager (snd after)) = Some result
     /\ forall error', fst after = Throw error' ->
          exists listener w,
            listener ∈ set
            /\ fst (listener_call listener result w) = Throw error')
  /\ (forall result, fst after = Return result ->
      getResult actionId (manager (snd after)) = Some result
      /\ exists w, notified result set w (world (snd after)))
  /\ (quiet_for actionId (manager rt) ->
      exists result,
        fst after = Return result
        /\ match fst executed with
           | Return r => result = r
           | Throw thrown =>
               result = {| success := false; data := None;
                           error := Some (error_message thrown) |}
           end
        /\ notified result set (world (snd executed))
             (world (snd after))).
Proof.
  intros Hsome executed set after.
  destruct (run_outcomes rt actionId params action Hsome)
    as (Hthrow & Hreturn & Hquiet).
  fold executed set after in Hthrow, Hreturn, Hquiet.
  split; [|split].
  - intros thrown Hexec. exact (Hthrow thrown Hexec).
  - intros result Hafter.
    destruct (Hreturn result Hafter) as (Hget & w & Hloop).
    split; [exact Hget|]. exists w.
    now apply forEach_listener_notified.
  - intros Hq. destruct (Hquiet Hq) as (result & Hafter & Hres & Hworld).
    exists result. split; [exact Hafter|]. split; [exact Hres|].
    destruct (Hreturn result Hafter) as (_ & w & Hloop).
    apply forEach_listener_notified.
    assert (Hfst : fst (forEach_listener set result (world (snd executed)))
                   = Return tt).
    { apply forEach_listener_quiet. intros listener w' Hin. subst set.
      destruct (listeners (manager rt) !! actionId) as [s|] eqn:E;
        [|inversion Hin].
      now apply (Hq s). }
    rewrite Hworld.
    destruct (forEach_listener set result (world (snd executed)))
      as [[[]|e] w'']; [reflexivity|discriminate].
Qed.

(** When its listeners do not throw, [run] returns, and it leaves the
    listener registry as it was. *)
Lemma run_returns (rt : @Runtime W) actionId params :
  quiet_for actionId (manager rt) ->
  exists result rt',
    run actionId params rt = (Return result, rt')
    /\ listeners (manager rt') = listeners (manager rt).
Proof.
  intros Hquiet.
  assert (Hq : forall result w,
            fst (forEach_listener
                   (default [] (listeners (manager rt) !! actionId))
                   result w) = Return tt).
  { intros result w. apply forEach_listener_quiet. intros l w' Hin.
    destruct (listeners (manager rt) !! actionId) as [s|] eqn:E;
      [|inversion Hin].
    now apply (Hquiet s). }
  destruct (actions (manager rt) !! actionId) as [action|] eqn:Hact.
  - pose proof (executeAction_keeps_manager action params rt) as Hkeep.
    destruct (executeAction action params rt) as [[r|error] rt1] eqn:Hexec;
      simpl in Hkeep.
    + rewrite (run_try actionId params rt action r rt1 Hact Hexec).
      rewrite notifyListeners_spec. simpl. rewrite Hkeep.
      specialize (Hq r (world rt1)).
      destruct (forEach_listener _ r (world rt1)) as [[[]|e] w'];
        simpl in *; [|discriminate].
      eexists _, _. split; [reflexivity|]. simpl. now rewrite Hkeep.
    + rewrite (run_catch actionId params rt action error rt1 Hact Hexec).
      rewrite notifyListeners_spec. simpl. rewrite Hkeep.
      specialize (Hq (failed (error_message error) None) (world rt1)).
      destruct (forEach_listener _ _ (world rt1)) as [[[]|e] w'];
        simpl in *; [|discriminate].
      eexists _, _. split; [reflexivity|]. simpl. now rewrite Hkeep.
  - rewrite (run_not_found actionId params rt Hact).
    rewrite notifyListeners_spec.
    specialize (Hq (failed ("Action not found: " +:+ actionId) None)
                   (world rt)).
    destruct (forEach_listener _ _ (world rt)) as [[[]|e] w'];
      simpl in *; [|discriminate].
    eexists _, _. split; reflexivity.
Qed.

Lemma chain_loop_spec actionIds params :
  forall (rt : @Runtime W) acc,
    exists done rest,
      actionIds = done ++ rest
      /\ chain_loop actionIds params acc rt
         = (match run_each done params rt with
            | (Return results, rt') => (Return (acc ++ results), rt')
            | (Throw error, rt') => (Throw error, rt')
            end)
      /\ forall results rt',
           run_each done params rt = (Return results, rt') ->
           chain_results done rest results.
Proof.
  induction actionIds as [|actionId ids IH]; intros rt acc.
  - exists [], []. split; [reflexivity|]. split.
    + simpl. unfold ret. now rewrite app_nil_r.
    + intros results rt' [= <- <-]. split; [reflexivity|]. split.
      * intros i r Hi. inversion Hi.
      * left. split; [reflexivity|]. intros r Hr. inversion Hr.
  - destruct (run actionId params rt) as [[r|error] rt1] eqn:Hrun.
    + destruct (success r) eqn:Hs.
      * destruct (IH rt1 (acc ++ [r])) as (done & rest & -> & Hchain & Hres).
        exists (actionId :: done), rest. split; [reflexivity|]. split.
        -- simpl. unfold bind at 1. rewrite Hrun, Hs. simpl.
           rewrite Hchain. unfold bind at 1. rewrite Hrun.
           unfold bind at 1.
           destruct (run_each done params rt1) as [[results|error] rt'];
             [|reflexivity].
           unfold ret. now rewrite <- app_assoc.
        -- intros results rt'. simpl. unfold bind at 1. rewrite Hrun.
           unfold bind at 1.
           destruct (run_each done params rt1) as [[results'|error] rt'']
             eqn:Heach; [|discriminate].
           intros [= <- <-].
           destruct (Hres results' rt'' eq_refl) as (Hlen & Hinit & Hlast).
           split; [simpl; now rewrite Hlen|]. split.
           ++ intros [|i] r' Hi Hlt; simpl in *.
              ** now injection Hi as <-.
              ** apply (Hinit i r' Hi). lia.
           ++ destruct Hlast as [[-> Hall]|(r' & Hr' & Hf)].
              ** left. split; [reflexivity|].
                 intros r' [->|Hin]%elem_of_cons;
                   [assumption|now apply Hall].
              ** right. exists r'. split; [|assumption].
                 destruct results' as [|r0 results']; [discriminate|].
                 exact Hr'.
      * exists [actionId], ids. split; [reflexivity|]. split.
        -- simpl. unfold bind at 1. rewrite Hrun, Hs. simpl.
           unfold bind at 1. rewrite Hrun. reflexivity.
        -- intros results rt'. simpl. unfold bind at 1. rewrite Hrun.
           intros [= <- <-]. split; [reflexivity|]. split.
           ++ intros [|i] r' Hi Hlt; simpl in *; [lia|inversion Hi].
           ++ right. exists r. split; [reflexivity|assumption].
    + exists [actionId], ids. split; [reflexivity|]. split.
      * simpl. unfold bind at 1. rewrite Hrun.
        unfold bind at 1. rewrite Hrun. reflexivity.
      * intros results rt'. simpl. unfold bind at 1. rewrite Hrun.
        discriminate.
Qed.

Lemma run_each_returns actionIds params :
  forall rt : @Runtime W,
    quiet (manager rt) ->
    exists results rt', run_each actionIds params rt = (Return results, rt').
Proof.
  induction actionIds as [|actionId ids IH]; intros rt Hquiet; simpl.
  - eexists _, _. reflexivity.
  - destruct (run_returns rt actionId params (Hquiet actionId))
      as (r & rt1 & Hrun & Hl).
    unfold bind at 1. rewrite Hrun.
    assert (Hquiet1 : quiet (manager rt1)).
    { intros a set l res w. rewrite Hl. apply Hquiet. }
    destruct (IH rt1 Hquiet1) as (results & rt' & Heach).
    unfold bind at 1. rewrite Heach. eexists _, _. reflexivity.
Qed.

(** C4.  [runActionChain] does what running a prefix [done] of the
    identifiers one after the other does, each [run] starting from the
    state the previous one left and the results collected in order: the
    identifiers after [done] are not run.  When that returns, there is one
    result for each identifier of [done], every result but the last is a
    success, and either the whole list was run and all results are
    successes, or the last result is a failure.  It returns whenever no
    listener throws. *)
Theorem runActionChain_stops_at_first_failure (rt : @Runtime W)
    (actionIds : list string) (params : option JsValue) :
  exists done rest,
    actionIds = done ++ rest
    /\ runActionChain actionIds params rt = run_each done params rt
    /\ (forall results rt',
          run_each done params rt = (Return results, rt') ->
          chain_results done rest results)
    /\ (quiet (manager rt) ->
        exists results rt',
          runActionChain actionIds params rt = (Return results, rt')).
Proof.
  unfold runActionChain.
  destruct (chain_loop_spec actionIds params rt [])
    as (done & rest & Hsplit & Hchain & Hres).
  assert (Heq : chain_loop actionIds params [] rt = run_each done params rt).
  { rewrite Hchain.
    destruct (run_each done params rt) as [[results|error] rt'];
      reflexivity. }
  exists done, rest. split; [assumption|]. split; [assumption|].
  split; [assumption|].
  intros Hquiet. rewrite Heq. now apply run_each_returns.
Qed.
End ManagerClaims.

Section WidgetUpdateClaim.
Import ActionManager.
Context {W : Type} `{Host W}.

(** C7 (what the code does).  [executeUpdateWidgetAction] gives the
    whole field text, braces included, to [evaluate].  Whenever the
    JavaScript engine rejects the text [{{ widgets.input1.value }}] as an
    expression (in ECMAScript it is a syntax error: after the opening
    parenthesis the first brace opens an object literal, in which a second
    brace cannot start a property), [evaluate] returns [undefined]: with
    [widgets.input1.value = "Hi"] the widget-update callback receives
    widget id ["w1"] and updates [{label: undefined}], not
    [{label: "Hi"}], and the action result is a success carrying the same
    updates. *)
Theorem updateWidget_marker_not_resolved (w : W)
    (callback : JsValue -> JsValue -> Eff W unit)
    (syntax_error : JsThrown) (w2 : W) :
  js_compile "{{ widgets.input1.value }}" = Some syntax_error ->
  let rt :=
    {| manager := onWidgetUpdate callback (registerAction label_action new);
       expressionEngine := updateContext (input1_is "Hi") new_ExpressionEngine;
       world := w |} in
  let w1 :=
    console_warn "Expression evaluation error:"
      (JsString "{{ widgets.input1.value }}") syntax_error w in
  callback (JsString "w1") (JsObject [("label", JsUndefined)]) w1
  = (Return tt, w2) ->
  let after := run "setLabel" None rt in
  fst after
  = Return (succeed (Some (JsObject [("widgetId", JsString "w1");
                                     ("updates",
                                      JsObject [("label", JsUndefined)])])))
  /\ world (snd after) = w2.
Proof.
  intros Hcomp rt w1 Hcb after.
  assert (Hexec : executeAction label_action None rt
          = (Return (succeed (Some (JsObject
                       [("widgetId", JsString "w1");
                        ("updates", JsObject [("label", JsUndefined)])]))),
             set_world w2 rt)).
  { assert (Hengine :
      evaluate_updates [("label", JsString "{{ widgets.input1.value }}")] []
        (expressionEngine rt, w)
      = (Return [("label", JsUndefined)], (expressionEngine rt, w1))).
    { cbn [evaluate_updates]. unfold bind at 1.
      change (hasExpression "{{ widgets.input1.value }}") with true.
      cbv iota.
      rewrite (evaluate_rejected "{{ widgets.input1.value }}" false
                 (expressionEngine rt) w syntax_error);
        [reflexivity|discriminate|apply lookup_empty|].
      right. split; [reflexivity|exact Hcomp]. }
    unfold executeAction, executeUpdateWidgetAction. simpl.
    unfold bind at 1, of_outcome. unfold bind at 1.
    unfold on_engine at 1, zoom.
    change (expressionEngine rt, world rt) with (expressionEngine rt, w).
    rewrite Hengine.
    unfold bind at 1, gets. cbn [manager rt widgetUpdateCallback onWidgetUpdate].
    unfold bind at 1, on_world, zoom. cbn [world].
    rewrite Hcb. reflexivity. }
  subst after.
  rewrite (run_try "setLabel" None rt label_action _ _ eq_refl Hexec).
  rewrite notifyListeners_spec. split; reflexivity.
Qed.
End WidgetUpdateClaim.

(** *** The manager claims on the test host *)
Section ManagerWitnesses.
Import ActionManager.
#[local] Existing Instance TestHost.host.

Lemma test_listener_quiet ref result w :
  fst (listener_call (TestHost.listener ref) result w) = Return tt.
Proof. reflexivity. Qed.

Lemma test_manager_quiet : quiet TestHost.test_manager.
Proof.
  unfold TestHost.test_manager.
  repeat first
    [ apply quiet_addListener; [|apply test_listener_quiet]
    | apply quiet_registerAction
    | apply quiet_new ].
Qed.

Example run_ghost_ex :
  fst (run "ghost" None TestHost.test_runtime)
  = Return (failed "Action not found: ghost" None)
  /\ TestHost.trace (world (snd (run "ghost" None TestHost.test_runtime)))
     = [("listener",
         JsObject [("ref", JsNumber 3); ("success", JsBool false);
                   ("error", JsString "Action not found: ghost")])]
  /\ getResult "ghost" (manager (snd (run "ghost" None TestHost.test_runtime))) = None.
Proof. repeat split. Qed.

Lemma run_not_found_not_stored_witness :
  actions (manager TestHost.test_runtime) !! "ghost" = None
  /\ fst (run "ghost" None TestHost.test_runtime)
     = Return (failed "Action not found: ghost" None)
  /\ getResult "ghost" (manager (snd (run "ghost" None TestHost.test_runtime)))
     = getResult "ghost" (manager TestHost.test_runtime).
Proof.
  split; [reflexivity|].
  destruct (run_not_found_not_stored TestHost.test_runtime "ghost" None eq_refl)
    as (_ & Hget & Hquiet).
  split; [|exact Hget].
  exact (proj1 (Hquiet (test_manager_quiet "ghost"))).
Defined.

Example run_purge_ex :
  fst (run "purge" None TestHost.test_runtime)
  = Return (failed "Unknown localStorage operation: purge" None)
  /\ TestHost.trace (world (snd (run "purge" None TestHost.test_runtime)))
     = [("listener",
         JsObject [("ref", JsNumber 1); ("success", JsBool false);
                   ("error",
                    JsString "Unknown localStorage operation: purge")]);
        ("listener",
         JsObject [("ref", JsNumber 2); ("success", JsBool false);
                   ("error",
                    JsString "Unknown localStorage operation: purge")])]
  /\ getResult "purge" (manager (snd (run "purge" None TestHost.test_runtime)))
     = Some (failed "Unknown localStorage operation: purge" None).
Proof. repeat split. Qed.

Lemma run_normalizes_executor_failure_witness :
  let after := run "purge" None TestHost.test_runtime in
  let result :=
    {| success := false; data := None;
       error := Some "Unknown localStorage operation: purge" |} in
  actions (manager TestHost.test_runtime) !! "purge"
  = Some TestHost.purge_action
  /\ getResult "purge" (manager (snd after)) = Some result
  /\ fst after = Return result
  /\ notified result [TestHost.listener 1; TestHost.listener 2]
       TestHost.start (world (snd after)).
Proof.
  intros after result.
  split; [reflexivity|].
  destruct (run_normalizes_executor_failure TestHost.test_runtime "purge" None
              TestHost.purge_action eq_refl) as (Hthrow & _ & Hquiet).
  split.
  - exact (proj1 (Hthrow
             (JsError "Unknown localStorage operation: purge") eq_refl)).
  - destruct (Hquiet (test_manager_quiet "purge"))
      as (result' & Hfst & Hres & Hnotified).
    cbv zeta in Hres. simpl in Hres. subst result'.
    split; [exact Hfst|exact Hnotified].
Defined.

Example runActionChain_ex :
  fst (runActionChain ["open"; "purge"; "hello"] None TestHost.test_runtime)
  = Return [succeed (Some (JsObject [("modalId", JsString "m1");
                                     ("action", JsString "open")]));
            failed "Unknown localStorage operation: purge" None]
  /\ filter (fun entry => String.eqb (fst entry) "alert")
       (TestHost.trace
          (world (snd (runActionChain ["open"; "purge"; "hello"] None
                         TestHost.test_runtime))))
     = []
  /\ TestHost.trace (world (snd (run "hello" None TestHost.test_runtime)))
     = [("alert", JsString "hello")].
Proof. repeat split. Qed.

Lemma runActionChain_stops_at_first_failure_witness :
  quiet (manager TestHost.test_runtime)
  /\ exists done rest results rt',
       ["open"; "purge"; "hello"] = done ++ rest
       /\ runActionChain ["open"; "purge"; "hello"] None TestHost.test_runtime
          = (Return results, rt')
       /\ run_each done None TestHost.test_runtime = (Return results, rt')
       /\ chain_results done rest results.
Proof.
  split; [exact test_manager_quiet|].
  destruct (runActionChain_stops_at_first_failure TestHost.test_runtime
              ["open"; "purge"; "hello"] None)
    as (done & rest & Hsplit & Hchain & Hres & Hquiet).
  destruct (Hquiet test_manager_quiet) as (results & rt' & Hret).
  exists done, rest, results, rt'.
  split; [assumption|]. split; [assumption|].
  rewrite Hchain in Hret. split; [assumption|]. now apply (Hres results rt').
Defined.

Example updateWidget_ex :
  fst (evaluate "widgets.input1.value" false
         (expressionEngine TestHost.label_runtime, TestHost.start))
  = Return (JsString "Hi")
  /\ fst (run "setLabel" None TestHost.label_runtime)
     = Return (succeed (Some (JsObject
                 [("widgetId", JsString "w1");
                  ("updates", JsObject [("label", JsUndefined)])])))
  /\ TestHost.trace (world (snd (run "setLabel" None TestHost.label_runtime)))
     = [("console.warn", JsString "Unexpected token");
        ("widgetUpdate",
         JsObject [("widgetId", JsString "w1");
                   ("updates", JsObject [("label", JsUndefined)])])].
Proof. repeat split. Qed.

Lemma updateWidget_marker_not_resolved_witness :
  js_compile "{{ widgets.input1.value }}" = Some (JsError "Unexpected token")
  /\ fst (run "setLabel" None TestHost.label_runtime)
     = Return (succeed (Some (JsObject
                 [("widgetId", JsString "w1");
                  ("updates", JsObject [("label", JsUndefined)])]))).
Proof.
  split; [reflexivity|].
  exact (proj1 (updateWidget_marker_not_resolved TestHost.start
                  TestHost.widget_sink (JsError "Unexpected token") _
                  eq_refl eq_refl)).
Defined.
End ManagerWitnesses.

(** * Further properties of the engine *)

Lemma replace_all_step {S : Type} here here_shorter
    (replacer : chars -> Eff S chars) s st :
  replace_all here here_shorter replacer s st =
  match exec here s with
  | Some (before, g, rest) =>
      match replacer g st with
      | (Return r, st1) =>
          match replace_all here here_shorter replacer rest st1 with
          | (Return out, st2) => (Return (before ++ r ++ out), st2)
          | (Throw error, st2) => (Throw error, st2)
          end
      | (Throw error, st1) => (Throw error, st1)
      end
  | None => (Return s, st)
  end.
Proof.
  revert st.
  funelim (replace_all here here_shorter replacer s); intros st;
    match goal with E : exec here _ = _ |- _ => rewrite E end; reflexivity.
Qed.

Lemma try_catch_returns {S A : Type} (m : Eff S A) handler st :
  (forall error st', exists a, fst (handler error st') = Return a) ->
  exists a, fst (try_catch m handler st) = Return a.
Proof.
  intros Hh. unfold try_catch.
  destruct (m st) as [[a|error] st']; [eauto|apply Hh].
Qed.

(** A keyword of one character is included exactly when the character
    occurs. *)
Lemma includes_chars_single s c :
  includes_chars s [c] = false -> Forall (fun x => x <> c) s.
Proof.
  induction s as [|x s IH]; simpl; [constructor|].
  destruct (Ascii.eqb_spec c x) as [->|Hne]; [discriminate|].
  intros Hs. constructor; [congruence|now apply IH].
Qed.

(** The marker pattern matches nowhere inside a text without opening
    brace, so the search skips it. *)
Lemma exec_marker_skip before m g rest :
  Forall (fun x => x <> "{"%char) before ->
  marker_here m = Some (g, rest) ->
  exec marker_here (before ++ m) = Some (before, g, rest).
Proof.
  intros Hb Hm. induction Hb as [|c before Hc _ IH]; cbn [app exec].
  - destruct m; cbn [exec]; now rewrite Hm.
  - rewrite IH.
    assert (Hnone : marker_here (c :: before ++ m) = None).
    { unfold marker_here. cbn [strip_prefix].
      destruct (Ascii.eqb_spec "{"%char c) as [<-|_]; [contradiction|].
      reflexivity. }
    now rewrite Hnone.
Qed.

Lemma find_first {A} (f : A -> bool) (l : list A) x :
  find f l = Some x ->
  exists i, l !! i = Some x /\ f x = true
            /\ forall j y, j < i -> l !! j = Some y -> f y = false.
Proof.
  induction l as [|a l IH]; simpl; [discriminate|].
  destruct (f a) eqn:Ea.
  - intros [= <-]. exists 0. repeat split; [assumption|]. intros j y Hj. lia.
  - intros (i & Hi & Hx & Hfirst)%IH. exists (S i). repeat split; try assumption.
    intros [|j] y Hj; simpl.
    + now intros [= <-].
    + apply Hfirst. lia.
Qed.

Lemma truthy_string s : s <> "" -> truthy (JsString s) = true.
Proof. intros Hne. simpl. now destruct (String.eqb_spec s ""). Qed.

Section EngineExtras.
Context {W : Type} `{Host W}.

Lemma evaluate_default_returns e (st : EngineState) :
  exists v, fst (evaluate e false st) = Return v.
Proof.
  destruct st as [this w]. unfold evaluate.
  destruct (String.eqb e ""); [eexists; reflexivity|].
  unfold bind at 1, gets.
  destruct (cache this !! e); [eexists; reflexivity|].
  apply try_catch_returns. intros error st'. eexists. reflexivity.
Qed.



(** X2. A text without marker is returned by [evaluateTemplate] as it
    is, with either flag: nothing is evaluated, and the engine and the
    host are left as they were. *)
Theorem evaluateTemplate_without_marker (text : string) (t : bool)
    (st : EngineState) :
  hasExpression text = false ->
  evaluateTemplate (JsString text) t st = (Return (JsString text), st).
Proof.
  intros Hno. unfold evaluateTemplate.
  destruct (String.eqb_spec text "") as [->|Hne]; [reflexivity|].
  rewrite (truthy_string _ Hne). cbn [negb].
  unfold try_catch, bind. rewrite replace_all_step.
  unfold hasExpression in Hno.
  destruct (exec marker_here (chars_of text)) as [[[b g] r]|];
    [discriminate|].
  unfold ret. now rewrite text_of_chars_of.
Qed.

Lemma replace_all_single (replacer : chars -> Eff (@EngineState W) chars)
    before g after (st : @EngineState W) :
  Forall (fun x => x <> "{"%char) before ->
  g <> [] -> forallb not_close g = true ->
  exec marker_here after = None ->
  replace_all marker_here marker_here_shorter replacer
    (before ++ ["{"; "{"]%char ++ g ++ ["}"; "}"]%char ++ after) st =
  match replacer g st return Outcome chars * @EngineState W with
  | (Return r, st1) => (Return (before ++ r ++ after), st1)
  | (Throw error, st1) => (Throw error, st1)
  end.
Proof.
  intros Hb Hg Hclose Hafter. rewrite replace_all_step.
  rewrite (exec_marker_skip before _ g after Hb);
    [|apply marker_here_spec; repeat split; assumption].
  destruct (replacer g st) as [[r|error] st1]; [|reflexivity].
  rewrite replace_all_step, Hafter. reflexivity.
Qed.

(** X3. A template with one marker, [before{{inner}}after], where
    [before] holds no opening brace, [inner] is not empty and holds no
    closing brace, and [after] holds no marker: [evaluateTemplate]
    evaluates the trimmed [inner] once, with the flag it was given, and
    returns [before], the value as a string and [after], joined;
    [undefined] and [null] give the empty string.  The state is the one
    that evaluation left. *)
Theorem evaluateTemplate_single_marker (before inner after : string)
    (t : bool) (st st1 : EngineState) (v : JsValue) (s : string) :
  includes before "{" = false ->
  inner <> "" ->
  includes inner "}" = false ->
  hasExpression after = false ->
  evaluate (trim inner) t st = (Return v, st1) ->
  match v with
  | JsUndefined | JsNull => s = ""
  | _ => to_String v = Return s
  end ->
  evaluateTemplate
    (JsString (before +:+ "{{" +:+ inner +:+ "}}" +:+ after)) t st
  = (Return (JsString (before +:+ s +:+ after)), st1).
Proof.
  intros Hb Hne Hi Ha Hev Hs.
  assert (Hchars :
    chars_of (before +:+ "{{" +:+ inner +:+ "}}" +:+ after)
    = chars_of before ++ ["{"; "{"]%char ++ chars_of inner
        ++ ["}"; "}"]%char ++ chars_of after).
  { now rewrite !chars_of_app. }
  unfold evaluateTemplate. rewrite truthy_string.
  2:{ intros E. apply (f_equal chars_of) in E. rewrite Hchars in E.
      destruct (chars_of before); discriminate. }
  cbn [negb]. unfold try_catch, bind at 1. rewrite Hchars.
  rewrite replace_all_single.
  - unfold template_replacer, bind at 1. fold (trim inner). rewrite Hev.
    assert (Hout :
      (match v with
       | JsUndefined | JsNull => ret []
       | _ => text <- of_outcome (to_String v) ;; ret (chars_of text)
       end) st1 = (Return (chars_of s), st1)).
    { destruct v; subst; try reflexivity;
        unfold bind, of_outcome; rewrite Hs; reflexivity. }
    rewrite Hout. unfold ret.
    now rewrite !text_of_app, !text_of_chars_of.
  - now apply includes_chars_single.
  - intros E. apply Hne, chars_of_inj. now rewrite E.
  - apply includes_chars_single in Hi.
    apply forallb_forall. intros c Hc.
    rewrite Forall_forall in Hi. unfold not_close.
    destruct (Ascii.eqb_spec c "}"%char) as [->|]; [|reflexivity].
    exfalso. apply (Hi "}"%char); [now apply list_elem_of_In|reflexivity].
  - unfold hasExpression in Ha.
    destruct (exec marker_here (chars_of after)); [discriminate|reflexivity].
Qed.

Lemma template_replacer_default g (st : EngineState) :
  (forall v, exists s, js_String v = Return s) ->
  exists r,
    template_replacer false g st
    = (Return r, snd (evaluate (text_of (trim_chars g)) false st)).
Proof.
  intros Hstring. unfold template_replacer, bind at 1.
  destruct (evaluate_default_returns (text_of (trim_chars g)) st) as [v Hv].
  destruct (evaluate _ false st) as [[v'|error] st1]; simpl in Hv;
    [|discriminate].
  destruct v' as [| |[]|n| |items|props|name];
    try (eexists; reflexivity);
    unfold bind, of_outcome; cbn [to_String];
    try destruct (safe_integer n);
    try (eexists; reflexivity);
    match goal with |- context [js_String ?x] =>
      destruct (Hstring x) as [s ->] end;
    eexists; reflexivity.
Qed.

Lemma replace_all_default_state s :
  (forall v, exists t, js_String v = Return t) ->
  forall st : EngineState,
  exists out,
    replace_all marker_here marker_here_shorter (template_replacer false) s st
    = (Return out,
       later (map (fun g => Evaluate (text_of (trim_chars g)) false)
                (exec_all marker_here marker_here_shorter s)) st).
Proof.
  intros Hstring.
  induction s as [s IH] using (induction_ltof1 _ (@length ascii)).
  unfold ltof in IH. intros st.
  rewrite replace_all_step, exec_all_step.
  destruct (exec marker_here s) as [[[before g] rest]|] eqn:E;
    [|eexists; reflexivity].
  destruct (template_replacer_default g st Hstring) as [r ->].
  apply exec_shorter in E; [|apply marker_here_shorter].
  destruct (IH rest E (snd (evaluate (text_of (trim_chars g)) false st)))
    as [out ->].
  eexists. reflexivity.
Qed.

(** X4. [extractExpressions] lists what [evaluateTemplate] evaluates:
    when the host's [String] conversion does not throw, evaluating a
    template with [throwOnError = false] leaves the engine and the host in
    the state that evaluating the elements of [extractExpressions], one
    after the other in the order of the list, leaves them in. *)
Theorem evaluateTemplate_evaluates_extractExpressions (text : string)
    (st : EngineState) :
  (forall v, exists s, js_String v = Return s) ->
  snd (evaluateTemplate (JsString text) false st)
  = later (map (fun e => Evaluate e false) (extractExpressions text)) st.
Proof.
  intros Hstring. unfold evaluateTemplate, extractExpressions.
  rewrite map_map.
  destruct (String.eqb_spec text "") as [->|Hne].
  { simpl. rewrite exec_all_step. reflexivity. }
  rewrite (truthy_string _ Hne). cbn [negb]. unfold try_catch, bind.
  destruct (replace_all_default_state (chars_of text) Hstring st) as [out ->].
  reflexivity.
Qed.

(** X5. [validateExpression] never throws, and it rejects an expression
    that contains a denylisted substring in every state of the engine,
    reachable or not, since it calls the sanitizer itself before
    [evaluate] can look at the cache: the verdict is
    [{valid: false, error: "Forbidden keyword in expression: <keyword>"}]
    and nothing changes. *)
Theorem validateExpression_forbidden (st : EngineState)
    (expression kw : string) :
  kw ∈ forbidden ->
  includes expression kw = true ->
  (forall e, exists verdict, fst (validateExpression e st) = Return verdict)
  /\ exists keyword,
       keyword ∈ forbidden /\ includes expression keyword = true
       /\ validateExpression expression st
          = (Return (false,
                     Some ("Forbidden keyword in expression: " +:+ keyword)),
             st).
Proof.
  intros Hkw Hinc. split.
  - intros e. apply try_catch_returns. intros error st'. eexists. reflexivity.
  - destruct (sanitizeExpression_forbidden _ _ Hkw Hinc) as [error Hs].
    destruct (sanitizeExpression_Throw _ _ Hs) as (keyword & Hk & Hik & ->).
    exists keyword. split; [assumption|]. split; [assumption|].
    unfold validateExpression, try_catch, bind at 1, of_outcome.
    rewrite Hs. reflexivity.
Qed.



(** X7. The sanitizer is a case-sensitive substring test: an expression
    is accepted, and returned unchanged, exactly when it includes none of
    the thirteen denylisted strings; when it is refused, the keyword in
    the message is the first one, in the order of the denylist, that the
    expression includes. *)
Theorem sanitizeExpression_denylist (expression : string) :
  (sanitizeExpression expression = Return expression
   <-> forall kw, kw ∈ forbidden -> includes expression kw = false)
  /\ (forall error, sanitizeExpression expression = Throw error ->
        exists i kw,
          forbidden !! i = Some kw /\ includes expression kw = true
          /\ error = JsError ("Forbidden keyword in expression: " +:+ kw)
          /\ forall j kw', j < i -> forbidden !! j = Some kw' ->
                           includes expression kw' = false).
Proof.
  unfold sanitizeExpression. split.
  - destruct (find _ forbidden) as [keyword|] eqn:E; split.
    + discriminate.
    + intros Hall. apply find_some in E as [Hin Hinc].
      rewrite Hall in Hinc; [discriminate|now apply list_elem_of_In].
    + intros _ kw Hkw. apply list_elem_of_In in Hkw.
      exact (find_none _ _ E kw Hkw).
    + reflexivity.
  - intros error.
    destruct (find _ forbidden) as [keyword|] eqn:E; [|discriminate].
    intros [= <-].
    destruct (find_first _ _ _ E) as (i & Hi & Hinc & Hfirst).
    exists i, keyword. repeat split; assumption.
Qed.
End EngineExtras.

Section EngineInvariant.
Context {W : Type} `{Host W}.

(** What one call of [evaluate] can do to the cache, with the entry it
    inserts. *)
Lemma evaluate_cache_entry e t (this : ExpressionEngine) (w : W) :
  let this' := fst (snd (evaluate e t (this, w))) in
  cache this' = cache this
  \/ (e <> "" /\ sanitizeExpression e = Return e
      /\ exists v,
           cache this' = <[e := {| value := v; deps := [] |}]> (cache this)).
Proof.
  destruct (String.eqb_spec e "") as [->|Hne]; [now left|].
  destruct (cache this !! e) as [entry|] eqn:Hc.
  { rewrite (evaluate_hit _ _ _ _ _ Hne Hc). now left. }
  destruct (sanitizeExpression e) as [e'|error] eqn:Hs.
  2:{ rewrite (evaluate_rejected e t this w error Hne Hc (or_introl Hs)).
      destruct t; now left. }
  pose proof (sanitizeExpression_Return _ _ Hs) as ->.
  destruct (js_compile e) as [error|] eqn:Hcomp.
  { rewrite (evaluate_rejected e t this w error Hne Hc
               (or_intror (conj Hs Hcomp))).
    destruct t; now left. }
  destruct (js_run e (context this, w)) as [[v|error] [ctx1 w1]] eqn:Hrun.
  - rewrite (evaluate_value _ t _ _ _ _ _ Hne Hc Hs Hcomp Hrun).
    right. simpl. eauto 10.
  - rewrite (evaluate_raise _ t _ _ _ _ _ Hne Hc Hs Hcomp Hrun).
    destruct t; [now left|].
    destruct (js_uncaught e (context this, w)); [now left|].
    right. simpl. eauto 10.
Qed.

(** X8. An invariant of the cache, in every state the engine can reach:
    a key is never the empty text and has passed the sanitizer, and the
    dependency set stored with a value is always empty ([evaluate] never
    fills it, and never calls [getDependencies]). *)
Theorem cache_entries_invariant (st : EngineState) (k : string)
    (entry : CacheEntry) :
  reachable st ->
  cache (fst st) !! k = Some entry ->
  k <> "" /\ sanitizeExpression k = Return k /\ deps entry = [].
Proof.
  intros Hr. revert k entry.
  induction Hr as [w|this w ctx' w' _ IH|p this w _ IH|this w _ IH
                  |e t [this w] _ IH]; intros k entry; simpl.
  - rewrite lookup_empty. discriminate.
  - apply IH.
  - rewrite lookup_empty. discriminate.
  - rewrite lookup_empty. discriminate.
  - destruct (evaluate_cache_entry e t this w) as [->|(Hne & Hs & v & ->)].
    + apply IH.
    + destruct (decide (e = k)) as [<-|Hnek].
      * rewrite lookup_insert_eq. intros [= <-]. repeat split; assumption.
      * rewrite lookup_insert_ne by assumption. apply IH.
Qed.
End EngineInvariant.

(** *** The further engine properties on the test host *)
Section EngineExtrasWitnesses.
#[local] Existing Instance TestHost.host.

Lemma evaluateTemplate_without_marker_witness :
  hasExpression "plain {text}" = false
  /\ evaluateTemplate (JsString "plain {text}") false TestHost.ticked
     = (Return (JsString "plain {text}"), TestHost.ticked).
Proof.
  split; [reflexivity|].
  apply (evaluateTemplate_without_marker "plain {text}" false TestHost.ticked).
  reflexivity.
Defined.

Lemma evaluateTemplate_single_marker_witness :
  let engine := updateContext (input1_is "Hi") new_ExpressionEngine in
  fst (evaluateTemplate (JsString "Hello {{ widgets.input1.value }}!") false
         (engine, TestHost.start))
  = Return (JsString "Hello Hi!").
Proof.
  intros engine.
  exact (f_equal fst
           (evaluateTemplate_single_marker "Hello " " widgets.input1.value "
              "!" false (engine, TestHost.start)
              (snd (evaluate "widgets.input1.value" false
                      (engine, TestHost.start)))
              (JsString "Hi") "Hi" eq_refl ltac:(discriminate) eq_refl
              eq_refl eq_refl eq_refl)).
Defined.

Lemma evaluateTemplate_evaluates_extractExpressions_witness :
  extractExpressions "{{ utils.tick() }} and {{ 7 }}" = ["utils.tick()"; "7"]
  /\ snd (evaluateTemplate (JsString "{{ utils.tick() }} and {{ 7 }}") false
            (new_ExpressionEngine, TestHost.start))
     = later [Evaluate "utils.tick()" false; Evaluate "7" false]
         (new_ExpressionEngine, TestHost.start).
Proof.
  split; [reflexivity|].
  apply (evaluateTemplate_evaluates_extractExpressions
           "{{ utils.tick() }} and {{ 7 }}"
           (new_ExpressionEngine, TestHost.start)).
  intros v. eexists. reflexivity.
Defined.

Lemma validateExpression_forbidden_witness :
  exists keyword,
    keyword ∈ forbidden /\ includes "store.constructor" keyword = true
    /\ validateExpression "store.constructor" TestHost.ticked
       = (Return (false,
                  Some ("Forbidden keyword in expression: " +:+ keyword)),
          TestHost.ticked).
Proof.
  apply (validateExpression_forbidden TestHost.ticked "store.constructor"
           "constructor").
  - unfold forbidden. repeat constructor.
  - reflexivity.
Defined.



Lemma cache_entries_invariant_witness :
  exists entry,
    cache (fst TestHost.ticked) !! "utils.tick()" = Some entry
    /\ sanitizeExpression "utils.tick()" = Return "utils.tick()"
    /\ deps entry = [].
Proof.
  exists {| value := JsNumber 1; deps := [] |}.
  split; [reflexivity|].
  apply (cache_entries_invariant TestHost.ticked "utils.tick()").
  - apply reach_evaluate, reach_new.
  - reflexivity.
Defined.
End EngineExtrasWitnesses.

(** * Further properties of the manager *)

Lemma get_prop_replace_prop props k v :
  get_prop props k = v -> v <> JsUndefined ->
  replace_prop props k v = Some props.
Proof.
  induction props as [|[k' v'] props IH]; simpl; [congruence|].
  destruct (String.eqb_spec k' k) as [->|Hne].
  - now intros ->.
  - intros Hv Hu. now rewrite (IH Hv Hu).
Qed.

Lemma replace_prop_fresh props k v :
  k ∉ map fst props -> replace_prop props k v = None.
Proof.
  induction props as [|[k' v'] props IH]; simpl; [reflexivity|].
  intros Hk. apply not_elem_of_cons in Hk as [Hne Hk].
  destruct (String.eqb_spec k' k) as [->|_]; [contradiction|].
  now rewrite (IH Hk).
Qed.

Lemma set_prop_fresh props k v :
  k <> "__proto__" -> k ∉ map fst props ->
  set_prop props k v = props ++ [(k, v)].
Proof.
  intros Hproto Hk. unfold set_prop.
  destruct (String.eqb_spec k "__proto__"); [contradiction|].
  now rewrite (replace_prop_fresh _ _ _ Hk).
Qed.

Lemma plain_object_app_cons acc k v rest :
  plain_object (acc ++ (k, v) :: rest) ->
  k <> "__proto__" /\ (k ∉ map fst acc)
  /\ plain_object ((acc ++ [(k, v)]) ++ rest).
Proof.
  intros [Hnd Hproto]. rewrite <- app_assoc. simpl.
  split; [|split; [|now split]].
  - intros ->. apply Hproto. rewrite map_app. simpl.
    apply elem_of_app. right. left.
  - rewrite map_app in Hnd. simpl in Hnd.
    apply NoDup_app in Hnd as (_ & Hdisj & _).
    intros Hin. apply (Hdisj k Hin). left.
Qed.

Section ManagerExtras.
Import ActionManager.
Context {W : Type} `{Host W}.

Lemma on_engine_same {A} (m : Eff (@EngineState W) A) (rt : @Runtime W) r :
  m (expressionEngine rt, world rt) = (r, (expressionEngine rt, world rt)) ->
  on_engine m rt = (r, rt).
Proof.
  intros Hm. destruct rt as [mgr engine w]. unfold on_engine, zoom.
  simpl in *. now rewrite Hm.
Qed.

Lemma evaluateTemplate_plain (text : string) (t : bool) (st : @EngineState W) :
  hasExpression text = false ->
  evaluateTemplate (JsString text) t st = (Return (JsString text), st).
Proof.
  intros Hno. unfold evaluateTemplate.
  destruct (String.eqb_spec text "") as [->|Hne]; [reflexivity|].
  rewrite (truthy_string _ Hne). cbn [negb].
  unfold try_catch, bind. rewrite replace_all_step.
  unfold hasExpression in Hno.
  destruct (exec marker_here (chars_of text)) as [[[b g] r]|];
    [discriminate|].
  unfold ret. now rewrite text_of_chars_of.
Qed.

Lemma executeAction_params action (params1 params2 : option JsValue) :
  executeAction (W := W) action params1 = executeAction action params2.
Proof. reflexivity. Qed.

Lemma run_params actionId (params1 params2 : option JsValue) (rt : @Runtime W) :
  run actionId params1 rt = run actionId params2 rt.
Proof.
  unfold run, bind, gets.
  destruct (actions (manager rt) !! actionId) as [action|]; reflexivity.
Qed.

Lemma chain_loop_params actionIds (params1 params2 : option JsValue) :
  forall acc (rt : @Runtime W),
    chain_loop actionIds params1 acc rt = chain_loop actionIds params2 acc rt.
Proof.
  induction actionIds as [|actionId ids IH]; intros acc rt; [reflexivity|].
  cbn [chain_loop]. unfold bind.
  rewrite (run_params actionId params1 params2 rt).
  destruct (run actionId params2 rt) as [[r|error] rt1]; [|reflexivity].
  destruct (negb (success r)); [reflexivity|apply IH].
Qed.

(** X9. The parameters given to [run] and to [runActionChain] are never
    used: no executor reads them, so the result and the state a call
    leaves are the same for every parameter object. *)
Theorem run_ignores_params (rt : @Runtime W) (params1 params2 : option JsValue) :
  (forall actionId, run actionId params1 rt = run actionId params2 rt)
  /\ (forall actionIds,
        runActionChain actionIds params1 rt
        = runActionChain actionIds params2 rt).
Proof.
  split.
  - intros actionId. apply run_params.
  - intros actionIds. apply chain_loop_params.
Qed.

Lemma same_registrations_refl actionId (m : @state W) :
  same_registrations actionId m m.
Proof. repeat split. Qed.

Lemma same_registrations_store actionId result (m : @state W)
    (rt : @Runtime W) :
  same_registrations actionId m (manager rt) ->
  same_registrations actionId m (manager (store_result actionId result rt)).
Proof.
  intros (Ha & Hl & Hw & Hn & Hm & Hr). repeat split; try assumption.
  intros other Hne. simpl. rewrite lookup_insert_ne by congruence.
  now apply Hr.
Qed.

Lemma notifyListeners_manager actionId result (rt : @Runtime W) :
  manager (snd (notifyListeners actionId result rt)) = manager rt.
Proof. rewrite notifyListeners_spec. reflexivity. Qed.

(** X10. The code of [run], of [notifyListeners] and of the executors
    writes no registration.  Listeners and callbacks are computations on
    the host (one that calls the manager again is outside the model);
    for such listeners and callbacks, the actions, the listeners and the
    three callbacks of the manager are the same after the call as before
    it, whether the executor or a listener succeeded or threw, and the
    only stored result that can differ is the one of the identifier that
    was run. *)
Theorem run_keeps_registrations (rt : @Runtime W) (actionId : string)
    (params : option JsValue) :
  same_registrations actionId (manager rt)
    (manager (snd (run actionId params rt))).
Proof.
  destruct (actions (manager rt) !! actionId) as [action|] eqn:Hact.
  - pose proof (executeAction_keeps_manager action params rt) as Hkeep.
    destruct (executeAction action params rt) as [[r|error] rt1] eqn:Hexec;
      cbn [snd] in Hkeep.
    + rewrite (run_try actionId params rt action r rt1 Hact Hexec).
      pose proof (notifyListeners_manager actionId r
                    (store_result actionId r rt1)) as Hn1.
      assert (H1 : same_registrations actionId (manager rt)
                     (manager (store_result actionId r rt1))).
      { apply same_registrations_store. rewrite Hkeep.
        apply same_registrations_refl. }
      destruct (notifyListeners actionId r _) as [[[]|error] rt2];
        cbn [snd] in Hn1.
      * cbn [snd]. now rewrite Hn1.
      * cbv zeta.
        set (result' := failed (error_message error) None).
        pose proof (notifyListeners_manager actionId result'
                      (store_result actionId result' rt2)) as Hn2.
        assert (H2 : same_registrations actionId (manager rt)
                       (manager (store_result actionId result' rt2))).
        { apply same_registrations_store. now rewrite Hn1. }
        destruct (notifyListeners actionId result' _) as [[[]|error'] rt3];
          cbn [snd] in *; now rewrite Hn2.
    + rewrite (run_catch actionId params rt action error rt1 Hact Hexec).
      cbv zeta. set (result := failed (error_message error) None).
      pose proof (notifyListeners_manager actionId result
                    (store_result actionId result rt1)) as Hn1.
      assert (H1 : same_registrations actionId (manager rt)
                     (manager (store_result actionId result rt1))).
      { apply same_registrations_store. rewrite Hkeep.
        apply same_registrations_refl. }
      destruct (notifyListeners actionId result _) as [[[]|error'] rt2];
        cbn [snd] in *; now rewrite Hn1.
  - rewrite (run_not_found actionId params rt Hact). cbv zeta.
    pose proof (notifyListeners_manager actionId
                  (failed ("Action not found: " +:+ actionId) None) rt) as Hn.
    destruct (notifyListeners actionId _ rt) as [[[]|error] rt'];
      cbn [snd] in *; rewrite Hn; apply same_registrations_refl.
Qed.


Lemma listener_set_add_twice (set : list (ActionListener W)) listener :
  listener_set_add (listener_set_add set listener) listener
  = listener_set_add set listener.
Proof.
  unfold listener_set_add.
  destruct (existsb (same_listener listener) set) eqn:E.
  - now rewrite E.
  - rewrite existsb_app, E. simpl. unfold same_listener.
    now rewrite Nat.eqb_refl.
Qed.

Lemma listener_set_delete_add (set : list (ActionListener W)) listener :
  listener_set_delete (listener_set_add set listener) listener
  = listener_set_delete set listener.
Proof.
  unfold listener_set_delete, listener_set_add.
  destruct (existsb (same_listener listener) set); [reflexivity|].
  rewrite filter_app, filter_cons_False, filter_nil, app_nil_r; [reflexivity|].
  unfold same_listener. rewrite Nat.eqb_refl. simpl. tauto.
Qed.

Lemma set_listeners_eq (m : @state W) l :
  l = listeners m -> set_listeners l m = m.
Proof. intros ->. now destruct m. Qed.

(** X12. The listeners of an identifier are a set: adding a listener
    that is already registered changes nothing.  [removeListener] undoes
    [addListener]: the listeners of the identifier are then the
    earlier ones without the removed function, which is never notified
    afterwards, and the listeners of the other identifiers are
    untouched. *)
Theorem addListener_removeListener (m : @state W) (actionId : string)
    (listener : ActionListener W) :
  let added := addListener actionId listener m in
  let removed := removeListener actionId listener added in
  addListener actionId listener added = added
  /\ listeners removed !! actionId
     = Some (listener_set_delete (default [] (listeners m !! actionId))
               listener)
  /\ (forall l, l ∈ default [] (listeners removed !! actionId) ->
        same_listener listener l = false)
  /\ (forall other, other <> actionId ->
        listeners removed !! other = listeners m !! other).
Proof.
  intros added removed.
  assert (Hadded : listeners added
            = <[actionId := listener_set_add
                              (default [] (listeners m !! actionId)) listener]>
                (listeners m)).
  { subst added. unfold addListener.
    destruct (listeners m !! actionId) as [set|] eqn:E; simpl.
    - now rewrite E.
    - rewrite lookup_insert_eq. simpl. now rewrite insert_insert_eq. }
  assert (Hremoved : listeners removed
            = <[actionId := listener_set_delete
                              (default [] (listeners m !! actionId)) listener]>
                (listeners m)).
  { subst removed. unfold removeListener.
    rewrite Hadded, lookup_insert_eq. simpl.
    now rewrite insert_insert_eq, listener_set_delete_add. }
  split; [|split; [|split]].
  - unfold addListener at 1.
    rewrite Hadded, lookup_insert_eq. simpl.
    rewrite Hadded, lookup_insert_eq, insert_insert_eq, listener_set_add_twice.
    apply set_listeners_eq. now rewrite Hadded.
  - now rewrite Hremoved, lookup_insert_eq.
  - intros l. rewrite Hremoved, lookup_insert_eq. simpl.
    unfold listener_set_delete. intros [Hl _]%list_elem_of_filter.
    now destruct (same_listener listener l).
  - intros other Hne. rewrite Hremoved.
    now rewrite lookup_insert_ne by congruence.
Qed.

Lemma quiet_forEach actionId (m : @state W) result w :
  quiet_for actionId m ->
  fst (forEach_listener (default [] (listeners m !! actionId)) result w)
  = Return tt.
Proof.
  intros Hquiet. apply forEach_listener_quiet. intros l w' Hin.
  destruct (listeners m !! actionId) as [s|] eqn:E; [|inversion Hin].
  now apply (Hquiet s).
Qed.

(** X13. An action whose type is none of the twelve that [executeAction]
    knows is not executed at all: [run] returns, and stores, the failure
    [Unknown action type: <type>], and the engine is not touched. *)
Theorem run_unknown_type (rt : @Runtime W) (actionId : string)
    (params : option JsValue) (action : ActionDefinition) :
  actions (manager rt) !! actionId = Some action ->
  type action ∉ action_types ->
  quiet_for actionId (manager rt) ->
  let result := failed ("Unknown action type: " +:+ type action) None in
  let after := run actionId params rt in
  fst after = Return result
  /\ getResult actionId (manager (snd after)) = Some result
  /\ expressionEngine (snd after) = expressionEngine rt.
Proof.
  intros Hact Htype Hquiet result after.
  assert (Hexec : executeAction action params rt
                  = (Throw (JsError ("Unknown action type: " +:+ type action)),
                     rt)).
  { unfold executeAction. cbv zeta.
    unfold action_types in Htype.
    repeat (apply not_elem_of_cons in Htype as [Hne Htype];
            apply String.eqb_neq in Hne; rewrite Hne; clear Hne).
    reflexivity. }
  subst after.
  rewrite (run_catch actionId params rt action _ rt Hact Hexec).
  cbv zeta. cbn [error_message]. fold result.
  rewrite notifyListeners_spec.
  pose proof (quiet_forEach actionId (manager rt) result (world rt) Hquiet)
    as Hq.
  cbn [store_result manager listeners world].
  destruct (forEach_listener _ result (world rt)) as [[[]|error] w'];
    simpl in Hq; [|discriminate].
  simpl. split; [reflexivity|]. split; [apply lookup_insert_eq|reflexivity].
Qed.

(** X14. A [runJS] action never makes its executor throw, and it runs
    its code once: when the code passes the sanitizer and the [Function]
    constructor and returns [v], the action succeeds with [v] and the
    value is cached under the code; executing the action again gives the
    same result from the cache, the code does not run a second time, and
    neither the engine nor the host changes. *)
Theorem runJS_runs_code_once (rt : @Runtime W) (action : ActionDefinition)
    (params : option JsValue) (code : string) (v : JsValue) ctx1 (w1 : W) :
  type action = "runJS" ->
  get_prop (config action) "code" = JsString code ->
  code <> "" ->
  cache (expressionEngine rt) !! code = None ->
  sanitizeExpression code = Return code ->
  js_compile code = None ->
  js_run code (context (expressionEngine rt), world rt)
  = (Return v, (ctx1, w1)) ->
  (forall rt', exists result,
     fst (executeAction action params rt') = Return result)
  /\ exists rt1,
       executeAction action params rt = (Return (succeed (Some v)), rt1)
       /\ world rt1 = w1
       /\ executeAction action params rt1 = (Return (succeed (Some v)), rt1).
Proof.
  intros Htype Hcode Hne Hc Hs Hcomp Hrun.
  assert (Hexec : executeAction action params
                  = executeRunJSAction action params).
  { unfold executeAction. rewrite Htype. reflexivity. }
  rewrite Hexec. split.
  - intros rt'. apply try_catch_returns. intros error st'.
    eexists. reflexivity.
  - unfold executeRunJSAction. cbv zeta. rewrite Hcode.
    unfold try_catch, bind at 1, on_engine at 1, zoom, evaluate_any.
    rewrite (evaluate_value code true _ _ v ctx1 w1 Hne Hc Hs Hcomp Hrun).
    eexists. split; [reflexivity|]. split; [reflexivity|].
    unfold bind at 1, on_engine at 1, zoom.
    cbn [expressionEngine world].
    rewrite (evaluate_hit code true _ w1 {| value := v; deps := [] |} Hne);
      [reflexivity|apply lookup_insert_eq].
Qed.

(** X15. The [localStorage] executor, on a host whose storage returns
    what was stored and whose [JSON.parse] inverts [JSON.stringify] on
    the value: a [set] action followed by a [get] action on the same key
    gives back the value.  A [get] for which the storage returns [null]
    or the empty string succeeds with [null], and [JSON.parse] is not
    called. *)
Theorem localStorage_set_then_get (rt : @Runtime W)
    (setter getter : ActionDefinition) (params : option JsValue)
    (key value text : JsValue) (w1 w2 : W) :
  storage_action setter "set" key ->
  get_prop (config setter) "value" = value ->
  storage_action getter "get" key ->
  JSON_stringify value = Return text ->
  localStorage_setItem key text (world rt) = (Return tt, w1) ->
  localStorage_getItem key w1 = (Return text, w2) ->
  truthy text = true ->
  JSON_parse text = Return value ->
  executeAction setter params rt
  = (Return (succeed (Some (JsObject [("key", key); ("value", value)]))),
     set_world w1 rt)
  /\ executeAction getter params (set_world w1 rt)
     = (Return (succeed (Some value)), set_world w2 rt)
  /\ forall rt' stored w',
       localStorage_getItem key (world rt') = (Return stored, w') ->
       truthy stored = false ->
       executeAction getter params rt'
       = (Return (succeed (Some JsNull)), set_world w' rt').
Proof.
  intros (Hts & Hos & Hks) Hvs (Htg & Hog & Hkg) Hjson Hset Hget Htruthy
    Hparse.
  split; [|split].
  - unfold executeAction. rewrite Hts. cbn -[executeLocalStorageAction].
    unfold executeLocalStorageAction. cbv zeta. rewrite Hos, Hks, Hvs.
    cbn [is_literal String.eqb Ascii.eqb Bool.eqb].
    unfold bind at 1, of_outcome. rewrite Hjson.
    unfold bind at 1, on_world, zoom. rewrite Hset. reflexivity.
  - unfold executeAction. rewrite Htg. cbn -[executeLocalStorageAction].
    unfold executeLocalStorageAction. cbv zeta. rewrite Hog, Hkg.
    cbn [is_literal String.eqb Ascii.eqb Bool.eqb].
    unfold bind at 1, on_world, zoom. cbn [world set_world]. rewrite Hget.
    unfold bind at 1. rewrite Htruthy. unfold of_outcome. rewrite Hparse.
    reflexivity.
  - intros rt' stored w' Hget' Hfalsy.
    unfold executeAction. rewrite Htg. cbn -[executeLocalStorageAction].
    unfold executeLocalStorageAction. cbv zeta. rewrite Hog, Hkg.
    cbn [is_literal String.eqb Ascii.eqb Bool.eqb].
    unfold bind at 1, on_world, zoom. rewrite Hget'.
    unfold bind at 1. rewrite Hfalsy. reflexivity.
Qed.
End ManagerExtras.

Section ExecutorExtras.
Import ActionManager.
Context {W : Type} `{Host W}.

Lemma evaluate_updates_literals entries :
  forall acc (st : @EngineState W),
    plain_object (acc ++ entries) ->
    Forall (fun kv => without_marker (snd kv)) entries ->
    evaluate_updates entries acc st = (Return (acc ++ entries), st).
Proof.
  induction entries as [|[k v] rest IH]; intros acc st Hplain Hlit.
  - simpl. now rewrite app_nil_r.
  - apply plain_object_app_cons in Hplain as (Hproto & Hfresh & Hplain).
    apply Forall_cons in Hlit as [Hv Hlit]. simpl in Hv.
    cbn [evaluate_updates]. unfold bind at 1.
    assert (Hresolved :
      (match v with
       | JsString text =>
           if hasExpression text then evaluate text false else ret v
       | _ => ret v
       end) st = (Return v, st)).
    { destruct v; try reflexivity. simpl in Hv. now rewrite Hv. }
    rewrite Hresolved, (set_prop_fresh _ _ _ Hproto Hfresh).
    rewrite (IH _ st Hplain Hlit), <- app_assoc. reflexivity.
Qed.

(** X16. Updates without marker reach the widget unchanged.  For an
    [updateWidget] action whose [updates] object holds no string with a
    marker, nothing is evaluated: the widget-update callback is called
    once, with the configured widget id and an object equal to the
    configured updates, keys in the same order, and the action succeeds
    with the same data; the engine is not touched. *)
Theorem updateWidget_literals_pass (rt : @Runtime W)
    (action : ActionDefinition) (params : option JsValue)
    (widgetId : JsValue) (updates : list (string * JsValue))
    (callback : JsValue -> JsValue -> Eff W unit) (w1 : W) :
  type action = "updateWidget" ->
  get_prop (config action) "widgetId" = widgetId ->
  get_prop (config action) "updates" = JsObject updates ->
  plain_object updates ->
  Forall (fun kv => without_marker (snd kv)) updates ->
  widgetUpdateCallback (manager rt) = Some callback ->
  callback widgetId (JsObject updates) (world rt) = (Return tt, w1) ->
  executeAction action params rt
  = (Return (succeed (Some (JsObject [("widgetId", widgetId);
                                      ("updates", JsObject updates)]))),
     set_world w1 rt).
Proof.
  intros Htype Hid Hupdates Hplain Hlit Hcb Hcall.
  unfold executeAction. rewrite Htype. cbn -[executeUpdateWidgetAction].
  unfold executeUpdateWidgetAction. cbv zeta. rewrite Hid, Hupdates.
  unfold bind at 1, of_outcome. cbn [Object_entries own_props].
  unfold bind at 1.
  rewrite (on_engine_same _ rt (Return updates));
    [|now apply (evaluate_updates_literals updates [])].
  unfold bind at 1, gets. rewrite Hcb.
  unfold bind at 1, on_world, zoom. rewrite Hcall. reflexivity.
Qed.

(** X17. The defaults of the [http] executor and what it makes of the
    response.  An action that configures only a URL without marker sends
    [fetch(url, {method: 'GET', headers: {'Content-Type':
    'application/json'}, body: undefined})] with an abort delay of 30000
    ms.  The body of the response is read as JSON when the content type
    includes [application/json] and as text otherwise, before the status
    is looked at; a response that is not [ok] gives the failure
    [HTTP <status>: <statusText>], which still carries the body as data,
    and an [ok] response gives a success with the body. *)
Theorem http_defaults_and_status (rt : @Runtime W)
    (action : ActionDefinition) (params : option JsValue) (url : string)
    (response : Response W) (w1 w2 : W) (d : JsValue) :
  http_url_only action url ->
  hasExpression url = false ->
  fetch (JsString url)
    (JsObject [("method", JsString "GET");
               ("headers",
                JsObject [("Content-Type", JsString "application/json")]);
               ("body", JsUndefined)])
    (Some (JsNumber 30000)) (world rt)
  = (Return response, w1) ->
  (match content_type response with
   | Some contentType =>
       if includes contentType "application/json"
       then json response else text response
   | None => text response
   end) w1 = (Return d, w2) ->
  executeAction action params rt
  = (Return (if ok response then succeed (Some d)
             else failed ("HTTP " +:+ status response +:+ ": "
                          +:+ statusText response) (Some d)),
     set_world w2 rt).
Proof.
  intros (Htype & Hurl & Hmethod & Hheaders & Hbody & Htimeout) Hplain
    Hfetch Hread.
  unfold executeAction. rewrite Htype. cbn -[executeHttpAction].
  unfold executeHttpAction, get_default. cbv zeta.
  rewrite Hurl, Hmethod, Hheaders, Hbody, Htimeout.
  unfold bind at 1.
  rewrite (on_engine_same _ rt (Return (JsString url)));
    [|now apply evaluateTemplate_plain].
  unfold bind at 1, of_outcome. cbn [Object_entries own_props].
  unfold bind at 1.
  rewrite (on_engine_same _ rt (Return [])); [|reflexivity].
  unfold bind at 1. cbn [truthy]. unfold bind at 1, ret at 1.
  unfold bind at 1, on_world at 1, zoom.
  change (with_content_type [])
    with (JsObject [("Content-Type", JsString "application/json")]).
  rewrite Hfetch.
  unfold on_world, zoom. cbn [world set_world].
  revert Hread.
  destruct (content_type response) as [contentType|];
    [destruct (includes contentType "application/json")|];
    intros ->; destruct (ok response); reflexivity.
Qed.

(** X18. A listener that throws on a success turns it into a failure.
    When the executor of a registered action returns [r] and a listener
    throws while the listeners are told about [r], the [catch] block of
    [run] takes over: the failure built from the listener's error
    replaces [r] as the stored result, every listener of the identifier
    is called again from the first, now with the failure, and the failure
    is what [run] returns. *)
Theorem run_listener_failure_replaces_result (rt rt1 : @Runtime W)
    (actionId : string) (params : option JsValue)
    (action : ActionDefinition) (r : ActionResult) (error : JsThrown)
    (w' w'' : W) :
  actions (manager rt) !! actionId = Some action ->
  executeAction action params rt = (Return r, rt1) ->
  let set := default [] (listeners (manager rt) !! actionId) in
  let result := failed (error_message error) None in
  forEach_listener set r (world rt1) = (Throw error, w') ->
  forEach_listener set result w' = (Return tt, w'') ->
  let after := run actionId params rt in
  fst after = Return result
  /\ getResult actionId (manager (snd after)) = Some result
  /\ world (snd after) = w''.
Proof.
  intros Hact Hexec set result Hfirst Hsecond after.
  pose proof (executeAction_keeps_manager action params rt) as Hkeep.
  rewrite Hexec in Hkeep. cbn [snd] in Hkeep.
  subst after.
  rewrite (run_try actionId params rt action r rt1 Hact Hexec).
  rewrite notifyListeners_spec.
  cbn [store_result manager listeners world]. rewrite Hkeep. fold set.
  rewrite Hfirst. cbn [fst snd]. cbv zeta. fold result.
  rewrite notifyListeners_spec.
  cbn [store_result set_world manager listeners world]. rewrite Hkeep.
  fold set. rewrite Hsecond.
  split; [reflexivity|]. split; [apply lookup_insert_eq|reflexivity].
Qed.
End ExecutorExtras.

(** *** The further manager properties on the test hosts *)
Section ManagerExtrasWitnesses.
Import ActionManager.
#[local] Existing Instance TestHost.host.

Lemma run_unknown_type_witness :
  fst (run "jump" None TestCases.more_runtime)
  = Return (failed "Unknown action type: teleport" None)
  /\ getResult "jump" (manager (snd (run "jump" None TestCases.more_runtime)))
     = Some (failed "Unknown action type: teleport" None).
Proof.
  assert (Hquiet : quiet_for "jump" (manager TestCases.more_runtime)).
  { intros set l result w Hset. vm_compute in Hset. discriminate. }
  assert (Htype : type TestCases.teleport_action ∉ action_types).
  { unfold action_types. intros Hin.
    repeat (apply elem_of_cons in Hin as [Hin|Hin]; [discriminate|]).
    inversion Hin. }
  destruct (run_unknown_type TestCases.more_runtime "jump" None
              TestCases.teleport_action eq_refl Htype Hquiet)
    as (Hfst & Hget & _).
  split; assumption.
Defined.

Lemma runJS_runs_code_once_witness :
  exists rt1,
    executeAction TestCases.tick_action None TestCases.more_runtime
    = (Return (succeed (Some (JsNumber 1))), rt1)
    /\ TestHost.ticks (world rt1) = 1%nat
    /\ executeAction TestCases.tick_action None rt1
       = (Return (succeed (Some (JsNumber 1))), rt1).
Proof.
  destruct (runJS_runs_code_once TestCases.more_runtime TestCases.tick_action
              None "utils.tick()" (JsNumber 1)
              (context new_ExpressionEngine)
              {| TestHost.ticks := 1; TestHost.trace := [];
                 TestHost.storage := [] |}
              eq_refl eq_refl ltac:(discriminate) eq_refl eq_refl eq_refl
              eq_refl) as (_ & rt1 & Hfirst & Hworld & Hsecond).
  exists rt1. split; [assumption|]. split; [now rewrite Hworld|assumption].
Defined.

Lemma updateWidget_literals_pass_witness :
  executeAction TestCases.literal_action None TestCases.more_runtime
  = (Return (succeed (Some (JsObject
               [("widgetId", JsString "w1");
                ("updates", JsObject [("label", JsString "Hello");
                                      ("count", JsNumber 3)])]))),
     set_world
       (TestHost.record "widgetUpdate"
          (JsObject [("widgetId", JsString "w1");
                     ("updates", JsObject [("label", JsString "Hello");
                                           ("count", JsNumber 3)])])
          TestHost.start)
       TestCases.more_runtime).
Proof.
  apply (updateWidget_literals_pass TestCases.more_runtime
           TestCases.literal_action None (JsString "w1")
           [("label", JsString "Hello"); ("count", JsNumber 3)]
           TestHost.widget_sink);
    try reflexivity.
  - split.
    + simpl. repeat constructor; intros Hin;
        repeat (apply elem_of_cons in Hin as [Hin|Hin]; [discriminate|]);
        inversion Hin.
    + simpl. intros Hin.
      repeat (apply elem_of_cons in Hin as [Hin|Hin]; [discriminate|]).
      inversion Hin.
  - repeat constructor.
Defined.

Lemma run_listener_failure_replaces_result_witness :
  fst (executeAction TestHost.modal_action None TestCases.more_runtime)
  = Return (succeed (Some (JsObject [("modalId", JsString "m1");
                                     ("action", JsString "open")])))
  /\ fst (run "open" None TestCases.more_runtime)
     = Return (failed "listener failed" None)
  /\ getResult "open" (manager (snd (run "open" None TestCases.more_runtime)))
     = Some (failed "listener failed" None).
Proof.
  split; [reflexivity|].
  destruct (run_listener_failure_replaces_result TestCases.more_runtime
              TestCases.more_runtime "open" None TestHost.modal_action
              (succeed (Some (JsObject [("modalId", JsString "m1");
                                        ("action", JsString "open")])))
              (JsError "listener failed")
              (TestHost.record "picky" (JsBool true) TestHost.start)
              (TestHost.record "picky" (JsBool false)
                 (TestHost.record "picky" (JsBool true) TestHost.start))
              eq_refl eq_refl eq_refl eq_refl) as (Hfst & Hget & _).
  split; assumption.
Defined.
End ManagerExtrasWitnesses.

Section StorageWitnesses.
Import ActionManager.
#[local] Existing Instance TestCases.json_host.

Lemma localStorage_set_then_get_witness :
  fst (executeAction TestCases.remember_action None TestCases.more_runtime)
  = Return (succeed (Some (JsObject [("key", JsString "answer");
                                     ("value", JsNumber 42)])))
  /\ fst (executeAction TestCases.recall_action None
            (snd (executeAction TestCases.remember_action None
                    TestCases.more_runtime)))
     = Return (succeed (Some (JsNumber 42)))
  /\ fst (executeAction TestCases.recall_action None TestCases.more_runtime)
     = Return (succeed (Some JsNull)).
Proof.
  destruct (localStorage_set_then_get (H := TestCases.json_host)
              TestCases.more_runtime
              TestCases.remember_action TestCases.recall_action None
              (JsString "answer") (JsNumber 42) (JsString "42")
              (TestHost.set_storage [("answer", "42")] TestHost.start)
              (TestHost.set_storage [("answer", "42")] TestHost.start)
              (conj eq_refl (conj eq_refl eq_refl)) eq_refl
              (conj eq_refl (conj eq_refl eq_refl)) eq_refl eq_refl eq_refl
              eq_refl eq_refl)
    as (Hset & Hget & Hmissing).
  split; [now rewrite Hset|].
  split; [rewrite Hset; cbn [snd]; now rewrite Hget|].
  now rewrite (Hmissing TestCases.more_runtime JsNull TestHost.start eq_refl
                 eq_refl).
Defined.

Lemma http_defaults_and_status_witness :
  executeAction TestCases.user_action None TestCases.more_runtime
  = (Return (failed "HTTP 404: Not Found"
               (Some (JsObject [("message", JsString "no such user")]))),
     set_world
       (TestHost.record "fetch"
          (JsObject
             [("url", JsString "https://example.org/users/7");
              ("init",
               JsObject [("method", JsString "GET");
                         ("headers",
                          JsObject [("Content-Type",
                                     JsString "application/json")]);
                         ("body", JsUndefined)]);
              ("timeout", JsNumber 30000)])
          TestHost.start)
       TestCases.more_runtime).
Proof.
  eapply (http_defaults_and_status (H := TestCases.json_host)
            TestCases.more_runtime TestCases.user_action
            None "https://example.org/users/7" TestCases.not_found);
    [repeat split|reflexivity|reflexivity|reflexivity].
Defined.
End StorageWitnesses.

(** * Properties of the runtime renderer *)

Lemma hasExpression_not_empty text : hasExpression text = true -> text <> "".
Proof. intros Hm ->. discriminate. Qed.

Lemma replace_prop_None props k v :
  replace_prop props k v = None -> k ∉ map fst props.
Proof.
  induction props as [|[k0 v0] props IH]; simpl; intros Hnone.
  - intros Hin. inversion Hin.
  - destruct (String.eqb_spec k0 k) as [->|Hne]; [discriminate|].
    destruct (replace_prop props k v) eqn:E; [discriminate|].
    apply not_elem_of_cons. split; [congruence|now apply IH].
Qed.

Lemma get_prop_replace_prop_Some props k v k' :
  forall props',
    replace_prop props k v = Some props' ->
    get_prop props' k' = if String.eqb k k' then v else get_prop props k'.
Proof.
  induction props as [|[k0 v0] props IH]; simpl; intros props' Hsome;
    [discriminate|].
  destruct (String.eqb_spec k0 k) as [->|Hne].
  - injection Hsome as <-. simpl.
    destruct (String.eqb_spec k k'); reflexivity.
  - destruct (replace_prop props k v) as [props1|] eqn:E; [|discriminate].
    injection Hsome as <-. simpl.
    destruct (String.eqb_spec k0 k') as [->|_]; [|now apply IH].
    destruct (String.eqb_spec k k'); [congruence|reflexivity].
Qed.

Lemma get_prop_app_fresh props k v k' :
  k ∉ map fst props ->
  get_prop (props ++ [(k, v)]) k'
  = if String.eqb k k' then v else get_prop props k'.
Proof.
  induction props as [|[k0 v0] props IH]; simpl; intros Hk.
  - reflexivity.
  - apply not_elem_of_cons in Hk as [Hne Hk].
    destruct (String.eqb_spec k0 k') as [->|_]; [|now apply IH].
    destruct (String.eqb_spec k k'); [congruence|reflexivity].
Qed.

Lemma get_prop_insert_index props n k v k' :
  k ∉ map fst props ->
  get_prop (insert_index props n k v) k'
  = if String.eqb k k' then v else get_prop props k'.
Proof.
  induction props as [|[k0 v0] props IH]; simpl; intros Hk.
  - reflexivity.
  - apply not_elem_of_cons in Hk as [Hne Hk].
    destruct (array_index k0) as [m|]; [|reflexivity].
    destruct (n <? m)%Z; [reflexivity|]. simpl.
    destruct (String.eqb_spec k0 k') as [->|_]; [|now apply IH].
    destruct (String.eqb_spec k k'); [congruence|reflexivity].
Qed.

Lemma get_prop_define_prop props k v k' :
  get_prop (define_prop props k v) k'
  = if String.eqb k k' then v else get_prop props k'.
Proof.
  unfold define_prop.
  destruct (replace_prop props k v) as [props'|] eqn:E; simpl.
  - now apply (get_prop_replace_prop_Some props k v k').
  - apply replace_prop_None in E. unfold add_prop.
    destruct (array_index k) as [n|].
    + now apply get_prop_insert_index.
    + now apply get_prop_app_fresh.
Qed.






Lemma get_prop_absent props k :
  k ∉ map fst props -> get_prop props k = JsUndefined.
Proof.
  induction props as [|[k0 v0] props IH]; simpl; [reflexivity|].
  intros [Hne Hk]%not_elem_of_cons.
  destruct (String.eqb_spec k0 k); [congruence|now apply IH].
Qed.

Lemma get_prop_spread source :
  forall base k,
    NoDup (map fst source) ->
    get_prop (spread base source) k
    = if decide (k ∈ map fst source) then get_prop source k
      else get_prop base k.
Proof.
  unfold spread.
  induction source as [|[k0 v0] source IH]; intros base k Hnd; simpl.
  - destruct (decide (k ∈ [])) as [Hin|_]; [inversion Hin|reflexivity].
  - apply NoDup_cons in Hnd as [Hfresh Hnd].
    rewrite (IH _ k Hnd), get_prop_define_prop.
    destruct (String.eqb_spec k0 k) as [->|Hne].
    + destruct (decide (k ∈ map fst source)) as [Hin|_]; [contradiction|].
      destruct (decide (k ∈ k :: map fst source)) as [_|Hout];
        [reflexivity|].
      exfalso. apply Hout. left.
    + destruct (decide (k ∈ map fst source)) as [Hin|Hout];
        destruct (decide (k ∈ k0 :: map fst source)) as [Hin'|Hout'];
        try reflexivity.
      * exfalso. apply Hout'. now right.
      * apply elem_of_cons in Hin' as [->|Hin']; [congruence|contradiction].
Qed.

Section RendererExtras.
Import ActionManager.
Context {W : Type} `{Host W}.

Lemma evaluate_props_literals entries :
  forall acc (st : @EngineState W),
    plain_object (acc ++ entries) ->
    Forall (fun kv => without_marker (snd kv)) entries ->
    RuntimeRenderer.evaluate_props entries acc st
    = (Return (acc ++ entries), st).
Proof.
  induction entries as [|[k v] rest IH]; intros acc st Hplain Hlit.
  - simpl. now rewrite app_nil_r.
  - apply plain_object_app_cons in Hplain as (Hproto & Hfresh & Hplain).
    apply Forall_cons in Hlit as [Hv Hlit]. simpl in Hv.
    cbn [RuntimeRenderer.evaluate_props]. unfold bind at 1.
    assert (Hresolved :
      (match v with
       | JsString text =>
           if hasExpression text then evaluate text false
           else evaluateTemplate v false
       | _ => ret v
       end) st = (Return v, st)).
    { destruct v; try reflexivity. simpl in Hv. rewrite Hv.
      now apply evaluateTemplate_plain. }
    rewrite Hresolved, (set_prop_fresh _ _ _ Hproto Hfresh).
    rewrite (IH _ st Hplain Hlit), <- app_assoc. reflexivity.
Qed.

(** X19. [evaluateComponentProps] returns a component whose properties
    hold no marker as it is: the evaluated properties are the same
    values under the same keys in the same order, the other fields of the
    component are kept, nothing is evaluated, and the engine and the host
    are untouched. *)
Theorem evaluateComponentProps_literals
    (component props : list (string * JsValue)) (st : @EngineState W) :
  get_prop component "props" = JsObject props ->
  plain_object props ->
  Forall (fun kv => without_marker (snd kv)) props ->
  RuntimeRenderer.evaluateComponentProps (JsObject component) st
  = (Return (JsObject component), st).
Proof.
  intros Hprops Hplain Hlit.
  unfold RuntimeRenderer.evaluateComponentProps.
  unfold bind at 1, of_outcome. cbn [member]. rewrite Hprops.
  unfold bind at 1. cbn [Object_entries own_props].
  unfold bind at 1.
  rewrite (evaluate_props_literals props [] st Hplain Hlit).
  unfold ret, define_prop. cbn [app own_props].
  now rewrite (get_prop_replace_prop component "props" (JsObject props)).
Qed.

(** X20. A string property that contains a marker is given to
    [evaluate] whole, braces and surrounding text included, not to
    [evaluateTemplate].  So when the sanitizer or the JavaScript engine
    refuses the text as an expression (a text such as
    [Hello {{ widgets.input1.value }}] is no expression), the property
    the component is drawn with is [undefined], and the host only sees
    the console warning. *)
Theorem evaluateComponentProps_marker_prop
    (component : list (string * JsValue)) (key text : string)
    (this : ExpressionEngine) (w : W) (error : JsThrown) :
  get_prop component "props" = JsObject [(key, JsString text)] ->
  key <> "__proto__" ->
  hasExpression text = true ->
  cache this !! text = None ->
  sanitizeExpression text = Throw error
  \/ (sanitizeExpression text = Return text /\ js_compile text = Some error) ->
  RuntimeRenderer.evaluateComponentProps (JsObject component) (this, w)
  = (Return (JsObject (define_prop component "props"
                         (JsObject [(key, JsUndefined)]))),
     (this,
      console_warn "Expression evaluation error:" (JsString text) error w)).
Proof.
  intros Hprops Hkey Hmarker Hc Hrej.
  unfold RuntimeRenderer.evaluateComponentProps.
  unfold bind at 1, of_outcome. cbn [member]. rewrite Hprops.
  unfold bind at 1. cbn [Object_entries own_props].
  unfold bind at 1. cbn [RuntimeRenderer.evaluate_props].
  rewrite Hmarker. unfold bind at 1.
  rewrite (evaluate_rejected text false this w error
             (hasExpression_not_empty _ Hmarker) Hc Hrej).
  unfold ret. rewrite (set_prop_fresh [] key JsUndefined Hkey);
    [reflexivity|]. intros Hin. inversion Hin.
Qed.

(** X21. What expressions see of a component.  The object
    [createRuntime] stores for a component in the [widgets] namespace
    holds every property of the component under its own name; only where
    the component has no property called [id] or [type] do these names
    give the identifier and the type of the component, so a property
    with one of these names hides it. *)
Theorem widget_of_props_shadow (component props : list (string * JsValue)) :
  get_prop component "props" = JsObject props ->
  NoDup (map fst props) ->
  exists fields,
    RuntimeRenderer.widget_of (JsObject component) = Return (JsObject fields)
    /\ forall k,
         get_prop fields k
         = if decide (k ∈ map fst props) then get_prop props k
           else get_prop [("id", get_prop component "id");
                          ("type", get_prop component "type")] k.
Proof.
  intros Hprops Hnd. eexists. split.
  - unfold RuntimeRenderer.widget_of. cbn [member]. rewrite Hprops.
    reflexivity.
  - intros k. cbn [own_props]. now rewrite get_prop_spread.
Qed.

(** X22. The [updateWidget] function of the object that [createRuntime]
    returns runs the action registered under the identifier
    ["updateWidget"]; it does not call the widget-update callback itself.
    When no action has that identifier the call has no effect on any
    widget: the manager and the engine stay as they are, and the host
    only sees the listeners of ["updateWidget"], if there are any, being
    told [Action not found: updateWidget].  The caller gets nothing
    back. *)
Theorem createRuntime_updateWidget_unregistered
    (config : RuntimeRenderer.RuntimeConfig) (rt rt1 : @Runtime W)
    (api : RuntimeRenderer.Api.t W) (rt2 : @Runtime W)
    (widgetId updates : JsValue) :
  RuntimeRenderer.createRuntime config rt = (Return api, rt1) ->
  actions (manager rt2) !! "updateWidget" = None ->
  let called := RuntimeRenderer.Api.updateWidget api widgetId updates rt2 in
  let set := default [] (listeners (manager rt2) !! "updateWidget") in
  fst called = Return tt
  /\ manager (snd called) = manager rt2
  /\ expressionEngine (snd called) = expressionEngine rt2
  /\ world (snd called)
     = if default true (RuntimeRenderer.enableActions config)
       then snd (forEach_listener set
                   (failed "Action not found: updateWidget" None)
                   (world rt2))
       else world rt2.
Proof.
  intros Hcreate Hnone called set.
  assert (Hupdate :
    RuntimeRenderer.Api.updateWidget api widgetId updates
    = if default true (RuntimeRenderer.enableActions config)
      then fun rt =>
             (Return tt,
              snd (run "updateWidget"
                     (Some (JsObject [("widgetId", widgetId);
                                      ("updates", updates)])) rt))
      else ret tt).
  { unfold RuntimeRenderer.createRuntime in Hcreate. cbv zeta in Hcreate.
    unfold bind at 1 in Hcreate.
    match type of Hcreate with
    | context [match ?setup rt with _ => _ end] =>
        destruct (setup rt) as [[[]|error] rt']
    end; [|discriminate].
    unfold ret in Hcreate. injection Hcreate as <- _. reflexivity. }
  subst called. rewrite Hupdate.
  destruct (default true (RuntimeRenderer.enableActions config)).
  - rewrite (run_not_found "updateWidget" _ rt2 Hnone). cbv zeta.
    rewrite notifyListeners_spec. fold set.
    destruct (forEach_listener set _ (world rt2)) as [[[]|error] w'];
      repeat split.
  - repeat split.
Qed.
End RendererExtras.

Section RuntimeSetup.
Context {W : Type} `{Host W}.




End RuntimeSetup.

Section RendererWitnesses.
Import ActionManager.
#[local] Existing Instance TestHost.host.

Lemma evaluateComponentProps_literals_witness :
  RuntimeRenderer.evaluateComponentProps TestCases.plain_button
    TestHost.ticked
  = (Return TestCases.plain_button, TestHost.ticked).
Proof.
  apply (evaluateComponentProps_literals
           [("id", JsString "b1"); ("type", JsString "button");
            ("props", JsObject [("label", JsString "Save");
                                ("disabled", JsBool false)]);
            ("x", JsNumber 10); ("y", JsNumber 20)]
           [("label", JsString "Save"); ("disabled", JsBool false)]).
  - reflexivity.
  - split.
    + simpl. repeat constructor; intros Hin;
        repeat (apply elem_of_cons in Hin as [Hin|Hin]; [discriminate|]);
        inversion Hin.
    + simpl. intros Hin.
      repeat (apply elem_of_cons in Hin as [Hin|Hin]; [discriminate|]).
      inversion Hin.
  - repeat constructor.
Defined.

Lemma evaluateComponentProps_marker_prop_witness :
  let engine := updateContext (input1_is "Hi") new_ExpressionEngine in
  fst (RuntimeRenderer.evaluateComponentProps TestCases.bound_button
         (engine, TestHost.start))
  = Return (JsObject [("id", JsString "b2"); ("type", JsString "button");
                      ("props", JsObject [("label", JsUndefined)])])
  /\ fst (evaluateTemplate (JsString "Hello {{ widgets.input1.value }}") false
            (engine, TestHost.start))
     = Return (JsString "Hello Hi").
Proof.
  intros engine. split; [|reflexivity].
  exact (f_equal fst
           (evaluateComponentProps_marker_prop
              [("id", JsString "b2"); ("type", JsString "button");
               ("props",
                JsObject [("label",
                           JsString "Hello {{ widgets.input1.value }}")])]
              "label"
              "Hello {{ widgets.input1.value }}" engine TestHost.start
              (JsError "Unexpected token") eq_refl ltac:(discriminate)
              eq_refl eq_refl (or_intror (conj eq_refl eq_refl)))).
Defined.

Lemma widget_of_props_shadow_witness :
  exists fields,
    RuntimeRenderer.widget_of
      (JsObject [("id", JsString "b3"); ("type", JsString "button");
                 ("props", JsObject [("label", JsString "Save");
                                     ("id", JsString "save-button")])])
    = Return (JsObject fields)
    /\ get_prop fields "id" = JsString "save-button"
    /\ get_prop fields "type" = JsString "button"
    /\ get_prop fields "label" = JsString "Save".
Proof.
  destruct (widget_of_props_shadow
              [("id", JsString "b3"); ("type", JsString "button");
               ("props", JsObject [("label", JsString "Save");
                                   ("id", JsString "save-button")])]
              [("label", JsString "Save"); ("id", JsString "save-button")]
              eq_refl) as (fields & Hw & Hget).
  { simpl. repeat constructor; intros Hin;
      repeat (apply elem_of_cons in Hin as [Hin|Hin]; [discriminate|]);
      inversion Hin. }
  exists fields. split; [exact Hw|].
  rewrite !Hget. repeat split.
Defined.


Lemma createRuntime_updateWidget_unregistered_witness :
  exists api rt1,
    RuntimeRenderer.createRuntime TestCases.config TestCases.more_runtime
    = (Return api, rt1)
    /\ let called :=
         RuntimeRenderer.Api.updateWidget api (JsString "b1")
           (JsObject [("label", JsString "Saved")]) rt1 in
       fst called = Return tt
       /\ manager (snd called) = manager rt1
       /\ world (snd called) = TestHost.start.
Proof.
  eexists _, _. split; [reflexivity|].
  match goal with
  | |- context [RuntimeRenderer.Api.updateWidget ?api _ _ ?rt1] =>
      destruct (createRuntime_updateWidget_unregistered TestCases.config
                  TestCases.more_runtime rt1 api rt1 (JsString "b1")
                  (JsObject [("label", JsString "Saved")]) eq_refl eq_refl)
        as (Hfst & Hmanager & _ & Hworld)
  end.
  split; [exact Hfst|]. split; [exact Hmanager|exact Hworld].
Defined.
End RendererWitnesses.

(** * Properties of the history manager *)

Lemma slice_prefix {A} (l : list A) (n : Z) :
  (0 <= n <= Z.of_nat (length l))%Z ->
  slice l 0 n = take (Z.to_nat n) l.
Proof.
  intros Hn. unfold slice. cbn [Z.ltb Z.compare].
  destruct (Z.ltb_spec n 0); [lia|].
  rewrite Z.min_l, Z.min_l by lia.
  rewrite Z.sub_0_r. reflexivity.
Qed.

Lemma at_index_lookup {A} (l : list A) (i : Z) a :
  (0 <= i)%Z -> l !! Z.to_nat i = Some a -> at_index l i = element a.
Proof.
  intros Hi Hl. unfold at_index.
  destruct (Z.ltb_spec i 0); [lia|]. now rewrite Hl.
Qed.

Section HistoryExtras.
Import HistoryManager.
Context {W : Type} `{Platform W}.

(** The entry [addEntry] builds. *)
Lemma addEntry_spec entry (this : state) (w : W) :
  valid this ->
  let uuid := crypto_randomUUID w in
  let now := Date_now (snd uuid) in
  let newEntry :=
    {| fields := entry; id := fst uuid; timestamp := fst now |} in
  let kept := take (Z.to_nat (currentIndex this + 1)) (history this) in
  addEntry entry this w
  = (if (maxHistorySize this <? currentIndex this + 2)%Z
     then {| history := drop 1 (kept ++ [newEntry]);
             currentIndex := currentIndex this;
             maxHistorySize := maxHistorySize this |}
     else {| history := kept ++ [newEntry];
             currentIndex := currentIndex this + 1;
             maxHistorySize := maxHistorySize this |},
     snd now)
  /\ Z.of_nat (length kept) = (currentIndex this + 1)%Z.
Proof.
  intros [Hindex Hsize]. cbv zeta.
  assert (Hlen : Z.of_nat (length (take (Z.to_nat (currentIndex this + 1))
                                     (history this)))
                 = (currentIndex this + 1)%Z).
  { rewrite length_take. lia. }
  split; [|exact Hlen].
  unfold addEntry. rewrite slice_prefix by lia.
  destruct (crypto_randomUUID w) as [uuid wa]. cbn [fst snd].
  destruct (Date_now wa) as [now wb]. cbn [fst snd].
  rewrite length_app. cbn [length].
  replace (Z.of_nat (length (take (Z.to_nat (currentIndex this + 1))
                               (history this)) + 1))
    with (currentIndex this + 2)%Z by lia.
  destruct (maxHistorySize this <? currentIndex this + 2)%Z; reflexivity.
Qed.

Lemma addEntry_valid entry (this : state) (w : W) :
  valid this ->
  valid (fst (addEntry entry this w))
  /\ maxHistorySize (fst (addEntry entry this w)) = maxHistorySize this.
Proof.
  intros Hvalid.
  destruct (addEntry_spec entry this w Hvalid) as [-> Hlen].
  destruct Hvalid as [Hindex Hsize]. cbn [fst].
  destruct (Z.ltb_spec (maxHistorySize this) (currentIndex this + 2));
    cbn [history currentIndex maxHistorySize];
    (split; [|reflexivity]); unfold valid;
    cbn [history currentIndex maxHistorySize];
    rewrite ?length_drop, length_app; cbn [length]; lia.
Qed.

Lemma undo_valid (this : state) :
  valid this ->
  valid (snd (undo this))
  /\ maxHistorySize (snd (undo this)) = maxHistorySize this.
Proof.
  intros [Hindex Hsize]. unfold undo, canUndo.
  destruct (Z.leb_spec 0 (currentIndex this)); cbn [negb snd];
    (split; [|reflexivity]); unfold valid;
    cbn [history currentIndex maxHistorySize]; lia.
Qed.

Lemma redo_valid (this : state) :
  valid this ->
  valid (snd (redo this))
  /\ maxHistorySize (snd (redo this)) = maxHistorySize this.
Proof.
  intros [Hindex Hsize]. unfold redo, canRedo.
  destruct (Z.ltb_spec (currentIndex this)
              (Z.of_nat (length (history this)) - 1)); cbn [negb snd];
    (split; [|reflexivity]); unfold valid;
    cbn [history currentIndex maxHistorySize]; lia.
Qed.

Lemma call_valid (c : Call) (st : state * W) :
  valid (fst st) ->
  valid (fst (call c st))
  /\ maxHistorySize (fst (call c st)) = maxHistorySize (fst st).
Proof.
  destruct st as [this w]. cbn [fst]. intros Hvalid.
  destruct c; cbn [call fst];
    try (apply addEntry_valid; assumption).
  - now apply undo_valid.
  - now apply redo_valid.
  - destruct Hvalid as [Hindex Hsize]. split; [|reflexivity].
    unfold valid. cbn. lia.
Qed.

Lemma calls_valid (cs : list Call) :
  forall st : state * W,
    valid (fst st) ->
    valid (fst (calls cs st))
    /\ maxHistorySize (fst (calls cs st)) = maxHistorySize (fst st).
Proof.
  induction cs as [|c cs IH]; intros st Hvalid; [now split|].
  cbn [calls fold_left].
  destruct (call_valid c st Hvalid) as [Hv Hm].
  destruct (IH (call c st) Hv) as [Hv' Hm'].
  split; [exact Hv'|]. unfold calls in Hm'. now rewrite Hm'.
Qed.

(** X23. An invariant of the history, after any sequence of calls of
    [addEntry], [undo], [redo], [clear] and the [record...] methods on a
    new manager: the history never holds more than 50 entries, and the
    current index is -1 or the position of an entry, so [undo] and [redo]
    never read outside the array. *)
Theorem history_invariant (cs : list Call) (w : W) :
  let this := fst (calls cs (new, w)) in
  (-1 <= currentIndex this < Z.of_nat (length (history this)))%Z
  /\ length (history this) <= 50
  /\ fst (undo this) <> undefined
  /\ fst (redo this) <> undefined.
Proof.
  intros this.
  destruct (calls_valid cs (new, w)) as [[Hindex Hsize] Hmax].
  { unfold valid. cbn. lia. }
  fold this in Hindex, Hsize, Hmax. cbn in Hmax.
  split; [exact Hindex|]. split; [lia|].
  split.
  - unfold undo, canUndo.
    destruct (Z.leb_spec 0 (currentIndex this)); cbn [negb fst];
      [|discriminate].
    destruct (lookup_lt_is_Some_2 (history this)
                (Z.to_nat (currentIndex this))) as [entry Hentry]; [lia|].
    now rewrite (at_index_lookup _ _ entry).
  - unfold redo, canRedo.
    destruct (Z.ltb_spec (currentIndex this)
                (Z.of_nat (length (history this)) - 1)); cbn [negb fst];
      [|discriminate].
    cbn [history currentIndex].
    destruct (lookup_lt_is_Some_2 (history this)
                (Z.to_nat (currentIndex this + 1))) as [entry Hentry]; [lia|].
    rewrite (at_index_lookup _ _ entry); [discriminate|lia|exact Hentry].
Qed.

(** X24. [undo] and [redo] are inverse to each other.  When there is
    something to undo, [undo] returns the entry at the current index, and
    a [redo] right after it returns the same entry and puts the manager
    back in the state it was in; when there is something to redo, [redo]
    followed by [undo] does the same. *)
Theorem undo_redo_round_trip (this : state) :
  valid this ->
  (canUndo this = true ->
   exists entry,
     history this !! Z.to_nat (currentIndex this) = Some entry
     /\ fst (undo this) = element entry
     /\ redo (snd (undo this)) = (element entry, this))
  /\ (canRedo this = true ->
      exists entry,
        history this !! Z.to_nat (currentIndex this + 1) = Some entry
        /\ fst (redo this) = element entry
        /\ undo (snd (redo this)) = (element entry, this)).
Proof.
  intros [Hindex Hsize]. destruct this as [h i m].
  cbn [history currentIndex maxHistorySize] in *. split.
  - unfold canUndo. cbn [currentIndex]. intros Hcan.
    apply Z.leb_le in Hcan.
    destruct (lookup_lt_is_Some_2 h (Z.to_nat i)) as [entry Hentry]; [lia|].
    exists entry. split; [exact Hentry|].
    unfold undo, canUndo. cbn [currentIndex history maxHistorySize].
    destruct (Z.leb_spec 0 i); [|lia]. cbn [negb fst snd].
    split; [now apply at_index_lookup|].
    unfold redo, canRedo. cbn [currentIndex history maxHistorySize].
    destruct (Z.ltb_spec (i - 1) (Z.of_nat (length h) - 1)); [|lia].
    cbn [negb]. replace (i - 1 + 1)%Z with i by lia.
    now rewrite (at_index_lookup h i entry).
  - unfold canRedo. cbn [currentIndex history]. intros Hcan.
    apply Z.ltb_lt in Hcan.
    destruct (lookup_lt_is_Some_2 h (Z.to_nat (i + 1))) as [entry Hentry];
      [lia|].
    exists entry. split; [exact Hentry|].
    unfold redo, canRedo. cbn [currentIndex history maxHistorySize].
    destruct (Z.ltb_spec i (Z.of_nat (length h) - 1)); [|lia].
    cbn [negb fst snd].
    split; [apply at_index_lookup; [lia|exact Hentry]|].
    unfold undo, canUndo. cbn [currentIndex history maxHistorySize].
    destruct (Z.leb_spec 0 (i + 1)); [|lia].
    cbn [negb]. replace (i + 1 - 1)%Z with i by lia.
    rewrite (at_index_lookup h (i + 1) entry); [reflexivity|lia|exact Hentry].
Qed.

(** X25. [addEntry] starts a new branch.  The entries after the current
    index, which are the ones that were undone, are dropped; the new
    entry, with the identifier and the time the platform gave, becomes
    the last and the current one, so there is nothing to redo and [undo]
    returns the new entry; and if that makes the history longer than its
    limit, the oldest entry is dropped. *)
Theorem addEntry_starts_new_branch (entry : EntryFields) (this : state)
    (w : W) :
  valid this ->
  (0 < maxHistorySize this)%Z ->
  let uuid := crypto_randomUUID w in
  let now := Date_now (snd uuid) in
  let newEntry :=
    {| fields := entry; id := fst uuid; timestamp := fst now |} in
  let kept := take (Z.to_nat (currentIndex this + 1)) (history this) in
  let this' := fst (addEntry entry this w) in
  history this'
  = drop (if (currentIndex this + 1 <? maxHistorySize this)%Z then 0 else 1)
      kept ++ [newEntry]
  /\ snd (addEntry entry this w) = snd now
  /\ canRedo this' = false
  /\ canUndo this' = true
  /\ fst (undo this') = element newEntry.
Proof.
  intros Hvalid Hmax. cbv zeta.
  destruct (addEntry_spec entry this w Hvalid) as [Hadd Hlen].
  destruct (addEntry_valid entry this w Hvalid) as [[Hindex' _] _].
  cbv zeta in Hadd. revert Hindex'. rewrite Hadd. cbn [fst snd].
  set (kept := take (Z.to_nat (currentIndex this + 1)) (history this)) in *.
  set (newEntry := {| fields := entry;
                      id := fst (crypto_randomUUID w);
                      timestamp := fst (Date_now (snd (crypto_randomUUID w))) |}).
  destruct Hvalid as [Hindex Hsize].
  assert (Hlast : forall (l : list HistoryEntry) (i : Z),
            Z.of_nat (length l) = i ->
            (l ++ [newEntry]) !! Z.to_nat i = Some newEntry).
  { intros l i <-. rewrite Nat2Z.id. apply list_lookup_middle. reflexivity. }
  destruct (Z.ltb_spec (maxHistorySize this) (currentIndex this + 2))
    as [Hfull|Hroom]; intros Hindex';
    cbn [history currentIndex maxHistorySize] in *.
  - destruct (Z.ltb_spec (currentIndex this + 1) (maxHistorySize this));
      [lia|].
    assert (Hdrop : drop 1 (kept ++ [newEntry]) = drop 1 kept ++ [newEntry]).
    { apply drop_app_le. lia. }
    rewrite Hdrop. split; [reflexivity|]. split; [reflexivity|].
    unfold canRedo, canUndo, undo, canUndo.
    cbn [history currentIndex maxHistorySize].
    rewrite length_app, length_drop. cbn [length].
    destruct (Z.ltb_spec (currentIndex this)
                (Z.of_nat (length kept - 1 + 1) - 1)); [lia|].
    destruct (Z.leb_spec 0 (currentIndex this)); [|lia].
    split; [reflexivity|]. split; [reflexivity|]. cbn [negb fst].
    apply at_index_lookup; [lia|]. apply Hlast.
    rewrite length_drop. lia.
  - destruct (Z.ltb_spec (currentIndex this + 1) (maxHistorySize this));
      [|lia].
    rewrite drop_0. split; [reflexivity|]. split; [reflexivity|].
    unfold canRedo, canUndo, undo, canUndo.
    cbn [history currentIndex maxHistorySize].
    rewrite length_app. cbn [length].
    destruct (Z.ltb_spec (currentIndex this + 1)
                (Z.of_nat (length kept + 1) - 1)); [lia|].
    destruct (Z.leb_spec 0 (currentIndex this + 1)); [|lia].
    split; [reflexivity|]. split; [reflexivity|]. cbn [negb fst].
    apply at_index_lookup; [lia|]. now apply Hlast.
Qed.

Lemma addEntries_snoc entries entry (st : state * W) :
  addEntries (entries ++ [entry]) st
  = addEntry entry (fst (addEntries entries st)) (snd (addEntries entries st)).
Proof. unfold addEntries. now rewrite fold_left_app. Qed.

(** X26. The history keeps the last 50 changes.  After any number of
    [addEntry] calls on a new manager, the history holds the fields of the
    last 50 entries that were added (all of them if there were fewer), in
    the order they were added, and the current index is the last
    position. *)
Theorem history_keeps_last_50 (entries : list EntryFields) (w : W) :
  let this := fst (addEntries entries (new, w)) in
  map fields (history this) = drop (length entries - 50) entries
  /\ currentIndex this = (Z.of_nat (min (length entries) 50) - 1)%Z.
Proof.
  cbv zeta.
  assert (Hall :
    map fields (history (fst (addEntries entries (new, w))))
    = drop (length entries - 50) entries
    /\ currentIndex (fst (addEntries entries (new, w)))
       = (Z.of_nat (min (length entries) 50) - 1)%Z
    /\ maxHistorySize (fst (addEntries entries (new, w))) = 50%Z).
  { induction entries as [|entry entries IH] using rev_ind.
    - repeat split.
    - destruct IH as (Hfields & Hindex & Hmax).
      rewrite addEntries_snoc.
      set (st := addEntries entries (new, w)) in *.
      assert (Hlen : length (history (fst st)) = min (length entries) 50).
      { rewrite <- (length_map fields), Hfields, length_drop. lia. }
      assert (Hvalid : valid (fst st)).
      { unfold valid. rewrite Hindex, Hmax, Hlen. lia. }
      destruct (addEntry_spec entry (fst st) (snd st) Hvalid) as [-> _].
      cbn [fst]. rewrite Hindex, Hmax.
      replace (Z.to_nat (Z.of_nat (min (length entries) 50) - 1 + 1))
        with (length (history (fst st))) by lia.
      rewrite firstn_all, length_app. cbn [length].
      destruct (Z.ltb_spec 50 (Z.of_nat (min (length entries) 50) - 1 + 2))
        as [Hfull|Hroom]; cbn [history currentIndex maxHistorySize].
      + split; [|split; [lia|reflexivity]].
        rewrite drop_app_le by lia.
        rewrite map_app, <- skipn_map, Hfields, drop_drop.
        replace (length entries + 1 - 50) with (length entries - 50 + 1)
          by lia.
        rewrite drop_app_le by lia. reflexivity.
      + split; [|split; [lia|reflexivity]].
        rewrite map_app, Hfields.
        replace (length entries + 1 - 50) with 0 by lia.
        replace (length entries - 50) with 0 by lia.
        reflexivity. }
  destruct Hall as (Hfields & Hindex & _). now split.
Qed.
End HistoryExtras.

Section HistoryWitnesses.
Import HistoryManager.
#[local] Existing Instance TestCases.platform.

(** A history of three moves, the last of which was undone. *)
Lemma three_moves_valid :
  valid (fst (calls [AddEntry (TestCases.move 1); AddEntry (TestCases.move 2);
                     AddEntry (TestCases.move 3); Undo]
                (new, TestHost.start))).
Proof. unfold valid. vm_compute. repeat split; discriminate. Qed.

Lemma undo_redo_round_trip_witness :
  let this :=
    fst (calls [AddEntry (TestCases.move 1); AddEntry (TestCases.move 2);
                AddEntry (TestCases.move 3); Undo]
           (new, TestHost.start)) in
  (exists entry,
     fields entry = TestCases.move 2
     /\ fst (undo this) = element entry
     /\ redo (snd (undo this)) = (element entry, this))
  /\ (exists entry,
        fields entry = TestCases.move 3
        /\ fst (redo this) = element entry
        /\ undo (snd (redo this)) = (element entry, this)).
Proof.
  intros this.
  destruct (undo_redo_round_trip this three_moves_valid) as [Hundo Hredo].
  destruct (Hundo eq_refl) as (e1 & H1 & Hu1 & Hr1).
  destruct (Hredo eq_refl) as (e2 & H2 & Hr2 & Hu2).
  split.
  - exists e1. split; [|split; assumption].
    vm_compute in H1. now injection H1 as <-.
  - exists e2. split; [|split; assumption].
    vm_compute in H2. now injection H2 as <-.
Defined.

Lemma addEntry_starts_new_branch_witness :
  let this :=
    fst (calls [AddEntry (TestCases.move 1); AddEntry (TestCases.move 2);
                AddEntry (TestCases.move 3); Undo]
           (new, TestHost.start)) in
  let this' := fst (addEntry (TestCases.move 7) this TestHost.start) in
  map fields (history this') = [TestCases.move 1; TestCases.move 2;
                                TestCases.move 7]
  /\ canRedo this' = false
  /\ canUndo this' = true.
Proof.
  intros this this'.
  destruct (addEntry_starts_new_branch (TestCases.move 7) this TestHost.start
              three_moves_valid eq_refl) as (Hhistory & _ & Hredo & Hundo & _).
  split; [|split; assumption].
  fold this' in Hhistory. rewrite Hhistory. reflexivity.
Defined.
End HistoryWitnesses.

(** * Properties of the persistence service *)
Section PersistenceExtras.
Import PersistenceService.
Context {W : Type} `{Host W} `{Platform W}.

(** X27. The browser-storage methods of the persistence service swallow
    every error.  [saveToLocalStorage], [loadFromLocalStorage], [autoSave]
    and [loadAutoSave] never throw, whatever the storage and [JSON] do;
    and [loadFromLocalStorage] answers [null] in each case where it has
    nothing to give: the storage throws, it holds nothing (or the empty
    string) under the key, or what it holds cannot be parsed. *)
Theorem storage_methods_swallow_errors (w : W) :
  (forall key data, fst (saveToLocalStorage key data w) = Return tt)
  /\ (forall projectId pages settings,
        fst (autoSave projectId pages settings w) = Return tt)
  /\ (forall key, exists v, fst (loadFromLocalStorage key w) = Return v)
  /\ (exists v, fst (loadAutoSave w) = Return v)
  /\ (forall key,
        match localStorage_getItem key w with
        | (Throw _, _) => True
        | (Return stored, _) =>
            truthy stored = false
            \/ exists error, JSON_parse stored = Throw error
        end ->
        fst (loadFromLocalStorage key w) = Return JsNull).
Proof.
  assert (Hsave : forall key data w',
            fst (saveToLocalStorage key data w') = Return tt).
  { intros key data w'. unfold saveToLocalStorage, try_catch, bind, of_outcome.
    destruct (JSON_stringify data) as [text|error]; [|reflexivity].
    destruct (localStorage_setItem key text w') as [[[]|error] w1];
      reflexivity. }
  assert (Hload : forall key, exists v,
            fst (loadFromLocalStorage key w) = Return v).
  { intros key. apply try_catch_returns. intros error st'.
    eexists. reflexivity. }
  split; [intros; apply Hsave|]. split; [|split; [exact Hload|split]].
  - intros projectId pages settings. unfold autoSave, bind.
    destruct (Date_toISOString w) as [iso w']. apply Hsave.
  - apply Hload.
  - intros key. unfold loadFromLocalStorage, try_catch, bind at 1.
    destruct (localStorage_getItem key w) as [[stored|error] w1];
      [|reflexivity].
    intros [Hfalsy|[error Hparse]].
    + now rewrite Hfalsy.
    + destruct (truthy stored); [|reflexivity].
      unfold of_outcome. rewrite Hparse. reflexivity.
Qed.
End PersistenceExtras.
